(** * Scrapster: email attribution, result deduplication and keyword relevance

    A shallow embedding of the decision logic of [app.py],
    [keyword_validator.py], [config.py], [scrapster_config.py] and
    [direct_scraper.py].

    Conventions of the embedding:
    - Python [str] values are [string]s of ASCII characters; [lower],
      [isspace] and the regular-expression classes act on code points
      below 128 the way Python does on ASCII text. A text outside ASCII
      is read as its UTF-8 bytes; a byte above 127 is left alone by
      [lower] and is taken for neither white space nor a letter. The
      embedding follows Python there only where no case mapping, no
      Unicode white space and no character class is involved, as for the
      long s of the counterexample of C2.
    - Python [float] values are IEEE-754 binary64 numbers ([PrimFloat]).
    - [re] patterns are terms of a small regular-expression syntax run by a
      backtracking matcher with Python's priorities (leftmost match, greedy
      and lazy repetition, ordered alternation).
    - Network access (the HTTP fetch of a profile page, the browser-driven
      scraper) is an explicit function argument.
    - A call that can raise returns an [option]; [None] is the exception.
    - A dictionary that is shared and written to (the API keys of
      [config.py]) is named by the place it lives in, so that a write to a
      copy and a write to the original differ. *)

From Stdlib Require Import ZArith Floats Uint63 Ascii String Sorted.
From stdpp Require Import gmap strings list pretty.

Local Open Scope string_scope.
Local Open Scope list_scope.
#[local] Set Warnings "-inexact-float".

(** ** Python string primitives *)

Module Text.

Definition code (c : ascii) : N := N_of_ascii c.

Definition in_range (lo hi : N) (c : ascii) : bool :=
  ((lo <=? code c) && (code c <=? hi))%N.

Definition is_upper : ascii -> bool := in_range 65 90.
Definition is_lower : ascii -> bool := in_range 97 122.
Definition is_digit : ascii -> bool := in_range 48 57.
Definition is_alpha (c : ascii) : bool := is_upper c || is_lower c.
Definition is_alnum (c : ascii) : bool := is_alpha c || is_digit c.

(** [\w]: letters, digits and the underscore. *)
Definition is_word (c : ascii) : bool := is_alnum c || (code c =? 95)%N.

(** [str.isspace] and [\s]: TAB, LF, VT, FF, CR, FS, GS, RS, US and space. *)
Definition is_space (c : ascii) : bool :=
  in_range 9 13 c || in_range 28 32 c.

Definition lower_char (c : ascii) : ascii :=
  if is_upper c then ascii_of_N (code c + 32) else c.

(** [s.lower()] *)
Fixpoint lower (s : string) : string :=
  match s with
  | EmptyString => EmptyString
  | String c s' => String (lower_char c) (lower s')
  end.

(** [s.startswith(p)] *)
Fixpoint startswith (p s : string) : bool :=
  match p, s with
  | EmptyString, _ => true
  | String a p', String b s' => if Ascii.eqb a b then startswith p' s' else false
  | String _ _, EmptyString => false
  end.

(** [p in s] *)
Fixpoint contains (p s : string) : bool :=
  startswith p s ||
  match s with
  | EmptyString => false
  | String _ s' => contains p s'
  end.

(** [p] occurs somewhere in [s]: what [p in s] decides. *)
Definition occurs_in (p s : string) : Prop := exists pre post, s = pre +:+ p +:+ post.

(** [bool(s)]: a string is truthy when it is not empty. *)
Definition truthy (s : string) : bool :=
  match s with EmptyString => false | _ => true end.

Fixpoint lstrip (s : string) : string :=
  match s with
  | String c s' => if is_space c then lstrip s' else s
  | EmptyString => EmptyString
  end.

Fixpoint rstrip (s : string) : string :=
  match s with
  | EmptyString => EmptyString
  | String c s' =>
      match rstrip s' with
      | EmptyString => if is_space c then EmptyString else String c EmptyString
      | t => String c t
      end
  end.

(** [s.strip()] *)
Definition strip (s : string) : string := rstrip (lstrip s).

(** [s.split()]: the maximal runs of non-space characters. *)
Fixpoint split_ws_aux (cur : string) (s : string) : list string :=
  match s with
  | EmptyString => if truthy cur then [String.rev cur] else []
  | String c s' =>
      if is_space c
      then (if truthy cur then [String.rev cur] else []) ++ split_ws_aux EmptyString s'
      else split_ws_aux (String c cur) s'
  end.

Definition split_ws (s : string) : list string := split_ws_aux EmptyString s.

(** [s.replace(c, '')] for a one-character [c]. *)
Fixpoint remove_char (x : ascii) (s : string) : string :=
  match s with
  | EmptyString => EmptyString
  | String c s' => if Ascii.eqb c x then remove_char x s' else String c (remove_char x s')
  end.

(** [bool(l)]: a list is truthy when it is not empty. *)
Definition truthy_list {A} (l : list A) : bool :=
  match l with [] => false | _ => true end.

(** [any(f(x) for x in l)] and [sum(1 for x in l if f(x))] *)
Definition any {A} (f : A -> bool) (l : list A) : bool := existsb f l.
Fixpoint count {A} (f : A -> bool) (l : list A) : nat :=
  match l with
  | [] => 0
  | x :: l' => (if f x then 1 else 0) + count f l'
  end.

End Text.

(** ** Regular expressions

    The fragment of Python's [re] syntax that the patterns of the program
    use. Repetition is applied to character classes only, which is all the
    patterns need. *)

Module Re.

Inductive regex :=
| Empty                                        (* the empty pattern *)
| Char (p : ascii -> bool)                     (* one character of a class *)
| Seq (r1 r2 : regex)                          (* r1 r2 *)
| Alt (r1 r2 : regex)                          (* r1|r2, r1 tried first *)
| Repeat (p : ascii -> bool) (lo : nat) (greedy : bool)
                                               (* [p]{lo,} or [p]{lo,}? *)
| WordBoundary                                 (* \b *)
| EndOfString                                  (* $ *)
| Group (r : regex).                           (* ( r ), capturing *)

(** A position in the subject: the text before it (reversed, so that its
    head is the previous character), the text after it, and the groups
    closed so far. *)
Record mstate := MState {
  m_prev : list ascii;
  m_rest : list ascii;
  m_caps : list (list ascii)
}.

Definition advance (c : ascii) (rest : list ascii) (st : mstate) : mstate :=
  MState (c :: m_prev st) rest (m_caps st).

Definition prev_is_word (st : mstate) : bool :=
  match m_prev st with c :: _ => Text.is_word c | [] => false end.
Definition next_is_word (st : mstate) : bool :=
  match m_rest st with c :: _ => Text.is_word c | [] => false end.

(** [\b]: exactly one side of the position is a word character. *)
Definition at_boundary (st : mstate) : bool := xorb (prev_is_word st) (next_is_word st).

(** [$]: the end of the text, or just before a final line feed. *)
Definition at_end (st : mstate) : bool :=
  match m_rest st with
  | [] => true
  | [c] => (Text.code c =? 10)%N
  | _ => false
  end.

Section Matcher.
Context {A : Type}.

(** [p{lo,}]: greedy takes as many characters as it can and gives them
    back one at a time; lazy takes as few as it can and adds one at a
    time. *)
Fixpoint rep (p : ascii -> bool) (lo : nat) (greedy : bool)
    (prev rest : list ascii) (caps : list (list ascii))
    (k : mstate -> option A) : option A :=
  let stop := match lo with 0 => k (MState prev rest caps) | S _ => None end in
  let more :=
    match rest with
    | c :: rest' => if p c then rep p (pred lo) greedy (c :: prev) rest' caps k else None
    | [] => None
    end in
  if greedy
  then match more with Some x => Some x | None => stop end
  else match stop with Some x => Some x | None => more end.

Fixpoint rmatch (r : regex) (st : mstate) (k : mstate -> option A) : option A :=
  match r with
  | Empty => k st
  | Char p =>
      match m_rest st with
      | c :: rest' => if p c then k (advance c rest' st) else None
      | [] => None
      end
  | Seq r1 r2 => rmatch r1 st (fun st' => rmatch r2 st' k)
  | Alt r1 r2 =>
      match rmatch r1 st k with
      | Some x => Some x
      | None => rmatch r2 st k
      end
  | Repeat p lo greedy => rep p lo greedy (m_prev st) (m_rest st) (m_caps st) k
  | WordBoundary => if at_boundary st then k st else None
  | EndOfString => if at_end st then k st else None
  | Group r1 =>
      rmatch r1 st (fun st' =>
        let n := length (m_prev st') - length (m_prev st) in
        k (MState (m_prev st') (m_rest st') (m_caps st' ++ [rev (take n (m_prev st'))])))
  end.

End Matcher.

(** The match of [r] that starts at a position, if any: its length and
    its groups. *)
Definition match_here (r : regex) (prev rest : list ascii) : option (nat * list (list ascii)) :=
  rmatch r (MState prev rest [])
    (fun st => Some (length (m_prev st) - length prev, m_caps st)).

(** One step of a left-to-right scan: a stretch of text that no match
    covers, followed by a match (the matched text and its groups). *)
Definition piece : Type := list ascii * option (list ascii * list (list ascii)).

(** Scanning as [re.finditer] does: try every position from the left;
    after a match go on from its end. [skip] counts the characters of the
    last match that are still to be stepped over, [gap] collects (in
    reverse) the text since the last match. No pattern of the program
    matches the empty string; after such a match the scan would move on by
    one character. *)
Fixpoint scan (r : regex) (skip : nat) (gap prev rest : list ascii) : list piece :=
  match skip with
  | S n =>
      match rest with
      | c :: rest' => scan r n gap (c :: prev) rest'
      | [] => [(rev gap, None)]
      end
  | 0 =>
      match match_here r prev rest with
      | Some (len, caps) =>
          (rev gap, Some (take len rest, caps)) ::
          match rest with
          | c :: rest' =>
              match len with
              | 0 => scan r 0 [c] (c :: prev) rest'
              | S n => scan r n [] (c :: prev) rest'
              end
          | [] => [([], None)]
          end
      | None =>
          match rest with
          | c :: rest' => scan r 0 (c :: gap) (c :: prev) rest'
          | [] => [(rev gap, None)]
          end
      end
  end.

Definition pieces (r : regex) (s : string) : list piece :=
  scan r 0 [] [] (list_ascii_of_string s).

Definition str (l : list ascii) : string := string_of_list_ascii l.

(** [re.findall(r, s)] for a pattern without groups: the matched texts. *)
Definition findall (r : regex) (s : string) : list string :=
  omap (fun pc : piece => match pc.2 with Some (m, _) => Some (str m) | None => None end)
       (pieces r s).

(** [re.search(r, s)] followed by [.group(1)]. *)
Definition search_group1 (r : regex) (s : string) : option string :=
  match omap (fun pc : piece => pc.2) (pieces r s) with
  | (_, caps) :: _ => Some (str (default [] (head caps)))
  | [] => None
  end.

(** [re.sub(r, '', s)]: the text with every match removed. *)
Definition remove_all (r : regex) (s : string) : string :=
  str (concat (map (fun pc : piece => pc.1) (pieces r s))).

(** [re.split(r, s)] for a pattern without groups. *)
Definition split (r : regex) (s : string) : list string :=
  map (fun pc : piece => str pc.1) (pieces r s).

(** [re.fullmatch(r, s) is not None] *)
Definition fullmatch (r : regex) (s : string) : bool :=
  match rmatch r (MState [] (list_ascii_of_string s) [])
          (fun st => match m_rest st with [] => Some tt | _ => None end) with
  | Some _ => true
  | None => false
  end.

(** Every character of [l] is of the class [p]. *)
Definition all_of (p : ascii -> bool) (l : list ascii) : Prop := Forall (fun c => p c = true) l.

(** *** Pattern builders *)

Definition lit (c : ascii) : regex := Char (Ascii.eqb c).

(** A literal character under [re.IGNORECASE]. *)
Definition ilit (c : ascii) : regex :=
  Char (fun x => Ascii.eqb (Text.lower_char x) (Text.lower_char c)).

Definition one_of (s : string) (c : ascii) : bool :=
  existsb (Ascii.eqb c) (list_ascii_of_string s).

Fixpoint word (mk : ascii -> regex) (s : string) : regex :=
  match s with
  | EmptyString => Empty
  | String c EmptyString => mk c
  | String c s' => Seq (mk c) (word mk s')
  end.

Fixpoint seq (rs : list regex) : regex :=
  match rs with
  | [] => Empty
  | [r] => r
  | r :: rs' => Seq r (seq rs')
  end.

Fixpoint alt (rs : list regex) : regex :=
  match rs with
  | [] => Empty
  | [r] => r
  | r :: rs' => Alt r (alt rs')
  end.

Definition plus (p : ascii -> bool) : regex := Repeat p 1 true.
Definition star (p : ascii -> bool) : regex := Repeat p 0 true.
Definition opt (r : regex) : regex := Alt r Empty.

End Re.

(** ** app.py *)

Module App.
Import Text.

(** *** Patterns *)

Definition email_local (c : ascii) : bool := is_alnum c || Re.one_of "._%+-" c.
Definition email_domain (c : ascii) : bool := is_alnum c || Re.one_of ".-" c.
Definition email_label (c : ascii) : bool := is_alpha c || Re.one_of "|" c.

(** [[A-Za-z0-9._%+-]+@[A-Za-z0-9.-]+\.[A-Z|a-z]{2,}] *)
Definition email_token : Re.regex :=
  Re.seq [Re.plus email_local; Re.lit "@"; Re.plus email_domain; Re.lit ".";
          Re.Repeat email_label 2 true].

(** [EMAIL_PATTERN = \b ... \b] *)
Definition EMAIL_PATTERN : Re.regex :=
  Re.seq [Re.WordBoundary; email_token; Re.WordBoundary].

Definition GENERIC_EMAIL_PATTERNS : list string :=
  ["noreply"; "no-reply"; "donotreply"; "support@"; "info@"; "contact@";
   "admin@"; "webmaster@"; "privacy@"; "hello@"; "mailer-"; "postmaster@";
   "sales@"; "marketing@"; "help@"; "customerservice@"; "service@";
   "broofa"; "example"; "test@"; "sample@"].

(** The tail shared by the three company patterns:
    [([A-Z][a-zA-Z0-9\s&,.-]+?)(?:\s|,|\.|$)], matched with
    [re.IGNORECASE]. *)
Definition company_char (c : ascii) : bool := is_alnum c || is_space c || Re.one_of "&,.-" c.

Definition company_capture : Re.regex :=
  Re.Seq (Re.Group (Re.Seq (Re.Char is_alpha) (Re.Repeat company_char 1 false)))
         (Re.alt [Re.Char is_space; Re.lit ","; Re.lit "."; Re.EndOfString]).

Definition COMPANY_PATTERNS : list Re.regex :=
  [ Re.seq [Re.word Re.ilit "at"; Re.plus is_space; company_capture];
    Re.seq [Re.lit "@"; Re.star is_space; company_capture];
    Re.seq [Re.word Re.ilit "from"; Re.plus is_space; company_capture] ].

(** [\s+(Inc|LLC|Ltd|Corp|Corporation|Company|Co)\.?$] with
    [re.IGNORECASE] *)
Definition legal_suffix : Re.regex :=
  Re.seq [Re.plus is_space;
          Re.Group (Re.alt (map (Re.word Re.ilit)
                       ["inc"; "llc"; "ltd"; "corp"; "corporation"; "company"; "co"]));
          Re.opt (Re.lit "."); Re.EndOfString].

(** [[^a-z0-9.-]] *)
Definition not_domain_char (c : ascii) : bool :=
  negb (is_lower c || is_digit c || Re.one_of ".-" c).

(** *** Helpers of the email pipeline *)

(** An email is generic when a pattern of the vocabulary occurs anywhere
    in its lower-cased text. *)
Definition generic (email : string) : Prop :=
  exists pattern, In pattern GENERIC_EMAIL_PATTERNS /\ occurs_in pattern (lower email).

(** The shared email grammar: the whole string is one email token. *)
Definition well_formed_email (email : string) : bool := Re.fullmatch email_token email.

(** The same grammar in words: a local part of letters, digits and
    [._%+-], an [@], a domain of letters, digits and [.-], a dot, and a
    final label of two or more letters (the class of the source lets a
    [|] through as well). *)
Definition email_shape (s : list ascii) : Prop :=
  exists local domain label,
    s = local ++ "@"%char :: domain ++ "."%char :: label /\
    1 <= length local /\ Re.all_of email_local local /\
    1 <= length domain /\ Re.all_of email_domain domain /\
    2 <= length label /\ Re.all_of email_label label.

Definition is_generic_email (email : string) : bool :=
  let email_lower := lower email in
  any (fun pattern => contains pattern email_lower) GENERIC_EMAIL_PATTERNS.

Fixpoint first_match (patterns : list Re.regex) (text : string) : option string :=
  match patterns with
  | [] => None
  | pattern :: rest =>
      match Re.search_group1 pattern text with
      | Some g => Some g
      | None => first_match rest text
      end
  end.

Definition extract_company (text : string) : string :=
  match first_match COMPANY_PATTERNS text with
  | Some g => Re.remove_all legal_suffix (strip g)
  | None => ""
  end.

Definition infer_email_from_name_company (name company : string) : string :=
  if negb (truthy name) || negb (truthy company) then "" else
  let company_clean := lower company in
  let company_clean := Re.remove_all legal_suffix company_clean in
  let company_clean := Re.remove_all (Re.Char not_domain_char) company_clean in
  let name_parts := split_ws (lower name) in
  match name_parts with
  | [] => ""
  | first_name :: _ =>
      let last_name := match name_parts with
                       | _ :: _ :: _ => default "" (last name_parts)
                       | _ => ""
                       end in
      if truthy last_name
      then first_name +:+ "." +:+ last_name +:+ "@" +:+ company_clean
      else first_name +:+ "@" +:+ company_clean
  end.

Definition name_tokens (name : string) : list string :=
  map lower (List.filter (fun p => Nat.ltb 2 (String.length p)) (split_ws name)).

Definition is_profile_specific_email (email name profile_text : string) : bool :=
  if negb (truthy name) || negb (truthy email) then false else
  let email_lower := lower email in
  if any (fun part => contains part email_lower) (name_tokens name) then true else
  if truthy profile_text then
    let company := extract_company profile_text in
    if truthy company then
      let company_domain :=
        remove_char "," (remove_char "&" (remove_char " " (lower company))) in
      let company_domain := Re.remove_all (Re.Char not_domain_char) company_domain in
      contains company_domain email_lower
    else false
  else false.

(** *** Early return

    [extract_email] leaves its body from inside its loops. A computation
    either has returned an email or goes on with the candidates it has
    gathered. *)

Inductive outcome (A : Type) : Type :=
| Return (email : string)
| Continue (a : A).
Arguments Return {A} email.
Arguments Continue {A} a.

#[export] Instance outcome_bind : MBind outcome := fun A B f m =>
  match m with
  | Return email => Return email
  | Continue a => f a
  end.

(** The value of the call. Every path of [extract_email] ends in a
    [return], so the second case is never reached. *)
Definition returned {A} (m : outcome A) : string :=
  match m with
  | Return email => email
  | Continue _ => ""
  end.

(** A found email with its confidence. *)
Definition candidate : Type := string * nat.

(** The body shared by the loops of strategies 1 and 2: a generic email is
    skipped, a profile-specific one is returned at once, any other is
    recorded with the confidence of the strategy. *)
Fixpoint try_candidates (confidence : nat) (name text : string)
    (emails : list string) (all_found_emails : list candidate) : outcome (list candidate) :=
  match emails with
  | [] => Continue all_found_emails
  | email :: rest =>
      if negb (is_generic_email email) then
        if is_profile_specific_email email name text then Return email
        else try_candidates confidence name text rest (all_found_emails ++ [(email, confidence)])
      else try_candidates confidence name text rest all_found_emails
  end.

(** [l.sort(key=lambda x: x[1], reverse=True)]: a stable sort, highest
    confidence first. *)
Fixpoint insert_by_confidence (x : candidate) (l : list candidate) : list candidate :=
  match l with
  | [] => [x]
  | y :: l' => if Nat.ltb x.2 y.2 then y :: insert_by_confidence x l' else x :: l
  end.

Definition sort_by_confidence (l : list candidate) : list candidate :=
  foldr insert_by_confidence [] l.

Definition PROFILE_DOMAINS : list string :=
  ["linkedin.com/in"; "github.com"; "twitter.com"; "about.me"].

Definition SCRAPE_SKIP_PATTERNS : list string :=
  ["noreply"; "no-reply"; "donotreply"; "support@"; "info@"; "contact@";
   "admin@"; "webmaster@"; "privacy@"].

(** [contact[:\s]+(...)], [email[:\s]+(...)], [reach[:\s]+(...)],
    [mail[:\s]+(...)], each capturing an email token, matched with
    [re.IGNORECASE]. *)
Definition contact_pattern (keyword : string) : Re.regex :=
  Re.seq [Re.word Re.ilit keyword;
          Re.plus (fun c => Re.one_of ":" c || is_space c);
          Re.Group email_token].

Definition contact_patterns : list Re.regex :=
  map contact_pattern ["contact"; "email"; "reach"; "mail"].

Section Pipeline.

(** The network. [fetch url] is the body of the page when the request for
    [url] answers with status 200, [None] when it fails or answers with
    another status. [advanced_scrape link name text] is the list of emails
    of a successful run of the browser-driven scraper, [None] when it
    raises or reports no success. *)
Variable fetch : string -> option string.
Variable advanced_scrape : string -> string -> string -> option (list string).

(** [scrape_profile_for_email(url, use_advanced=False)] *)
Definition scrape_profile_for_email (url : string) : string :=
  match fetch url with
  | Some content =>
      let emails := Re.findall EMAIL_PATTERN content in
      match emails with
      | [] => ""
      | first :: _ =>
          let filtered :=
            List.filter (fun e => negb (any (fun skip => contains skip (lower e)) SCRAPE_SKIP_PATTERNS))
                        emails in
          match filtered with
          | e :: _ => e
          | [] => first
          end
      end
  | None => ""
  end.

Definition extract_email (text url name company profile_url : string) : string :=
  returned (
    (* Strategy 1: the profile text *)
    found ← try_candidates 3 name text (Re.findall EMAIL_PATTERN text) [];
    (* Strategy 2: the URL *)
    found ← (if truthy url
             then try_candidates 2 name text (Re.findall EMAIL_PATTERN url) found
             else Continue found);
    (* Strategy 3: the profile page *)
    found ← (if truthy profile_url &&
                any (fun domain => contains domain (lower profile_url)) PROFILE_DOMAINS
             then
               let scraped_email := scrape_profile_for_email profile_url in
               if truthy scraped_email && negb (is_generic_email scraped_email) then
                 if is_profile_specific_email scraped_email name text
                 then Return scraped_email
                 else Continue (found ++ [(scraped_email, 4)])
               else Continue found
             else Continue found);
    (* Strategy 4: inference from name and company *)
    let found :=
      if negb (truthy_list found) && truthy name && truthy company then
        let inferred := infer_email_from_name_company name company in
        if truthy inferred && negb (is_generic_email inferred)
        then found ++ [(inferred, 1)] else found
      else found in
    (* Strategy 5: inference from the company named in the text *)
    let found :=
      if negb (truthy_list found) && truthy name && truthy text then
        let company_from_text := extract_company text in
        if truthy company_from_text then
          let inferred := infer_email_from_name_company name company_from_text in
          if truthy inferred && negb (is_generic_email inferred)
          then found ++ [(inferred, 1)] else found
        else found
      else found in
    (* Best match: highest confidence, then first found *)
    Return (A := unit)
      (match sort_by_confidence found with
       | (email, _) :: _ => email
       | [] => ""
       end)).

(** *** The email of one search item in the [/scrape] route *)

(** Strategy 2 of the route: the first contact pattern whose capture is
    not generic. *)
Fixpoint contact_email (patterns : list Re.regex) (snippet : string) : string :=
  match patterns with
  | [] => ""
  | pattern :: rest =>
      match Re.search_group1 pattern snippet with
      | Some candidate_email =>
          if negb (is_generic_email candidate_email) then candidate_email
          else contact_email rest snippet
      | None => contact_email rest snippet
      end
  end.

(** [for x in l: if f(x): email = x; break], starting from an empty
    [email]. *)
Definition first_such (f : string -> bool) (l : list string) : string :=
  default "" (List.find f l).

(** Strategy 3 of the route: the browser-driven scraper. *)
Definition advanced_email (title link snippet name : string) : string :=
  match advanced_scrape link name (title +:+ " " +:+ snippet) with
  | Some emails =>
      let email :=
        first_such (fun c => negb (is_generic_email c) && is_profile_specific_email c name snippet)
                   emails in
      if truthy email then email
      else first_such (fun c => negb (is_generic_email c)) emails
  | None => ""
  end.

(** The email steps of the loop body of the route: the value stored
    under ['email'] for a search item, [None] when one of these steps
    skips the item. [name] is the name the route has read off the title;
    [advanced] says that the browser-driven scraper is enabled and
    running. *)
Definition item_email (extract_emails_enabled advanced : bool)
    (title link snippet name : string) : option string :=
  let company := extract_company snippet in
  if extract_emails_enabled then
    let email := extract_email (title +:+ " " +:+ snippet) link name company link in
    let email := if truthy email then email else contact_email contact_patterns snippet in
    let email := if negb (truthy email) && advanced
                 then advanced_email title link snippet name else email in
    if negb (truthy email) then None
    else
      let name_parts := name_tokens name in
      if truthy_list name_parts && negb (any (fun part => contains part (lower email)) name_parts)
      then None
      else Some email
  else Some "".

(** *** The candidates of a profile

    The emails the first three strategies can meet, in the order they meet
    them, each with the confidence its strategy gives it. Generic emails
    are left out: no strategy keeps one. *)

Definition nongeneric (emails : list string) : list string :=
  List.filter (fun e => negb (is_generic_email e)) emails.

Definition with_confidence (confidence : nat) (emails : list string) : list candidate :=
  map (fun e => (e, confidence)) emails.

Definition text_candidates (text : string) : list candidate :=
  with_confidence 3 (nongeneric (Re.findall EMAIL_PATTERN text)).

Definition url_candidates (url : string) : list candidate :=
  if truthy url then with_confidence 2 (nongeneric (Re.findall EMAIL_PATTERN url)) else [].

Definition page_candidates (profile_url : string) : list candidate :=
  if truthy profile_url &&
     any (fun domain => contains domain (lower profile_url)) PROFILE_DOMAINS
  then with_confidence 4 (nongeneric (List.filter truthy [scrape_profile_for_email profile_url]))
  else [].

Definition observed (text url profile_url : string) : list candidate :=
  text_candidates text ++ url_candidates url ++ page_candidates profile_url.

Definition specific (name text : string) (c : candidate) : bool :=
  is_profile_specific_email c.1 name text.

(** The email at the head of the list once sorted by confidence. *)
Definition best_email (found : list candidate) : string :=
  match sort_by_confidence found with
  | (email, _) :: _ => email
  | [] => ""
  end.

(** The selection as the specification words it: the profile-specific
    candidate of the highest confidence, the first met among equals. *)
Definition highest_tier_specific (name text url profile_url : string) : string :=
  best_email (List.filter (specific name text) (observed text url profile_url)).

(** Strategies 4 and 5 as a function of what strategies 1 to 3 found. *)
Definition last_resort (name company text : string) (found : list candidate) : list candidate :=
  let found :=
    if negb (truthy_list found) && truthy name && truthy company then
      let inferred := infer_email_from_name_company name company in
      if truthy inferred && negb (is_generic_email inferred)
      then found ++ [(inferred, 1)] else found
    else found in
  if negb (truthy_list found) && truthy name && truthy text then
    let company_from_text := extract_company text in
    if truthy company_from_text then
      let inferred := infer_email_from_name_company name company_from_text in
      if truthy inferred && negb (is_generic_email inferred)
      then found ++ [(inferred, 1)] else found
    else found
  else found.

End Pipeline.

(** *** Sample inputs *)

(** No page can be fetched and the browser-driven scraper finds nothing. *)
Definition offline : string -> option string := fun _ => None.
Definition no_scraper : string -> string -> string -> option (list string) :=
  fun _ _ _ => None.

(** Every page reads the same line. *)
Definition page_of (content : string) : string -> option string := fun _ => Some content.

(** *** Result rows and their deduplication *)

(** A row of the result list, with the keys the route stores. *)
Record result := Result {
  name : string;
  job_title : string;
  company : string;
  email : string;
  profile_url : string;
  snippet : string;
  source : string;
  profile_type : string;
  title : string;
  relevance_score : float;
  relevance_reason : string
}.

(** [result.get('email', '').lower().strip() if result.get('email') else ''] *)
Definition email_key (r : result) : string :=
  if truthy (email r) then strip (lower (email r)) else "".

(** Whether the loop body reaches [continue] for a row, given the URLs and
    the emails seen so far. *)
Definition skipped (seen_urls : gset string) (seen_emails : gmap string string)
    (r : result) : bool :=
  let url := profile_url r in
  let email := email_key r in
  if truthy url && bool_decide (url ∈ seen_urls) then true
  else if truthy email then
    match seen_emails !! email with
    | Some existing_url => negb (String.eqb existing_url url)
    | None => false
    end
  else false.

(** The loop of [deduplicate_results], from a given state of [seen_urls]
    and [seen_emails]; the value is what the loop appends to
    [unique_results]. *)
Fixpoint dedup_loop (seen_urls : gset string) (seen_emails : gmap string string)
    (results : list result) : list result :=
  match results with
  | [] => []
  | r :: rest =>
      if skipped seen_urls seen_emails r then dedup_loop seen_urls seen_emails rest
      else
        let url := profile_url r in
        let email := email_key r in
        let seen_urls := if truthy url then seen_urls ∪ {[url]} else seen_urls in
        let seen_emails := if truthy email then <[email := url]> seen_emails else seen_emails in
        r :: dedup_loop seen_urls seen_emails rest
  end.

Definition deduplicate_results (results : list result) : list result :=
  dedup_loop ∅ ∅ results.

(** The state the loop goes on with after it has kept a row. *)
Definition urls_after (seen_urls : gset string) (r : result) : gset string :=
  if truthy (profile_url r) then seen_urls ∪ {[profile_url r]} else seen_urls.

Definition emails_after (seen_emails : gmap string string) (r : result) : gmap string string :=
  if truthy (email_key r) then <[email_key r := profile_url r]> seen_emails else seen_emails.

(** A row as the route builds it for a person with a name, an email and a
    profile URL. *)
Definition row (person email profile_url : string) : result :=
  Result person "" "" email profile_url "" "" "Other" person 1%float "Validated".

End App.

(** ** keyword_validator.py *)

Module KeywordValidator.
Import Text.

(** *** Python numbers *)

(** An [int] used as a [float], as in [n / 5]. The counts of the program
    are lengths of lists; they are far below 2^53, where the conversion is
    exact, and never reach 2^63, where [of_uint63] wraps around. *)
Definition float_of_nat (n : nat) : float := PrimFloat.of_uint63 (Uint63.of_nat n).

(** [sys.maxsize]: no list is longer. *)
Definition maxsize : Z := 2 ^ 63 - 1.

(** [a / b] on two [int]s *)
Definition true_div (a b : nat) : float := (float_of_nat a / float_of_nat b)%float.

(** [min(x, y)]: [y] when [y < x], else [x]. *)
Definition pymin (x y : float) : float := if (y <? x)%float then y else x.

(** A float that is neither NaN nor negative: [+0], a positive finite
    number or [+infinity]; and a positive finite float. *)
Definition nonneg_sf (x : spec_float) : Prop :=
  match x with
  | S754_zero false | S754_infinity false | S754_finite false _ _ => True
  | _ => False
  end.

Definition positive_finite_sf (x : spec_float) : Prop :=
  match x with
  | S754_finite false _ _ => True
  | _ => False
  end.

Definition nonneg (x : float) : Prop := nonneg_sf (Prim2SF x).

(** *** Vocabularies *)

Definition IRRELEVANT_TERMS : list string :=
  ["shop"; "store"; "buy"; "sell"; "purchase"; "price"; "deal"; "discount";
   "product"; "products"; "equipment"; "device"; "scanner"; "reader";
   "handbag"; "wallet"; "blocking"; "protection"; "card holder";
   "amazon"; "ebay"; "aliexpress"; "wholesale"; "retail";
   "shipping"; "delivery"; "order"; "cart"; "checkout"].

Definition PROFESSIONAL_TERMS : list string :=
  ["engineer"; "developer"; "architect"; "specialist"; "consultant";
   "manager"; "director"; "lead"; "senior"; "principal"; "staff";
   "researcher"; "analyst"; "scientist"; "expert"; "professional";
   "experience"; "years"; "skills"; "certification"; "degree";
   "university"; "college"; "education"; "project"; "team"].

Definition product_indicators : list string :=
  ["shop"; "buy"; "sell"; "price"; "add to cart"; "checkout"].

Definition company_page_indicators : list string :=
  ["about us"; "our company"; "our team"; "contact us"; "careers"].

Definition STOP_WORDS : list string := ["the"; "and"; "or"; "for"; "with"; "from"].

(** *** The validator object *)

Record validator := Validator {
  keywords : list string;
  keyword_terms : list string
}.

Definition mem (x : string) (l : list string) : bool := existsb (String.eqb x) l.

(** [list(set(terms))]. Python leaves the order of the result open; the
    program only counts the list and tests its members, so the terms are
    kept here in the order of their first occurrence. *)
Fixpoint distinct (seen terms : list string) : list string :=
  match terms with
  | [] => []
  | t :: rest => if mem t seen then distinct seen rest else t :: distinct (t :: seen) rest
  end.

(** [[\s,.-]+] *)
Definition separator (c : ascii) : bool := is_space c || Re.one_of ",.-" c.

Definition extract_keyword_terms (keywords : list string) : list string :=
  let terms :=
    flat_map (fun keyword =>
      let parts := Re.split (Re.plus separator) (lower keyword) in
      List.filter (fun p => Nat.ltb 2 (String.length p) && negb (mem p STOP_WORDS)) parts)
      keywords in
  distinct [] terms.

(** [KeywordRelevanceValidator(keywords)] *)
Definition new (keywords : list string) : validator :=
  let keywords := map (fun k => strip (lower k))
                      (List.filter (fun k => truthy (strip k)) keywords) in
  Validator keywords (extract_keyword_terms keywords).

(** ["; ".join(reasons)] *)
Fixpoint join (sep : string) (l : list string) : string :=
  match l with
  | [] => ""
  | [x] => x
  | x :: rest => x +:+ sep +:+ join sep rest
  end.

Section Methods.
Variable self : validator.

Definition term_in (text : string) (term : string) : bool := contains term text.

(** The text the score is computed on: [f"{title} {job_title} {company} {profile_text}".lower()] *)
Definition combined (profile_text title job_title company : string) : string :=
  lower (title +:+ " " +:+ job_title +:+ " " +:+ company +:+ " " +:+ profile_text).

Definition calculate_relevance_score (profile_text title job_title company : string)
    : float * string :=
  if negb (truthy profile_text) then (0%float, "No profile text available") else
  let combined_text := combined profile_text title job_title company in
  let irrelevant_count := count (term_in combined_text) IRRELEVANT_TERMS in
  if Nat.leb 2 irrelevant_count then
    (0%float, "Profile appears to be selling products (found " +:+ pretty irrelevant_count
              +:+ " irrelevant terms)")
  else
  let keyword_matches := count (term_in combined_text) (keyword_terms self) in
  let professional_count := count (term_in combined_text) PROFESSIONAL_TERMS in
  let is_product := any (term_in combined_text) product_indicators in
  if is_product then
    (0%float, "Profile appears to be a product listing, not a professional")
  else
  let is_company_page := Nat.leb 2 (count (term_in combined_text) company_page_indicators) in
  if is_company_page then
    (0%float, "Profile appears to be a company page, not an individual")
  else
  let job_match :=
    truthy job_title && any (term_in (lower job_title)) (keyword_terms self) in
  let company_match :=
    truthy company && any (term_in (lower company)) (keyword_terms self) in
  let base_score := 0%float in
  let base_score :=
    if Nat.ltb 0 keyword_matches
    then (base_score + pymin (true_div keyword_matches (length (keyword_terms self))) 1 * 0.4)%float
    else base_score in
  let base_score :=
    if Nat.ltb 0 professional_count
    then (base_score + pymin (true_div professional_count 5) 1 * 0.3)%float
    else base_score in
  let base_score := if job_match then (base_score + 0.2)%float else base_score in
  let base_score := if company_match then (base_score + 0.1)%float else base_score in
  let base_score := if Nat.eqb keyword_matches 0 then (base_score * 0.3)%float else base_score in
  let reasons :=
    (if Nat.ltb 0 keyword_matches
     then ["Found " +:+ pretty keyword_matches +:+ " keyword match(es)"] else []) ++
    (if Nat.ltb 0 professional_count
     then ["Found " +:+ pretty professional_count +:+ " professional indicator(s)"] else []) ++
    (if job_match then ["Job title matches keywords"] else []) in
  let reasons := if truthy_list reasons then reasons else ["No clear keyword relevance"] in
  let reason := if truthy_list reasons then join "; " reasons else "Low relevance" in
  (pymin base_score 1, reason).

(** [is_relevant] with its default [min_score = 0.3] *)
Definition is_relevant (profile_text title job_title company : string) (min_score : float)
    : bool * float * string :=
  let '(score, reason) := calculate_relevance_score profile_text title job_title company in
  ((min_score <=? score)%float, score, reason).

(** The [checks] dictionary of [validate_profile]. *)
Record checks := Checks {
  has_name : bool;
  has_keyword_match : bool;
  is_professional : bool;
  not_product : bool;
  not_company_page : bool
}.

Definition values (c : checks) : list bool :=
  [has_name c; has_keyword_match c; is_professional c; not_product c; not_company_page c].

(** The dictionary [validate_profile] returns. *)
Record validation := Validation {
  is_valid : bool;
  score : float;
  reason : string;
  confidence : float;
  checks_of : checks
}.

Definition validate_profile (name profile_text title job_title company url : string)
    : validation :=
  let '(score, reason) := calculate_relevance_score profile_text title job_title company in
  let text := lower profile_text in
  let checks := {|
    has_name := truthy name && negb (String.eqb name "Unknown") && Nat.ltb 2 (String.length name);
    has_keyword_match := any (term_in text) (keyword_terms self);
    is_professional := any (term_in text) PROFESSIONAL_TERMS;
    not_product := negb (any (term_in text) (take 5 IRRELEVANT_TERMS));
    not_company_page := negb (any (term_in text) ["about us"; "our company"; "contact us"])
  |} in
  let checks_passed := count id (values checks) in
  let confidence := true_div checks_passed (length (values checks)) in
  let is_valid :=
    (0.3 <=? score)%float && has_name checks && has_keyword_match checks && not_product checks in
  Validation is_valid score reason confidence checks.

End Methods.

End KeywordValidator.

(** ** app.py: job titles, queries, profile types, the CSV export *)

Module Route.
Import Text App KeywordValidator.

(** *** Job titles *)

(** [.]: any character but a line feed. *)
Definition dot (c : ascii) : bool := negb (code c =? 10)%N.

(** [(?:w1|w2|...)] with [re.IGNORECASE] *)
Definition words (l : list string) : Re.regex := Re.alt (map (Re.word Re.ilit) l).

(** The four patterns of [JOB_TITLE_PATTERNS]. *)
Definition job_title_general : Re.regex :=
  Re.seq [
    Re.opt (words ["Senior"; "Junior"; "Lead"; "Principal"; "Staff"]);
    Re.star is_space;
    Re.opt (Re.alt (map (Re.word Re.ilit)
                      ["Software"; "Hardware"; "Embedded"; "IoT"; "RF"; "Wireless"; "Systems";
                       "Data"; "AI"; "ML"; "Cloud"; "DevOps"]
                    ++ [Re.seq [Re.word Re.ilit "Full"; Re.opt (Re.Char dot);
                                Re.word Re.ilit "Stack"]]
                    ++ map (Re.word Re.ilit) ["Frontend"; "Backend"]));
    Re.star is_space;
    words ["Engineer"; "Developer"; "Architect"; "Specialist"; "Consultant"; "Manager";
           "Director"; "Technician"; "Analyst"; "Scientist"; "Researcher"; "Designer";
           "Product"; "Marketing"; "Sales"; "Business"] ].

Definition job_title_product : Re.regex :=
  Re.seq [Re.word Re.ilit "Product"; Re.star is_space; words ["Manager"; "Owner"; "Lead"]].

Definition job_title_technical : Re.regex :=
  Re.seq [Re.word Re.ilit "Technical"; Re.star is_space;
          words ["Lead"; "Manager"; "Director"; "Architect"]].

Definition job_title_engineering : Re.regex :=
  Re.seq [Re.word Re.ilit "Engineering"; Re.star is_space;
          words ["Manager"; "Director"; "Lead"]].

Definition JOB_TITLE_PATTERNS : list Re.regex :=
  [job_title_general; job_title_product; job_title_technical; job_title_engineering].

(** [re.search(r, s)] followed by [.group(0)]. *)
Definition search (r : Re.regex) (s : string) : option string := head (Re.findall r s).

(** The loop of [extract_job_title] over the patterns. *)
Fixpoint first_title (patterns : list Re.regex) (combined : string) : string :=
  match patterns with
  | [] => ""
  | pattern :: rest =>
      match search pattern combined with
      | Some m => strip m
      | None => first_title rest combined
      end
  end.

Definition extract_job_title (text title : string) : string :=
  let combined := lower (title +:+ " " +:+ text) in
  first_title JOB_TITLE_PATTERNS combined.


(** *** The search query *)

(** The line boundaries of [str.splitlines] among the ASCII characters:
    LF, VT, FF, CR, FS, GS and RS; a CR LF pair is one boundary. *)
Definition is_linebreak (c : ascii) : bool := in_range 10 13 c || in_range 28 30 c.

Fixpoint splitlines_aux (after_cr : bool) (cur : string) (s : string) : list string :=
  match s with
  | EmptyString => if truthy cur then [String.rev cur] else []
  | String c s' =>
      if after_cr && (code c =? 10)%N then splitlines_aux false cur s'
      else if is_linebreak c
           then String.rev cur :: splitlines_aux (code c =? 13)%N EmptyString s'
           else splitlines_aux false (String c cur) s'
  end.

(** [s.splitlines()] *)
Definition splitlines (s : string) : list string := splitlines_aux false EmptyString s.

(** [[k.strip() for k in s.splitlines() if k.strip()]] *)
Definition stripped_lines (s : string) : list string :=
  map strip (List.filter (fun k => truthy (strip k)) (splitlines s)).

(** The double quote, and a phrase between double quotes. *)
Definition dq : string := String "034" EmptyString.
Definition quoted (k : string) : string := dq +:+ k +:+ dq.

Definition profile_sites : string :=
  "site:linkedin.com/in OR site:github.com OR site:about.me OR site:twitter.com".

Definition profile_keywords : string :=
  "profile OR " +:+ dq +:+ "about me" +:+ dq +:+ " OR linkedin OR contact".

Definition operator_of (operator : string) : string :=
  if String.eqb operator "AND" then " AND " else " OR ".

Definition build_query (keywords locations keyword_operator location_operator : string)
    (target_individuals strict_mode : bool) : string :=
  let keyword_list := stripped_lines keywords in
  if negb (truthy_list keyword_list) then "" else
  let keyword_query :=
    match keyword_list with
    | [k] => quoted k
    | _ => "(" +:+ join (operator_of keyword_operator) (map quoted keyword_list) +:+ ")"
    end in
  let keyword_query :=
    if target_individuals && strict_mode
    then "(" +:+ keyword_query +:+ ") AND (" +:+ profile_sites +:+ ")"
    else if target_individuals
         then keyword_query +:+ " " +:+ profile_keywords
         else keyword_query in
  let location_list := stripped_lines locations in
  let location_query :=
    if truthy_list location_list
    then " AND (" +:+ join (operator_of location_operator) (map quoted location_list) +:+ ")"
    else "" in
  keyword_query +:+ location_query.



(** *** Profile types *)

Section ProfileType.

(** [urlparse(url)] of the standard library: the two profile tests call
    it and drop its value; it raises [ValueError] on a URL it refuses
    (brackets that do not pair in the host, for one). [valid_url url] says
    that it returns. *)
Variable valid_url : string -> bool.

(** [None]: the call raises. *)
Definition is_linkedin_profile (url : string) : option bool :=
  if valid_url url
  then Some (contains "linkedin.com/in" (lower url) || contains "linkedin.com/pub" (lower url))
  else None.

Definition is_github_profile (url : string) : option bool :=
  if valid_url url
  then Some (contains "github.com" (lower url) && negb (contains "/in/" (lower url)))
  else None.

(** The [profile_type] the route gives a link. *)
Definition profile_type_of (link : string) : option string :=
  linkedin ← is_linkedin_profile link;
  if linkedin : bool then Some "LinkedIn" else
  github ← is_github_profile link;
  if github : bool then Some "GitHub" else
  if contains "linkedin.com" (lower link) then Some "LinkedIn"
  else if contains "github.com" (lower link) then Some "GitHub"
  else Some "Other".

End ProfileType.

(** *** The CSV export *)

(** A value of a row: a text or a number. *)
Inductive cell := Str (s : string) | Num (x : float).

(** The dictionary the route appends for a row: its keys in the order of
    the source. *)
Definition to_dict (r : result) : list (string * cell) :=
  [("name", Str (name r)); ("job_title", Str (job_title r)); ("company", Str (company r));
   ("email", Str (email r)); ("profile_url", Str (profile_url r));
   ("snippet", Str (snippet r)); ("source", Str (source r));
   ("profile_type", Str (profile_type r)); ("title", Str (title r));
   ("relevance_score", Num (relevance_score r));
   ("relevance_reason", Str (relevance_reason r))].

Fixpoint get (key : string) (rowdict : list (string * cell)) : option cell :=
  match rowdict with
  | [] => None
  | (k, v) :: rest => if String.eqb k key then Some v else get key rest
  end.

(** [csv.DictWriter._dict_to_list] with the default
    [extrasaction='raise'] and [restval='']: a key of the row that is no
    field name raises [ValueError] ([None]); else the values are listed in
    the order of the field names. *)
Definition dict_to_list (fieldnames : list string) (rowdict : list (string * cell))
    : option (list cell) :=
  if forallb (fun kv : string * cell => mem kv.1 fieldnames) rowdict
  then Some (map (fun key => default (Str "") (get key rowdict)) fieldnames)
  else None.

(** [writer.writeheader(); writer.writerows(results)]: the header and the
    rows handed to the CSV writer, [None] when a row raises. *)
Definition write_csv (fieldnames : list string) (results : list (list (string * cell)))
    : option (list (list cell)) :=
  rows ← mapM (dict_to_list fieldnames) results;
  Some (map Str fieldnames :: rows).

(** The field names of the CSV export of the [/scrape] route, and those of
    [export_results]. *)
Definition ROUTE_FIELDNAMES : list string :=
  ["name"; "job_title"; "company"; "email"; "profile_url"; "snippet"; "source";
   "profile_type"; "title"].

Definition EXPORT_FIELDNAMES : list string :=
  ["name"; "job_title"; "company"; "email"; "profile_url"; "snippet"; "source";
   "profile_type"; "title"; "relevance_score"; "relevance_reason"].


End Route.

(** ** config.py *)

Module Config.
Import Text.

(** One entry of the key list: the dictionary with the keys [api_key],
    [cse_id], [quota_exceeded] and [requests_used]. *)
Record key_config := KeyConfig {
  api_key : string;
  cse_id : string;
  quota_exceeded : bool;
  requests_used : nat
}.

(** The fields of a [Config] the key methods read. [multiple_keys] is the
    list of dictionaries the object keeps; the methods below hand out these
    very dictionaries. *)
Record config := Config {
  default_api_key : string;
  default_cse_id : string;
  multiple_keys : list key_config
}.

(** [s.split(sep)] for a one-character separator *)
Fixpoint split_on (sep : ascii) (cur : string) (s : string) : list string :=
  match s with
  | EmptyString => [String.rev cur]
  | String c s' =>
      if Ascii.eqb c sep then String.rev cur :: split_on sep EmptyString s'
      else split_on sep (String c cur) s'
  end.

Definition split_char (sep : ascii) (s : string) : list string := split_on sep EmptyString s.

(** [s.split(sep, 1)] when [sep in s]: the text before the first
    separator and the text after it. *)
Fixpoint partition_at (sep : ascii) (s : string) : option (string * string) :=
  match s with
  | EmptyString => None
  | String c s' =>
      if Ascii.eqb c sep then Some (EmptyString, s')
      else match partition_at sep s' with
           | Some (a, b) => Some (String c a, b)
           | None => None
           end
  end.

(** [_parse_multiple_keys] on the text of [MULTIPLE_API_KEYS] *)
Definition parse_multiple_keys (keys_str : string) : list key_config :=
  if negb (truthy keys_str) then [] else
  omap (fun key_pair =>
          match partition_at ":" (strip key_pair) with
          | Some (api_key, cse_id) => Some (KeyConfig (strip api_key) (strip cse_id) false 0)
          | None => None
          end)
       (split_char "," keys_str).

(** Where a dictionary of [get_api_keys] lives: the one of the default
    key is built anew by every call; the others are the entries of
    [multiple_keys]. *)
Inductive place := Fresh | Kept (i : nat).

Definition get_api_keys (self : config) : list (place * key_config) :=
  (if truthy (default_api_key self) && truthy (default_cse_id self)
   then [(Fresh, KeyConfig (default_api_key self) (default_cse_id self) false 0)]
   else [])
  ++ imap (fun i k => (Kept i, k)) (multiple_keys self).

Definition get_available_key (self : config) : option key_config :=
  snd <$> List.find (fun pk : place * key_config => negb (quota_exceeded pk.2))
                    (get_api_keys self).

Definition exceeded (k : key_config) : key_config :=
  KeyConfig (api_key k) (cse_id k) true (requests_used k).

(** [mark_quota_exceeded]: the first dictionary of [get_api_keys] with the
    key is written to; the write reaches the object when the dictionary is
    one of its own. *)
Definition mark_quota_exceeded (self : config) (key : string) : config :=
  match List.find (fun pk : place * key_config => String.eqb (api_key pk.2) key)
                  (get_api_keys self) with
  | Some (Kept i, _) =>
      Config (default_api_key self) (default_cse_id self)
             (alter exceeded i (multiple_keys self))
  | Some (Fresh, _) | None => self
  end.


End Config.

(** ** scrapster_config.py *)

Module ScrapsterConfig.

(** One entry of [SCRAPING_CONFIGS]. *)
Record scraping_config := ScrapingConfig {
  description : string;
  sources : list string;
  extract_fields : list string;
  keywords_pattern : string;
  validation_keywords : list string
}.

Definition profiles : scraping_config :=
  ScrapingConfig "Personal and professional profiles"
    ["linkedin"; "github"; "google"]
    ["name"; "email"; "job_title"; "company"; "location"; "bio"; "profile_url"]
    "(profile|about|contact|linkedin|github)"
    ["engineer"; "developer"; "manager"; "specialist"; "consultant"; "director"].

Definition companies : scraping_config :=
  ScrapingConfig "Company profiles and information"
    ["linkedin"; "google"; "crunchbase"]
    ["name"; "website"; "industry"; "size"; "location"; "description"; "contact"]
    "(company|corporation|inc|llc|ltd|about us)"
    ["company"; "corp"; "inc"; "llc"; "business"; "organization"].

Definition products : scraping_config :=
  ScrapingConfig "Product listings and information"
    ["google"; "amazon"; "ebay"]
    ["name"; "price"; "description"; "rating"; "seller"; "url"; "image"]
    "(product|price|buy|sell|review|rating)"
    ["product"; "price"; "buy"; "sell"; "review"].

Definition general : scraping_config :=
  ScrapingConfig "General web content"
    ["google"; "bing"; "duckduckgo"]
    ["title"; "url"; "snippet"; "content"; "author"; "date"]
    ".*"
    [].

Definition SCRAPING_CONFIGS : gmap string scraping_config :=
  <["profiles" := profiles]> (<["companies" := companies]>
    (<["products" := products]> (<["general" := general]> ∅))).

(** [SCRAPING_CONFIGS.get(scrape_type, SCRAPING_CONFIGS['general'])];
    [None] would be the [KeyError] of the second lookup. *)
Definition get_config (scrape_type : string) : option scraping_config :=
  fallback ← SCRAPING_CONFIGS !! "general";
  Some (default fallback (SCRAPING_CONFIGS !! scrape_type)).

Definition get_sources (scrape_type : string) : option (list string) :=
  sources <$> get_config scrape_type.

Definition get_extract_fields (scrape_type : string) : option (list string) :=
  extract_fields <$> get_config scrape_type.


End ScrapsterConfig.

(** ** direct_scraper.py *)

Module DirectScraper.
Import Text App KeywordValidator Route.

(** [l[:n]] for an [int] [n]: a negative [n] counts from the end. *)
Definition slice_to {A} (n : Z) (l : list A) : list A :=
  if (0 <=? n)%Z then take (Z.to_nat n) l
  else take (length l - Z.to_nat (- n)) l.


Definition GENERIC_EMAIL_PATTERNS : list string :=
  ["noreply"; "no-reply"; "donotreply"; "support@"; "info@"; "contact@";
   "admin@"; "webmaster@"; "privacy@"; "hello@"; "mailer-"; "postmaster@";
   "sales@"; "marketing@"; "help@"; "customerservice@"; "service@";
   "broofa"; "example"; "test@"; "sample@"].

(** A hit of a search: the two keys [scrape_profiles] reads. *)
Record hit := Hit {
  hit_name : string;
  hit_url : string
}.

(** The dictionary [extract_profile_data] returns. *)
Record profile_data := ProfileData {
  name : string;
  email : string;
  job_title : string;
  company : string;
  profile_url : string;
  snippet : string;
  source : string;
  profile_type : string;
  title : string
}.

(** A row of [scrape_profiles]: the dictionary of the profile, with the
    three keys added to a validated profile: [relevance_score],
    [relevance_reason] and [confidence]. *)
Record detailed := Detailed {
  data : profile_data;
  relevance : option (float * string * float)
}.

(** The keys and values of a row, in the order they are set. *)
Definition to_dict (row : detailed) : list (string * cell) :=
  let d := data row in
  [("name", Str (name d)); ("email", Str (email d)); ("job_title", Str (job_title d));
   ("company", Str (company d)); ("profile_url", Str (profile_url d));
   ("snippet", Str (snippet d)); ("source", Str (source d));
   ("profile_type", Str (profile_type d)); ("title", Str (title d))]
  ++ match relevance row with
     | Some (score, reason, confidence) =>
         [("relevance_score", Num score); ("relevance_reason", Str reason);
          ("confidence", Num confidence)]
     | None => []
     end.

(** The loop that keeps the first hit of every URL; a hit without URL is
    dropped. *)
Fixpoint unique_loop (seen_urls : gset string) (all_profiles : list hit) : list hit :=
  match all_profiles with
  | [] => []
  | profile :: rest =>
      let url := hit_url profile in
      if truthy url && negb (bool_decide (url ∈ seen_urls))
      then profile :: unique_loop (seen_urls ∪ {[url]}) rest
      else unique_loop seen_urls rest
  end.

(** The email tests of the loop body of [scrape_profiles]: [false] when
    the body reaches a [continue]. *)
Definition email_passes (extract_emails : bool) (d : profile_data) : bool :=
  let email := email d in
  (if extract_emails && truthy email then
     let email_lower := lower email in
     if any (fun pattern => contains pattern email_lower) GENERIC_EMAIL_PATTERNS then false
     else
       let name := name d in
       if truthy name && negb (String.eqb name "Unknown") then
         let name_parts := name_tokens name in
         negb (truthy_list name_parts
               && negb (any (fun part => contains part email_lower) name_parts))
       else false
   else true)
  && negb (extract_emails && negb (truthy email)).

Section Scraper.

(** The browser: the three searches, and the visit of a profile page
    ([None] when it raises). Every URL is visited once at most, so a visit
    is given by the URL and the name, whatever the browser has seen
    before. *)
Variable search_linkedin : string -> string -> Z -> list hit.
Variable search_github : string -> Z -> list hit.
Variable search_google_direct : string -> string -> Z -> list hit.
Variable extract_profile_data : string -> string -> option profile_data.

(** Whether [keyword_validator] can be imported. *)
Variable validator_available : bool.

Definition found (keywords locations : string) (max_results : Z) (source : string)
    : list hit :=
  (if String.eqb source "linkedin" || String.eqb source "all"
   then search_linkedin keywords locations
          (if String.eqb source "linkedin" then max_results else max_results / 3)
   else [])
  ++ (if String.eqb source "all"
      then search_github keywords (max_results / 3)
           ++ search_google_direct keywords locations (max_results / 3)
      else []).

Definition unique_profiles (keywords locations : string) (max_results : Z) (source : string)
    : list hit :=
  slice_to max_results (unique_loop ∅ (found keywords locations max_results source)).

(** The body of the loop over the profiles: the row appended, [None] when
    the profile is left out. *)
Definition detailed_result (validator : option validator) (extract_emails : bool)
    (profile : hit) : option detailed :=
  detailed_data ← extract_profile_data (hit_url profile) (hit_name profile);
  relevance ←
    match validator with
    | Some v =>
        let validation :=
          validate_profile v (name detailed_data)
            (snippet detailed_data +:+ " " +:+ job_title detailed_data)
            (title detailed_data) (job_title detailed_data) (company detailed_data)
            (profile_url detailed_data) in
        if is_valid validation
        then Some (Some (score validation, reason validation, confidence validation))
        else None
    | None => Some None
    end;
  if email_passes extract_emails detailed_data
  then Some (Detailed detailed_data relevance)
  else None.

Definition scrape_profiles (keywords locations : string) (max_results : Z)
    (extract_emails : bool) (source : string) : list detailed :=
  let validator :=
    if validator_available then Some (new (stripped_lines keywords)) else None in
  omap (detailed_result validator extract_emails)
       (unique_profiles keywords locations max_results source).

End Scraper.


End DirectScraper.

(** ** Notions the properties are stated with *)

Module Notions.
Import Text Re App Config DirectScraper.

(** The characters of a text. *)
Definition chars (s : string) : list ascii := list_ascii_of_string s.

(** The long s (U+017F) in UTF-8: the bytes C5 and BF. It is a lower-case
    letter: [str.lower] leaves it alone, [str.casefold] turns it into [s]. *)
Definition long_s : string := String "197" (String "191" EmptyString).

(** [s.casefold()] for a text whose characters are ASCII or the long s:
    what the specification calls the case-folded value. *)
Fixpoint casefold (s : string) : string :=
  match s with
  | String "197" (String "191" s') => String "s" (casefold s')
  | String c s' => String (lower_char c) (casefold s')
  | EmptyString => EmptyString
  end.

(** A text without upper-case letter, as [lower] leaves it. *)
Definition lowered (l : list ascii) : Prop := Forall (fun c => lower_char c = c) l.

(** The domain of an inferred email, cleaned from the company name. *)
Definition company_clean (company : string) : string :=
  remove_all (Char not_domain_char) (remove_all legal_suffix (lower company)).

(** An email of the page in which none of the nine contact patterns of
    [scrape_profile_for_email] occurs. *)
Definition personal (e : string) : Prop :=
  forall skip, In skip SCRAPE_SKIP_PATTERNS -> ~ occurs_in skip (lower e).

(** The profile URLs of a list of rows, the empty ones left out. *)
Definition urls_of (results : list result) : list string :=
  List.filter truthy (map App.profile_url results).

(** A default key is configured; a key is not exceeded. *)
Definition has_default (self : config) : bool :=
  truthy (default_api_key self) && truthy (default_cse_id self).

Definition available (k : key_config) : bool := negb (quota_exceeded k).

(** The text of [MULTIPLE_API_KEYS] for a list of keys: [key:id] pairs
    with commas between them. *)
Definition keys_text (keys : list (string * string)) : string :=
  KeywordValidator.join "," (map (fun kc : string * string => kc.1 +:+ ":" +:+ kc.2) keys).

(** A browser that finds one profile, and the page of that profile. *)
Definition one_hit : string -> string -> Z -> list hit :=
  fun _ _ _ => [Hit "Jane Doe" "https://www.linkedin.com/in/janedoe"].

Definition jane_page : string -> string -> option profile_data :=
  fun url name =>
    Some (ProfileData name "jane.doe@acme.io" "senior engineer" "Acme" url
            "Senior RFID engineer with years of experience" "www.linkedin.com" "LinkedIn"
            name).

End Notions.

(** * Properties *)

(** ** Substring containment *)

Section Containment.
Import Text.

Lemma startswith_spec p s : startswith p s = true <-> exists post, s = p +:+ post.
Proof.
  revert s; induction p as [|a p IH]; intros s; simpl.
  - split; [intros _; exists s; reflexivity | reflexivity].
  - destruct s as [|b s]; [split; [discriminate | intros [post H]; discriminate]|].
    destruct (Ascii.eqb_spec a b) as [->|Hne].
    + rewrite IH. split; intros [post H]; exists post.
      * rewrite H. reflexivity.
      * simpl in H. injection H as H. exact H.
    + split; [discriminate | intros [post H]]. simpl in H. injection H as H1 H2. congruence.
Qed.

Lemma contains_spec p s : contains p s = true <-> occurs_in p s.
Proof.
  induction s as [|c s IH]; simpl.
  - rewrite orb_false_r, startswith_spec. split.
    + intros [post H]. exists "", post. exact H.
    + intros [[|a pre] [post H]]; [exists post; exact H | discriminate].
  - rewrite orb_true_iff, startswith_spec, IH. split.
    + intros [[post H] | [pre [post H]]].
      * exists "", post. exact H.
      * exists (String c pre), post. simpl. rewrite H. reflexivity.
    + intros [[|a pre] [post H]].
      * left. exists post. exact H.
      * right. exists pre, post. simpl in H. injection H as H1 H2. exact H2.
Qed.

End Containment.

(** ** The matcher on the email token *)

Section RegexLemmas.
Import Text Re App.
Context {A : Type}.

Lemma rep_unfold p lo greedy prev rest caps (k : mstate -> option A) :
  rep p lo greedy prev rest caps k =
  let stop := match lo with 0 => k (MState prev rest caps) | S _ => None end in
  let more :=
    match rest with
    | c :: rest' => if p c then rep p (pred lo) greedy (c :: prev) rest' caps k else None
    | [] => None
    end in
  if greedy
  then match more with Some x => Some x | None => stop end
  else match stop with Some x => Some x | None => more end.
Proof. destruct rest; reflexivity. Qed.

(** What a repetition hands to its continuation: it has taken a prefix of
    the text, all of the class, at least [lo] long. *)
Lemma rep_sound p greedy rest : forall lo prev caps (k : mstate -> option A) x,
  rep p lo greedy prev rest caps k = Some x ->
  exists taken rest',
    rest = taken ++ rest' /\ all_of p taken /\ lo <= length taken /\
    k (MState (rev taken ++ prev) rest' caps) = Some x.
Proof.
  induction rest as [|c rest IH]; intros lo prev caps k x; rewrite rep_unfold; cbv zeta.
  - intros H. exists [], []. 
    destruct lo; [|destruct greedy; discriminate].
    repeat split; [constructor | lia |]. destruct greedy; [exact H|].
    destruct (k _); [exact H | discriminate].
  - intros H.
    assert (Hmore : forall y, (if p c then rep p (pred lo) greedy (c :: prev) rest caps k else None)
                              = Some y ->
      exists taken rest', c :: rest = taken ++ rest' /\ all_of p taken /\ lo <= length taken /\
        k (MState (rev taken ++ prev) rest' caps) = Some y).
    { intros y Hy. destruct (p c) eqn:Hc; [|discriminate].
      apply IH in Hy as (taken & rest' & -> & Hall & Hlo & Hk).
      exists (c :: taken), rest'. repeat split.
      - constructor; assumption.
      - simpl. lia.
      - simpl. rewrite <- app_assoc. exact Hk. }
    assert (Hstop : forall y, match lo with 0 => k (MState prev (c :: rest) caps) | S _ => None end
                              = Some y ->
      exists taken rest', c :: rest = taken ++ rest' /\ all_of p taken /\ lo <= length taken /\
        k (MState (rev taken ++ prev) rest' caps) = Some y).
    { intros y Hy. destruct lo; [|discriminate].
      exists [], (c :: rest). repeat split; [constructor | lia | exact Hy]. }
    destruct greedy.
    + destruct (if p c then _ else _) as [y|];
        [injection H as <-; exact (Hmore _ eq_refl) | apply Hstop, H].
    + destruct (match lo with 0 => _ | S _ => _ end) as [y|];
        [injection H as <-; exact (Hstop _ eq_refl) | apply Hmore, H].
Qed.

(** A repetition finds a match whenever some prefix of the class, at
    least [lo] long, lets the continuation succeed. *)
Lemma rep_complete p greedy taken : forall lo prev rest' caps (k : mstate -> option A),
  all_of p taken -> lo <= length taken ->
  is_Some (k (MState (rev taken ++ prev) rest' caps)) ->
  is_Some (rep p lo greedy prev (taken ++ rest') caps k).
Proof.
  induction taken as [|c taken IH]; intros lo prev rest' caps k Hall Hlo Hk;
    rewrite rep_unfold; cbv zeta.
  - simpl in Hlo. assert (lo = 0) as -> by lia. simpl in *.
    destruct greedy.
    + destruct (match rest' with [] => _ | _ :: _ => _ end); [eauto | exact Hk].
    + destruct Hk as [y Hk]. rewrite Hk. eauto.
  - inversion Hall as [|? ? Hc Hall']; subst. cbn [app]. rewrite Hc.
    assert (Hmore : is_Some (rep p (pred lo) greedy (c :: prev) (taken ++ rest') caps k)).
    { apply IH; [exact Hall' | simpl in Hlo; lia|].
      simpl in Hk. rewrite <- app_assoc in Hk. exact Hk. }
    destruct Hmore as [y Hy]. rewrite Hy.
    destruct greedy; [eauto|]. destruct (match lo with 0 => _ | S _ => _ end); eauto.
Qed.


Lemma rev_token l d t (prev : list ascii) :
  rev (l ++ "@"%char :: d ++ "."%char :: t) ++ prev
  = rev t ++ "."%char :: rev d ++ "@"%char :: rev l ++ prev.
Proof.
  rewrite rev_app_distr. cbn [rev]. rewrite rev_app_distr. cbn [rev].
  rewrite <- ?app_assoc. cbn [app]. rewrite <- ?app_assoc. reflexivity.
Qed.

(** A match of the email token consumes a string of the email shape. *)
Lemma email_token_sound st (k : mstate -> option A) x :
  rmatch email_token st k = Some x ->
  exists s rest',
    m_rest st = s ++ rest' /\ email_shape s /\
    k (MState (rev s ++ m_prev st) rest' (m_caps st)) = Some x.
Proof.
  unfold email_token. cbn [Re.seq Re.plus Re.lit rmatch].
  intros H.
  apply rep_sound in H as (l & rest1 & Hrest & Hl & Hlen & H). cbn [m_rest] in H.
  destruct rest1 as [|c1 rest1]; [discriminate|].
  destruct (Ascii.eqb_spec "@" c1) as [<- | _]; [|discriminate].
  cbn [advance m_prev m_rest m_caps] in H.
  apply rep_sound in H as (d & rest2 & -> & Hd & Hdlen & H). cbn [m_rest] in H.
  destruct rest2 as [|c2 rest2]; [discriminate|].
  destruct (Ascii.eqb_spec "." c2) as [<- | _]; [|discriminate].
  cbn [advance m_prev m_rest m_caps] in H.
  apply rep_sound in H as (t & rest3 & -> & Ht & Htlen & H).
  exists (l ++ "@"%char :: d ++ "."%char :: t), rest3. split; [|split].
  - rewrite Hrest, <- ?app_assoc. cbn [app]. rewrite <- ?app_assoc. reflexivity.
  - exists l, d, t. repeat split; assumption.
  - rewrite rev_token. exact H.
Qed.

(** The email token matches wherever a string of the email shape starts
    and the continuation accepts what follows it. *)
Lemma email_token_complete st (k : mstate -> option A) s rest' :
  email_shape s -> m_rest st = s ++ rest' ->
  is_Some (k (MState (rev s ++ m_prev st) rest' (m_caps st))) ->
  is_Some (rmatch email_token st k).
Proof.
  intros (l & d & t & -> & Hlen & Hl & Hdlen & Hd & Htlen & Ht) Hrest Hk.
  unfold email_token. cbn [Re.seq Re.plus Re.lit rmatch].
  rewrite Hrest, <- ?app_assoc. cbn [app]. rewrite <- ?app_assoc.
  apply rep_complete; [exact Hl | exact Hlen|].
  cbn [m_rest app]. rewrite Ascii.eqb_refl. cbn [advance m_prev m_rest m_caps].
  apply rep_complete; [exact Hd | exact Hdlen|].
  cbn [m_rest app]. rewrite Ascii.eqb_refl. cbn [advance m_prev m_rest m_caps].
  apply rep_complete; [exact Ht | exact Htlen|].
  rewrite rev_token in Hk. exact Hk.
Qed.

End RegexLemmas.

(** ** The email pipeline *)

Section EmailPipeline.
Import Text Re App.

Lemma is_generic_email_spec email :
  is_generic_email email = true <->
  exists pattern, In pattern GENERIC_EMAIL_PATTERNS /\ occurs_in pattern (lower email).
Proof.
  unfold is_generic_email, any. rewrite existsb_exists.
  split; intros [p [Hin H]]; exists p; split; try assumption; apply contains_spec; exact H.
Qed.

Lemma nongeneric_In emails e :
  In e (nongeneric emails) <-> In e emails /\ is_generic_email e = false.
Proof.
  unfold nongeneric. rewrite filter_In, negb_true_iff. reflexivity.
Qed.

(** [well_formed_email] decides the email shape. *)
Lemma well_formed_email_spec email :
  well_formed_email email = true <-> email_shape (list_ascii_of_string email).
Proof.
  unfold well_formed_email, fullmatch. split.
  - destruct (rmatch email_token _ _) as [[]|] eqn:E; [intros _ | discriminate].
    apply email_token_sound in E as (s & rest' & Hs & Hshape & E).
    cbn [m_rest] in *. destruct rest'; [|discriminate].
    rewrite app_nil_r in Hs. rewrite Hs. exact Hshape.
  - intros Hshape.
    destruct (email_token_complete (MState [] (list_ascii_of_string email) [])
                (fun st => match m_rest st with [] => Some tt | _ => None end)
                (list_ascii_of_string email) [] Hshape) as [[] ->].
    + cbn [m_rest]. rewrite app_nil_r. reflexivity.
    + cbn [m_rest]. eauto.
    + reflexivity.
Qed.


Lemma match_here_email prev rest len caps :
  match_here EMAIL_PATTERN prev rest = Some (len, caps) -> email_shape (take len rest).
Proof.
  unfold match_here, EMAIL_PATTERN. cbn [Re.seq rmatch].
  destruct (at_boundary _); [|discriminate]. intros H.
  apply email_token_sound in H as (s & rest' & Hs & Hshape & H).
  cbn [m_rest m_prev m_caps] in *.
  destruct (at_boundary _); [|discriminate]. injection H as <- _.
  rewrite length_app, Nat.add_sub, length_rev, Hs, take_app_length. exact Hshape.
Qed.

(** Every match a scan reports is a match of the pattern at some
    position of the text. *)
Lemma scan_sound r rest : forall skip gap prev pc m caps,
  In pc (scan r skip gap prev rest) -> pc.2 = Some (m, caps) ->
  exists prev' rest' len, match_here r prev' rest' = Some (len, caps) /\ m = take len rest'.
Proof.
  induction rest as [|c rest IH]; intros skip gap prev pc m caps Hin Hpc.
  - destruct skip; cbn [scan] in Hin.
    + destruct (match_here r prev []) as [[len caps']|] eqn:E.
      * destruct Hin as [<- | [<- | []]]; [|discriminate].
        injection Hpc as <- <-. eauto.
      * destruct Hin as [<- | []]. discriminate.
    + destruct Hin as [<- | []]. discriminate.
  - destruct skip; cbn [scan] in Hin; [|eapply IH; eassumption].
    destruct (match_here r prev (c :: rest)) as [[len caps']|] eqn:E;
      [|eapply IH; eassumption].
    destruct Hin as [<- | Hin].
    + injection Hpc as <- <-. eauto.
    + destruct len; eapply IH; eassumption.
Qed.

(** The emails [EMAIL_PATTERN] finds are well formed. *)
Lemma findall_well_formed text e :
  In e (findall EMAIL_PATTERN text) -> well_formed_email e = true.
Proof.
  unfold findall. intros H.
  apply list_elem_of_In, list_elem_of_omap in H as (pc & Hin & Hpc).
  destruct (pc.2) as [[m caps]|] eqn:E; [|discriminate]. injection Hpc as <-.
  apply list_elem_of_In in Hin.
  destruct (scan_sound _ _ _ _ _ _ _ _ Hin E) as (prev' & rest' & len & Hm & ->).
  apply well_formed_email_spec. unfold str.
  rewrite list_ascii_of_string_of_list_ascii. exact (match_here_email _ _ _ _ Hm).
Qed.

(** What the scrape of a page returns is empty or one of the emails of
    the page. *)
Lemma scrape_profile_for_email_found fetch url :
  scrape_profile_for_email fetch url = "" \/
  exists content, In (scrape_profile_for_email fetch url) (findall EMAIL_PATTERN content).
Proof.
  unfold scrape_profile_for_email. destruct (fetch url) as [content|]; [|left; reflexivity].
  destruct (findall EMAIL_PATTERN content) as [|first emails] eqn:E; [left; reflexivity|].
  right. exists content. rewrite E.
  destruct (List.filter _ (first :: emails)) as [|e filtered] eqn:F; [left; reflexivity|].
  assert (H : In e (List.filter
    (fun e => negb (any (fun skip => contains skip (lower e)) SCRAPE_SKIP_PATTERNS))
    (first :: emails))) by (rewrite F; left; reflexivity).
  apply filter_In in H as [H _]. exact H.
Qed.

(** The candidates of strategies 1 to 3 are well-formed emails. *)
Lemma observed_well_formed fetch text url profile_url c :
  In c (observed fetch text url profile_url) -> well_formed_email c.1 = true.
Proof.
  unfold observed, text_candidates, url_candidates, page_candidates, with_confidence.
  rewrite !in_app_iff. intros [H | [H | H]].
  - apply in_map_iff in H as [e [<- H]]. apply nongeneric_In in H as [H _].
    exact (findall_well_formed _ _ H).
  - destruct (truthy url); [|destruct H].
    apply in_map_iff in H as [e [<- H]]. apply nongeneric_In in H as [H _].
    exact (findall_well_formed _ _ H).
  - destruct (_ && _); [|destruct H].
    apply in_map_iff in H as [e [<- H]]. apply nongeneric_In in H as [H _].
    apply filter_In in H as [[<- | []] Htruthy]. cbn [fst].
    destruct (scrape_profile_for_email_found fetch profile_url) as [Hempty | [content H]].
    + rewrite Hempty in Htruthy. discriminate.
    + exact (findall_well_formed _ _ H).
Qed.

(** A loop of [extract_email] returns the first profile-specific email
    among those that are not generic; without one it records them all. *)
Lemma try_candidates_spec confidence name text emails found :
  try_candidates confidence name text emails found =
  match List.find (specific name text) (with_confidence confidence (nongeneric emails)) with
  | Some c => Return c.1
  | None => Continue (found ++ with_confidence confidence (nongeneric emails))
  end.
Proof.
  revert found; induction emails as [|e emails IH]; intros found; simpl.
  - rewrite app_nil_r. reflexivity.
  - destruct (is_generic_email e); simpl; [apply IH|].
    unfold specific at 1; simpl.
    destruct (is_profile_specific_email e name text); [reflexivity|].
    rewrite IH. destruct (List.find _ _); [reflexivity|].
    rewrite <- app_assoc. reflexivity.
Qed.

Lemma find_app {A} (f : A -> bool) l1 l2 :
  List.find f (l1 ++ l2) =
  match List.find f l1 with Some x => Some x | None => List.find f l2 end.
Proof.
  induction l1 as [|x l1 IH]; simpl; [reflexivity|].
  destruct (f x); [reflexivity | exact IH].
Qed.

(** [extract_email] in one equation: the first profile-specific candidate
    when there is one, else the best of what was found, the inferred
    emails included. *)
Lemma extract_email_spec fetch text url name company profile_url :
  extract_email fetch text url name company profile_url =
  match List.find (specific name text) (observed fetch text url profile_url) with
  | Some c => c.1
  | None => best_email (last_resort name company text (observed fetch text url profile_url))
  end.
Proof.
  unfold extract_email, observed, text_candidates, url_candidates, page_candidates.
  set (on_profile_site := truthy profile_url && any _ PROFILE_DOMAINS).
  set (scraped := scrape_profile_for_email fetch profile_url).
  rewrite !find_app, try_candidates_spec.
  unfold mbind, outcome_bind, app at 1.
  destruct (List.find (specific name text) (with_confidence 3 _)) as [c|]; [reflexivity|].
  assert (Hpage : forall found,
    returned
      match (if on_profile_site
             then if truthy scraped && negb (is_generic_email scraped)
                  then if is_profile_specific_email scraped name text
                       then Return scraped else Continue (found ++ [(scraped, 4)])
                  else Continue found
             else Continue found) with
      | Return email => Return email
      | Continue found => Return (A := unit) (best_email (last_resort name company text found))
      end =
    match List.find (specific name text)
            (if on_profile_site
             then with_confidence 4 (nongeneric (List.filter truthy [scraped])) else []) with
    | Some c => c.1
    | None => best_email (last_resort name company text
                (found ++ (if on_profile_site
                           then with_confidence 4 (nongeneric (List.filter truthy [scraped]))
                           else [])))
    end).
  { intros found. destruct on_profile_site; [|rewrite app_nil_r; reflexivity].
    cbn [List.filter nongeneric].
    destruct (truthy scraped); cbn [andb List.filter]; [|rewrite app_nil_r; reflexivity].
    destruct (is_generic_email scraped); cbn [negb with_confidence map List.find];
      [rewrite app_nil_r; reflexivity|].
    unfold specific at 1. cbn [fst].
    destruct (is_profile_specific_email scraped name text); reflexivity. }
  destruct (truthy url).
  - rewrite try_candidates_spec.
    destruct (List.find (specific name text) (with_confidence 2 _)) as [c|]; [reflexivity|].
    etrans;
      [exact (Hpage (with_confidence 3 (nongeneric (Re.findall EMAIL_PATTERN text)) ++
                     with_confidence 2 (nongeneric (Re.findall EMAIL_PATTERN url))))|].
    rewrite <- app_assoc. reflexivity.
  - etrans; [exact (Hpage (with_confidence 3 (nongeneric (Re.findall EMAIL_PATTERN text))))|].
    reflexivity.
Qed.

Lemma observed_nongeneric fetch text url profile_url c :
  In c (observed fetch text url profile_url) ->
  is_generic_email c.1 = false /\ 2 <= c.2.
Proof.
  unfold observed, text_candidates, url_candidates, page_candidates, with_confidence.
  rewrite !in_app_iff.
  intros [H | [H | H]].
  - apply in_map_iff in H as [e [<- H]]. apply nongeneric_In in H as [_ H].
    split; [exact H | simpl; lia].
  - destruct (truthy url); [|destruct H].
    apply in_map_iff in H as [e [<- H]]. apply nongeneric_In in H as [_ H].
    split; [exact H | simpl; lia].
  - destruct (_ && _); [|destruct H].
    apply in_map_iff in H as [e [<- H]]. apply nongeneric_In in H as [_ H].
    split; [exact H | simpl; lia].
Qed.

Lemma insert_by_confidence_In x y l :
  In x (insert_by_confidence y l) <-> x = y \/ In x l.
Proof.
  induction l as [|z l IH]; simpl; [intuition|].
  destruct (Nat.ltb y.2 z.2); simpl; rewrite ?IH; intuition.
Qed.

Lemma sort_by_confidence_In x l : In x (sort_by_confidence l) <-> In x l.
Proof.
  induction l as [|y l IH]; simpl; [reflexivity|].
  rewrite insert_by_confidence_In, IH. intuition.
Qed.

(** The best email is one of the candidates, or empty when there is none. *)
Lemma best_email_In found :
  (found = [] /\ best_email found = "") \/
  exists confidence, In (best_email found, confidence) found.
Proof.
  unfold best_email.
  destruct (sort_by_confidence found) as [|[e k] l] eqn:E.
  - left. split; [|reflexivity].
    destruct found as [|c found]; [reflexivity|].
    assert (H : In c (sort_by_confidence (c :: found)))
      by (apply sort_by_confidence_In; left; reflexivity).
    rewrite E in H. destruct H.
  - right. exists k. apply sort_by_confidence_In. rewrite E. left. reflexivity.
Qed.

(** Strategies 4 and 5 leave a non-empty list of found emails alone, and
    add to an empty one only inferred emails that are not generic. *)
Lemma last_resort_nonempty name company text found :
  found <> [] -> last_resort name company text found = found.
Proof.
  intros H. unfold last_resort. destruct found; [congruence | reflexivity].
Qed.

Lemma last_resort_In name company text found c :
  In c (last_resort name company text found) ->
  In c found \/ (found = [] /\ c.2 = 1 /\ is_generic_email c.1 = false).
Proof.
  destruct found as [|d found]; [|rewrite last_resort_nonempty by discriminate; auto].
  unfold last_resort. cbn [truthy_list negb andb app].
  set (i1 := infer_email_from_name_company name company).
  set (i2 := infer_email_from_name_company name (extract_company text)).
  assert (Hsecond :
    In c (if truthy name && truthy text
          then if truthy (extract_company text)
               then if truthy i2 && negb (is_generic_email i2) then [(i2, 1)] else []
               else []
          else []) ->
    In c [] \/ ([] = @nil candidate /\ c.2 = 1 /\ is_generic_email c.1 = false)).
  { destruct (truthy name && truthy text); [|intros []].
    destruct (truthy (extract_company text)); [|intros []].
    destruct (truthy i2); [|intros []].
    destruct (is_generic_email i2) eqn:E; cbn [andb negb]; [intros []|].
    intros [<- | []]. right. auto. }
  destruct (truthy name && truthy company); [|exact Hsecond].
  destruct (truthy i1); cbn [andb]; [|exact Hsecond].
  destruct (is_generic_email i1) eqn:E; cbn [negb truthy_list andb]; [exact Hsecond|].
  intros [<- | []]. right. auto.
Qed.

Lemma is_generic_email_empty : is_generic_email "" = false.
Proof. reflexivity. Qed.

Lemma extract_email_nongeneric fetch text url name company profile_url :
  is_generic_email (extract_email fetch text url name company profile_url) = false.
Proof.
  rewrite extract_email_spec.
  destruct (List.find _ _) as [c|] eqn:E.
  - apply find_some in E as [E _]. apply observed_nongeneric in E. tauto.
  - destruct (best_email_In (last_resort name company text (observed fetch text url profile_url)))
      as [[_ ->] | [k H]]; [reflexivity|].
    apply last_resort_In in H as [H | [_ [_ H]]]; [|exact H].
    apply observed_nongeneric in H. tauto.
Qed.

Lemma contact_email_nongeneric patterns snippet :
  is_generic_email (contact_email patterns snippet) = false.
Proof.
  induction patterns as [|p patterns IH]; simpl; [reflexivity|].
  destruct (Re.search_group1 p snippet) as [c|]; [|exact IH].
  destruct (is_generic_email c) eqn:E; simpl; [exact IH | exact E].
Qed.

Lemma first_such_nongeneric f l :
  (forall c, f c = true -> is_generic_email c = false) ->
  is_generic_email (first_such f l) = false.
Proof.
  intros Hf. unfold first_such. destruct (List.find f l) as [c|] eqn:E; simpl; [|reflexivity].
  apply find_some in E as [_ E]. auto.
Qed.

Lemma advanced_email_nongeneric advanced_scrape title link snippet name :
  is_generic_email (advanced_email advanced_scrape title link snippet name) = false.
Proof.
  unfold advanced_email. destruct (advanced_scrape _ _ _) as [emails|]; [|reflexivity].
  destruct (truthy _); apply first_such_nongeneric; intros c H.
  - apply andb_true_iff in H as [H _]. apply negb_true_iff. exact H.
  - apply negb_true_iff. exact H.
Qed.

Lemma find_first {A} (f : A -> bool) before c after :
  (forall x, In x before -> f x = false) -> f c = true ->
  List.find f (before ++ c :: after) = Some c.
Proof.
  intros Hbefore Hc. induction before as [|x before IH]; simpl.
  - rewrite Hc. reflexivity.
  - rewrite (Hbefore x) by (left; reflexivity).
    apply IH. intros y Hy. apply Hbefore. right. exact Hy.
Qed.

(** C1, as amended: when a candidate of a profile is profile-specific,
    [extract_email] returns the first profile-specific candidate in the
    order the strategies meet the candidates: the emails of the text (in
    the order of the text), then those of the URL, then the email scraped
    from the profile page. The confidence of a candidate plays no part in
    this choice. *)
Theorem extract_email_first_specific
    fetch text url name company profile_url before c after :
  observed fetch text url profile_url = before ++ c :: after ->
  (forall x, In x before -> specific name text x = false) ->
  specific name text c = true ->
  extract_email fetch text url name company profile_url = c.1.
Proof.
  intros Hobs Hbefore Hc.
  rewrite extract_email_spec, Hobs, (find_first _ _ _ _ Hbefore Hc). reflexivity.
Qed.

(** A profile whose text names another person's address before Jane's own,
    and whose page carries a second address of hers: the candidate from
    the text is returned. *)
Lemma extract_email_first_specific_witness :
  extract_email (page_of "Write to jane.doe@corp.com")
    "Works at Initech. Ask bob@other.org or jane@acme.com" ""
    "Jane Doe" "" "https://linkedin.com/in/janedoe" = "jane@acme.com".
Proof.
  apply (extract_email_first_specific _ _ _ _ _ _
           [("bob@other.org", 3)] ("jane@acme.com", 3) [("jane.doe@corp.com", 4)]).
  - vm_compute. reflexivity.
  - intros x [<- | []]. vm_compute. reflexivity.
  - vm_compute. reflexivity.
Defined.

(** C1, as stated, fails: Jane's page carries a profile-specific address
    of confidence 4, yet [extract_email] returns the profile-specific
    address of the text, of confidence 3, because it returns from the
    text loop before the page is looked at. *)
Lemma extract_email_not_highest_tier :
  observed (page_of "Write to jane.doe@corp.com")
    "Jane Doe, engineer. jane@acme.com" "" "https://linkedin.com/in/janedoe"
    = [("jane@acme.com", 3); ("jane.doe@corp.com", 4)] /\
  specific "Jane Doe" "Jane Doe, engineer. jane@acme.com" ("jane@acme.com", 3) = true /\
  specific "Jane Doe" "Jane Doe, engineer. jane@acme.com" ("jane.doe@corp.com", 4) = true /\
  highest_tier_specific (page_of "Write to jane.doe@corp.com")
    "Jane Doe" "Jane Doe, engineer. jane@acme.com" "" "https://linkedin.com/in/janedoe"
    = "jane.doe@corp.com" /\
  extract_email (page_of "Write to jane.doe@corp.com")
    "Jane Doe, engineer. jane@acme.com" "" "Jane Doe" "" "https://linkedin.com/in/janedoe"
    = "jane@acme.com".
Proof. vm_compute. repeat split. Qed.

(** C2, as amended: no email in which a pattern of the generic
    vocabulary occurs, at any place of its lower-cased text, is returned
    by [extract_email] or stored as the email of a search item by the
    [/scrape] route. The text is lower-cased as [str.lower] does it, which
    is no case fold. *)
Theorem generic_email_never_attributed
    fetch advanced_scrape text url name company profile_url
    extract_emails_enabled advanced title link snippet item_name :
  ~ generic (extract_email fetch text url name company profile_url) /\
  match item_email fetch advanced_scrape extract_emails_enabled advanced
          title link snippet item_name with
  | Some email => ~ generic email
  | None => True
  end.
Proof.
  assert (Hgen : forall e, is_generic_email e = false -> ~ generic e).
  { intros e He Hg. apply is_generic_email_spec in Hg. congruence. }
  split; [apply Hgen, extract_email_nongeneric|].
  unfold item_email.
  destruct extract_emails_enabled; [|apply Hgen; reflexivity].
  set (e1 := extract_email _ _ _ _ _ _).
  set (e2 := if truthy e1 then e1 else contact_email contact_patterns snippet).
  set (e3 := if negb (truthy e2) && advanced
             then advanced_email advanced_scrape title link snippet item_name else e2).
  assert (H1 : is_generic_email e1 = false) by apply extract_email_nongeneric.
  assert (H2 : is_generic_email e2 = false).
  { unfold e2. destruct (truthy e1); [exact H1 | apply contact_email_nongeneric]. }
  assert (H3 : is_generic_email e3 = false).
  { unfold e3. destruct (_ && _); [apply advanced_email_nongeneric | exact H2]. }
  clearbody e3. destruct (negb (truthy e3)); [exact I|].
  destruct (truthy_list _ && _); [exact I | apply Hgen, H3].
Qed.

(** C2, as stated, fails: the code lower-cases the email and does not
    fold its case. For a person named "ſales" (with the long s) at
    "acme.com", and nothing else to go by, [extract_email] returns the
    inferred email "ſales@acme.com". Its case-folded text holds the
    pattern [sales@]; its lower-cased text, the one the code looks at,
    does not. *)
Lemma case_folded_generic_email_returned :
  extract_email offline "" "" (Notions.long_s +:+ "ales") "acme.com" ""
  = Notions.long_s +:+ "ales@acme.com" /\
  In "sales@" GENERIC_EMAIL_PATTERNS /\
  Notions.casefold (Notions.long_s +:+ "ales@acme.com") = "sales@acme.com" /\
  occurs_in "sales@" (Notions.casefold (Notions.long_s +:+ "ales@acme.com")) /\
  lower (Notions.long_s +:+ "ales@acme.com") = Notions.long_s +:+ "ales@acme.com" /\
  is_generic_email (Notions.long_s +:+ "ales@acme.com") = false.
Proof.
  split; [vm_compute; reflexivity|].
  split; [vm_compute; tauto|].
  split; [reflexivity|].
  split; [exists "", "acme.com"; reflexivity|].
  split; reflexivity.
Qed.

(** C4: as soon as strategies 1 to 3 meet a candidate that is not generic,
    strategies 4 and 5 infer nothing, and the email returned is one of the
    candidates met, whose confidence is 2 or more; an inferred email, of
    confidence 1, can then not be returned in its place. *)
Theorem inferred_email_is_last_resort fetch text url name company profile_url :
  observed fetch text url profile_url <> [] ->
  last_resort name company text (observed fetch text url profile_url)
    = observed fetch text url profile_url /\
  exists confidence,
    In (extract_email fetch text url name company profile_url, confidence)
       (observed fetch text url profile_url) /\ 2 <= confidence.
Proof.
  intros Hne. split; [apply last_resort_nonempty, Hne|].
  rewrite extract_email_spec, last_resort_nonempty by exact Hne.
  destruct (List.find _ _) as [[e k]|] eqn:E.
  - apply find_some in E as [E _]. exists k. split; [exact E|].
    apply observed_nongeneric in E. tauto.
  - destruct (best_email_In (observed fetch text url profile_url)) as [[H _] | [k H]];
      [contradiction|].
    exists k. split; [exact H|]. apply observed_nongeneric in H. tauto.
Qed.

(** A profile with a name and a company to infer from, and one address in
    its text that matches neither: the address of the text is returned. *)
Lemma inferred_email_is_last_resort_witness :
  exists confidence,
    In (extract_email offline "Works at Initech. Ask bob@other.org" "" "Jane Doe" "Initech" "",
        confidence)
       (observed offline "Works at Initech. Ask bob@other.org" "" "") /\ 2 <= confidence.
Proof.
  apply (inferred_email_is_last_resort offline _ "" "Jane Doe" "Initech" "").
  vm_compute. discriminate.
Defined.

(** C8 fails on the code. The candidates that strategies 1 to 3 meet are
    well formed ([observed_well_formed]), but the email inferred for John
    Smith of Acme has no dot-separated final label, so it is not an email
    of the shared grammar; [extract_email] returns it and the route stores
    it. *)
Theorem inferred_email_not_well_formed :
  infer_email_from_name_company "John Smith" "Acme" = "john.smith@acme" /\
  well_formed_email "john.smith@acme" = false /\
  extract_email offline "John Smith Engineer at Acme Corp" "" "John Smith" "Acme" ""
    = "john.smith@acme" /\
  item_email offline no_scraper true false
    "John Smith" "https://jsmith.dev/about" "Engineer at Acme Corp" "John Smith"
    = Some "john.smith@acme".
Proof. vm_compute. repeat split. Qed.

(** The final class [[A-Z|a-z]] of [EMAIL_PATTERN] holds the bar: a final
    label need not be made of letters only. *)
Lemma email_label_allows_bar :
  findall EMAIL_PATTERN "mail x@y.c|d now" = ["x@y.c|d"].
Proof. vm_compute. reflexivity. Qed.

End EmailPipeline.

(** ** Deduplication *)

Section Deduplication.
Import Text App.

Lemma truthy_false s : truthy s = false <-> s = "".
Proof. destruct s; simpl; split; congruence. Qed.

Lemma truthy_true s : truthy s = true <-> s <> "".
Proof. destruct s; simpl; split; congruence. Qed.

Lemma skipped_false seen_urls seen_emails r :
  skipped seen_urls seen_emails r = false <->
  (profile_url r = "" \/ profile_url r ∉ seen_urls) /\
  (email_key r = "" \/ seen_emails !! email_key r = None
   \/ seen_emails !! email_key r = Some (profile_url r)).
Proof.
  unfold skipped.
  destruct (truthy (profile_url r)) eqn:Hu; cbn [andb].
  - apply truthy_true in Hu.
    destruct (bool_decide_reflect (profile_url r ∈ seen_urls)) as [Hin | Hin].
    + split; [discriminate | intros [[? | ?] _]; contradiction].
    + destruct (truthy (email_key r)) eqn:He; [|apply truthy_false in He; tauto].
      apply truthy_true in He.
      destruct (seen_emails !! email_key r) as [u|]; [|tauto].
      destruct (String.eqb_spec u (profile_url r)) as [-> | Hne]; simpl.
      * tauto.
      * split; [discriminate|]. intros [_ [? | [? | ?]]]; congruence.
  - apply truthy_false in Hu.
    destruct (truthy (email_key r)) eqn:He; [|apply truthy_false in He; tauto].
    apply truthy_true in He.
    destruct (seen_emails !! email_key r) as [u|]; [|tauto].
    destruct (String.eqb_spec u (profile_url r)) as [-> | Hne]; simpl.
    + tauto.
    + split; [discriminate|]. intros [_ [? | [? | ?]]]; congruence.
Qed.

Lemma dedup_loop_cons seen_urls seen_emails r rest :
  dedup_loop seen_urls seen_emails (r :: rest) =
  if skipped seen_urls seen_emails r then dedup_loop seen_urls seen_emails rest
  else r :: dedup_loop (urls_after seen_urls r) (emails_after seen_emails r) rest.
Proof. reflexivity. Qed.

(** Running the loop again on its own output, from the same state,
    changes nothing. *)
Lemma dedup_loop_idempotent results : forall seen_urls seen_emails,
  dedup_loop seen_urls seen_emails (dedup_loop seen_urls seen_emails results)
  = dedup_loop seen_urls seen_emails results.
Proof.
  induction results as [|r rest IH]; intros seen_urls seen_emails; [reflexivity|].
  rewrite dedup_loop_cons.
  destruct (skipped seen_urls seen_emails r) eqn:E; [apply IH|].
  rewrite dedup_loop_cons, E, IH. reflexivity.
Qed.

(** C9: [deduplicate_results] is idempotent. *)
Theorem deduplicate_results_idempotent results :
  deduplicate_results (deduplicate_results results) = deduplicate_results results.
Proof. apply dedup_loop_idempotent. Qed.

(** What the state of the loop says about the rows it keeps: a kept row has
    a URL that was not seen before, and if its email was claimed before,
    it was claimed by the URL of the row. *)
Lemma dedup_loop_kept results : forall seen_urls seen_emails r,
  In r (dedup_loop seen_urls seen_emails results) ->
  (profile_url r = "" \/ profile_url r ∉ seen_urls) /\
  (email_key r = "" \/ seen_emails !! email_key r = None
   \/ seen_emails !! email_key r = Some (profile_url r)).
Proof.
  induction results as [|x rest IH]; intros seen_urls seen_emails r; [intros []|].
  rewrite dedup_loop_cons.
  destruct (skipped seen_urls seen_emails x) eqn:E; [apply IH|].
  apply skipped_false in E. intros [<- | Hin]; [exact E|].
  apply IH in Hin as [Hu He]. split.
  - destruct Hu as [Hu | Hu]; [left; exact Hu | right].
    unfold urls_after in Hu. destruct (truthy (profile_url x)); [|exact Hu].
    apply not_elem_of_union in Hu as [Hu _]. exact Hu.
  - destruct He as [He | He]; [left; exact He | right].
    unfold emails_after in He. destruct (truthy (email_key x)) eqn:T; [|exact He].
    destruct (decide (email_key x = email_key r)) as [Heq | Hne].
    + rewrite Heq, lookup_insert_eq in He.
      destruct He as [He | He]; [discriminate|]. injection He as He.
      apply truthy_true in T.
      destruct E as [_ [E | [E | E]]]; [contradiction | left | right]; rewrite <- Heq.
      * exact E.
      * rewrite E, He. reflexivity.
    + rewrite lookup_insert_ne in He by exact Hne. exact He.
Qed.

(** Two kept rows with the same non-empty email have no profile URL. *)
Lemma dedup_loop_pairs results : forall seen_urls seen_emails i j ri rj,
  i < j ->
  dedup_loop seen_urls seen_emails results !! i = Some ri ->
  dedup_loop seen_urls seen_emails results !! j = Some rj ->
  email_key ri = email_key rj -> email_key ri <> "" ->
  profile_url ri = "" /\ profile_url rj = "".
Proof.
  induction results as [|x rest IH]; intros seen_urls seen_emails i j ri rj Hij;
    [cbn [dedup_loop]; rewrite lookup_nil; discriminate|].
  rewrite dedup_loop_cons.
  destruct (skipped seen_urls seen_emails x) eqn:E; [apply IH; exact Hij|].
  destruct j as [|j]; [lia|]. destruct i as [|i]; cbn [lookup list_lookup].
  - intros Hi Hj Hkey Hne. injection Hi as ->.
    apply list_elem_of_lookup_2, list_elem_of_In, dedup_loop_kept in Hj as [Hu He].
    unfold emails_after in He. rewrite <- Hkey in He.
    rewrite (proj2 (truthy_true _) Hne), lookup_insert_eq in He.
    destruct He as [He | [He | He]]; [contradiction | discriminate|].
    injection He as He.
    unfold urls_after in Hu. rewrite <- He in *.
    destruct (truthy (profile_url ri)) eqn:T; [|apply truthy_false in T; auto].
    destruct Hu as [Hu | Hu]; [auto|]. exfalso. apply Hu.
    apply elem_of_union. right. apply elem_of_singleton. reflexivity.
  - apply IH. lia.
Qed.

(** A row is kept when no earlier row has its email, and its URL is empty
    or new. *)
Lemma dedup_loop_keeps_first before : forall seen_urls seen_emails r after,
  (forall x, In x before -> email_key x <> email_key r) ->
  (seen_emails !! email_key r) = None ->
  (profile_url r = "" \/
   ((profile_url r ∉ seen_urls) /\ forall x, In x before -> profile_url x <> profile_url r)) ->
  In r (dedup_loop seen_urls seen_emails (before ++ r :: after)).
Proof.
  induction before as [|x before IH]; intros seen_urls seen_emails r after Hkeys Hnone Hurl.
  - cbn [app]. rewrite dedup_loop_cons.
    rewrite (proj2 (skipped_false seen_urls seen_emails r)); [left; reflexivity|].
    split; [tauto | auto].
  - cbn [app]. rewrite dedup_loop_cons.
    assert (Hrest : forall y, In y before -> email_key y <> email_key r)
      by (intros y Hy; apply Hkeys; right; exact Hy).
    destruct (skipped seen_urls seen_emails x).
    + apply IH; [exact Hrest | exact Hnone|].
      destruct Hurl as [Hurl | [Hnew Hurl]]; [left; exact Hurl | right].
      split; [exact Hnew | intros y Hy; apply Hurl; right; exact Hy].
    + right. apply IH; [exact Hrest | |].
      * unfold emails_after. destruct (truthy (email_key x)); [|exact Hnone].
        rewrite lookup_insert_ne; [exact Hnone | apply Hkeys; left; reflexivity].
      * destruct Hurl as [Hurl | [Hnew Hurl]]; [left; exact Hurl | right]. split.
        -- unfold urls_after. destruct (truthy (profile_url x)); [|exact Hnew].
           apply not_elem_of_union. split; [exact Hnew|].
           apply not_elem_of_singleton. intros Heq. apply (Hurl x); [left|]; auto.
        -- intros y Hy. apply Hurl. right. exact Hy.
Qed.

(** C3, as amended: two rows of the output of [deduplicate_results] have
    the same non-empty email (lower-cased and trimmed) only when neither
    has a profile URL; and a row of the batch is kept when no earlier row
    has its email and its profile URL is empty or used by no earlier
    row. *)
Theorem deduplicate_results_unique_email results :
  (forall i j ri rj,
     i < j ->
     deduplicate_results results !! i = Some ri ->
     deduplicate_results results !! j = Some rj ->
     email_key ri = email_key rj -> email_key ri <> "" ->
     profile_url ri = "" /\ profile_url rj = "") /\
  (forall before r after,
     results = before ++ r :: after ->
     (forall x, In x before -> email_key x <> email_key r) ->
     (profile_url r = "" \/ forall x, In x before -> profile_url x <> profile_url r) ->
     In r (deduplicate_results results)).
Proof.
  split.
  - apply dedup_loop_pairs.
  - intros before r after -> Hkeys Hurl. apply dedup_loop_keeps_first.
    + exact Hkeys.
    + apply lookup_empty.
    + destruct Hurl as [Hurl | Hurl]; [left; exact Hurl | right].
      split; [apply not_elem_of_empty | exact Hurl].
Qed.

(** A batch of four rows. The two rows without a profile URL carry the
    same email and are both kept: the first half of the theorem, at the
    second and third row of the output, says that neither has a URL. Bob's
    row comes last; no earlier row has his email or his URL, so it is
    kept: the second half. *)
Lemma deduplicate_results_unique_email_witness :
  (profile_url (row "Jane Doe" "jane@acme.com" "") = "" /\
   profile_url (row "Jane Roe" " Jane@Acme.com" "") = "") /\
  In (row "Bob Ray" "bob@acme.com" "https://b.example/bob")
     (deduplicate_results
        [row "Ann Lee" "ann@acme.com" "https://a.example/ann";
         row "Jane Doe" "jane@acme.com" "";
         row "Jane Roe" " Jane@Acme.com" "";
         row "Bob Ray" "bob@acme.com" "https://b.example/bob"]).
Proof.
  split.
  - apply (proj1 (deduplicate_results_unique_email
                    [row "Ann Lee" "ann@acme.com" "https://a.example/ann";
                     row "Jane Doe" "jane@acme.com" "";
                     row "Jane Roe" " Jane@Acme.com" "";
                     row "Bob Ray" "bob@acme.com" "https://b.example/bob"]) 1 2).
    + lia.
    + vm_compute. reflexivity.
    + vm_compute. reflexivity.
    + vm_compute. reflexivity.
    + vm_compute. discriminate.
  - apply (proj2 (deduplicate_results_unique_email _)
             [row "Ann Lee" "ann@acme.com" "https://a.example/ann";
              row "Jane Doe" "jane@acme.com" "";
              row "Jane Roe" " Jane@Acme.com" ""]
             _ [] eq_refl).
    + intros x [<- | [<- | [<- | []]]]; vm_compute; discriminate.
    + right. intros x [<- | [<- | [<- | []]]]; vm_compute; discriminate.
Defined.

(** C3, as stated, fails twice. The row that is first in the batch with an
    email is not the one kept when its URL was seen before: Jane Doe's row
    goes with the URL check, and the later row with the same email stays.
    And two rows without a profile URL that carry the same email are both
    kept. *)
Lemma deduplicate_results_keeps_shared_email :
  deduplicate_results
    [row "Ann Lee" "ann@acme.com" "https://site.example/ann";
     row "Jane Doe" "jane@acme.com" "https://site.example/ann";
     row "Jane Roe" "jane@acme.com" "https://site.example/jane"]
    = [row "Ann Lee" "ann@acme.com" "https://site.example/ann";
       row "Jane Roe" "jane@acme.com" "https://site.example/jane"] /\
  deduplicate_results [row "Jane Doe" "jane@acme.com" ""; row "Jane Roe" "Jane@Acme.com" ""]
    = [row "Jane Doe" "jane@acme.com" ""; row "Jane Roe" "Jane@Acme.com" ""] /\
  email_key (row "Jane Doe" "jane@acme.com" "") = "jane@acme.com" /\
  email_key (row "Jane Roe" "Jane@Acme.com" "") = "jane@acme.com".
Proof. vm_compute. repeat split. Qed.

End Deduplication.

(** ** Keyword relevance *)

Section Relevance.
Import Text KeywordValidator.

Lemma any_spec text terms :
  any (term_in text) terms = true <-> exists term, In term terms /\ occurs_in term text.
Proof.
  unfold any, term_in. rewrite existsb_exists.
  split; intros [t [Hin H]]; exists t; split; try assumption; apply contains_spec; exact H.
Qed.

(** Two different terms of a vocabulary that both occur are counted twice. *)
Lemma count_two {A} (f : A -> bool) l x y :
  x <> y -> In x l -> In y l -> f x = true -> f y = true -> 2 <= count f l.
Proof.
  intros Hne Hx Hy Hfx Hfy.
  assert (Hone : forall z l', In z l' -> f z = true -> 1 <= count f l').
  { intros z l'. induction l' as [|a l' IH]; intros Hin Hfz; [destruct Hin|].
    simpl. destruct Hin as [-> | Hin]; [rewrite Hfz; lia | specialize (IH Hin Hfz); lia]. }
  induction l as [|a l IH]; [destruct Hx|].
  simpl. destruct Hx as [-> | Hx], Hy as [-> | Hy].
  - congruence.
  - rewrite Hfx. specialize (Hone y l Hy Hfy). lia.
  - rewrite Hfy. specialize (Hone x l Hx Hfx). lia.
  - specialize (IH Hx Hy). lia.
Qed.

Lemma count_occurring text terms t1 t2 :
  t1 <> t2 -> In t1 terms -> In t2 terms ->
  occurs_in t1 text -> occurs_in t2 text ->
  Nat.leb 2 (count (term_in text) terms) = true.
Proof.
  intros Hne H1 H2 Ho1 Ho2. apply Nat.leb_le.
  apply (count_two _ _ t1 t2); try assumption; apply contains_spec; assumption.
Qed.

(** C5: the score is 0, whatever the keywords of the validator, as soon
    as the combined text holds two terms of the irrelevant vocabulary, or
    one product indicator, or two company-page phrases. *)
Theorem hard_reject_scores_zero self profile_text title job_title company :
  let combined_text := combined profile_text title job_title company in
  (exists t1 t2, t1 <> t2 /\ In t1 IRRELEVANT_TERMS /\ In t2 IRRELEVANT_TERMS /\
                 occurs_in t1 combined_text /\ occurs_in t2 combined_text) \/
  (exists t, In t product_indicators /\ occurs_in t combined_text) \/
  (exists t1 t2, t1 <> t2 /\ In t1 company_page_indicators /\ In t2 company_page_indicators /\
                 occurs_in t1 combined_text /\ occurs_in t2 combined_text) ->
  (calculate_relevance_score self profile_text title job_title company).1 = 0%float /\
  forall other,
    calculate_relevance_score other profile_text title job_title company
    = calculate_relevance_score self profile_text title job_title company.
Proof.
  intros combined_text H. unfold calculate_relevance_score. fold combined_text.
  destruct (truthy profile_text); cbn [negb]; [|split; reflexivity].
  destruct (Nat.leb 2 (count (term_in combined_text) IRRELEVANT_TERMS)) eqn:Hirr;
    [split; reflexivity|].
  destruct (any (term_in combined_text) product_indicators) eqn:Hprod; [split; reflexivity|].
  destruct (Nat.leb 2 (count (term_in combined_text) company_page_indicators)) eqn:Hcomp;
    [split; reflexivity|].
  exfalso. destruct H as [H | [H | H]].
  - destruct H as (t1 & t2 & Hne & H1 & H2 & Ho1 & Ho2).
    rewrite (count_occurring _ _ t1 t2) in Hirr by assumption. discriminate.
  - apply any_spec in H. congruence.
  - destruct H as (t1 & t2 & Hne & H1 & H2 & Ho1 & Ho2).
    rewrite (count_occurring _ _ t1 t2) in Hcomp by assumption. discriminate.
Qed.

(** The product listing of the specification: "buy" and "wallet" occur. *)
Lemma hard_reject_scores_zero_witness :
  (calculate_relevance_score (new ["RFID"; "engineer"])
     "Buy our RFID blocking wallet now, 20% off, add to cart" "" "" "").1 = 0%float.
Proof.
  apply (hard_reject_scores_zero (new ["RFID"; "engineer"])
           "Buy our RFID blocking wallet now, 20% off, add to cart" "" "" "").
  left. exists "buy", "wallet". repeat split.
  - discriminate.
  - vm_compute. tauto.
  - vm_compute. tauto.
  - exists "   ", " our rfid blocking wallet now, 20% off, add to cart". reflexivity.
  - exists "   buy our rfid blocking ", " now, 20% off, add to cart". reflexivity.
Defined.

(** The checks of [validate_profile] negate a search for terms. *)
Lemma none_occurs text terms :
  negb (any (term_in text) terms) = true <->
  ~ exists term, In term terms /\ occurs_in term text.
Proof.
  rewrite negb_true_iff, <- any_spec. destruct (any (term_in text) terms).
  - split; [discriminate | intros H; destruct H; reflexivity].
  - split; [intros _; discriminate | reflexivity].
Qed.

(** C6: [validate_profile] accepts a profile exactly when its score is at
    least 0.3 and the checks [has_name], [has_keyword_match] and
    [not_product] pass; the score and the reason are those of
    [calculate_relevance_score]; the confidence is the number of passed
    checks over the five checks. Each check is what the specification says
    of the name and of the lower-cased profile text: the name is not empty,
    is not "Unknown" and is longer than two characters; a keyword term
    occurs; a professional term occurs; none of the first five irrelevant
    terms occurs; none of the phrases "about us", "our company" and
    "contact us" occurs. *)
Theorem validate_profile_decision self name profile_text title job_title company url :
  let v := validate_profile self name profile_text title job_title company url in
  let text := lower profile_text in
  (has_name (checks_of v) = true <->
     name <> "" /\ name <> "Unknown" /\ 2 < String.length name) /\
  (has_keyword_match (checks_of v) = true <->
     exists term, In term (keyword_terms self) /\ occurs_in term text) /\
  (is_professional (checks_of v) = true <->
     exists term, In term PROFESSIONAL_TERMS /\ occurs_in term text) /\
  (not_product (checks_of v) = true <->
     ~ exists term, In term ["shop"; "store"; "buy"; "sell"; "purchase"] /\
                    occurs_in term text) /\
  (not_company_page (checks_of v) = true <->
     ~ exists phrase, In phrase ["about us"; "our company"; "contact us"] /\
                      occurs_in phrase text) /\
  score v = (calculate_relevance_score self profile_text title job_title company).1 /\
  reason v = (calculate_relevance_score self profile_text title job_title company).2 /\
  (is_valid v = true <->
     (0.3 <=? score v)%float = true /\ has_name (checks_of v) = true /\
     has_keyword_match (checks_of v) = true /\ not_product (checks_of v) = true) /\
  values (checks_of v)
  = [has_name (checks_of v); has_keyword_match (checks_of v); is_professional (checks_of v);
     not_product (checks_of v); not_company_page (checks_of v)] /\
  confidence v = true_div (count id (values (checks_of v))) 5.
Proof.
  unfold validate_profile.
  destruct (calculate_relevance_score self profile_text title job_title company) as [s r].
  cbn [is_valid score reason checks_of confidence has_name has_keyword_match is_professional
       not_product not_company_page fst snd].
  change (take 5 IRRELEVANT_TERMS) with ["shop"; "store"; "buy"; "sell"; "purchase"].
  repeat match goal with |- _ /\ _ => split end.
  - rewrite !andb_true_iff, negb_true_iff, truthy_true, Nat.ltb_lt.
    destruct (String.eqb_spec name "Unknown"); intuition congruence.
  - apply any_spec.
  - apply any_spec.
  - apply none_occurs.
  - apply none_occurs.
  - reflexivity.
  - reflexivity.
  - rewrite !andb_true_iff. tauto.
  - reflexivity.
  - reflexivity.
Qed.

(** The engineer of the specification: the four conditions hold of the
    name and of the profile text, and the profile is valid. *)
Lemma validate_profile_decision_witness :
  is_valid (validate_profile (new ["RFID"; "engineer"]) "Jane Doe"
              "Senior RFID Engineer at Acme Corp, 8 years experience" "" "" "" "") = true.
Proof.
  apply (proj1 (proj2 (proj2 (proj2 (proj2 (proj2 (proj2 (proj2
           (validate_profile_decision (new ["RFID"; "engineer"]) "Jane Doe"
              "Senior RFID Engineer at Acme Corp, 8 years experience" "" "" "" ""))))))))).
  vm_compute. repeat split.
Defined.

(** C10: the checks of [validate_profile] read the profile text (and the
    name) only; so when no keyword term occurs in the profile text the
    check [has_keyword_match] fails and the profile is not valid, whatever
    the title, the job title and the company are. The last part shows a
    profile whose only keyword match is in the job title: the match lifts
    the score from 0.072 to 0.84, and the profile is still not valid. *)
Theorem checks_read_profile_text_only self name profile_text title job_title company url :
  (forall title' job_title' company' url',
     checks_of (validate_profile self name profile_text title' job_title' company' url')
     = checks_of (validate_profile self name profile_text title job_title company url)) /\
  ((forall term, In term (keyword_terms self) -> ~ occurs_in term (lower profile_text)) ->
   has_keyword_match
     (checks_of (validate_profile self name profile_text title job_title company url)) = false /\
   is_valid (validate_profile self name profile_text title job_title company url) = false) /\
  (score (validate_profile (new ["rfid"]) "Jane Doe"
            "Senior engineer with years of experience" "" "RFID Engineer" "" "")
     = 0.84000000000000008%float /\
   score (validate_profile (new ["rfid"]) "Jane Doe"
            "Senior engineer with years of experience" "" "" "" "")
     = 0.071999999999999995%float /\
   is_valid (validate_profile (new ["rfid"]) "Jane Doe"
               "Senior engineer with years of experience" "" "RFID Engineer" "" "")
     = false).
Proof.
  split; [|split].
  - intros title' job_title' company' url'. unfold validate_profile.
    destruct (calculate_relevance_score self profile_text title' job_title' company').
    destruct (calculate_relevance_score self profile_text title job_title company).
    reflexivity.
  - intros Hnone.
    assert (H : any (term_in (lower profile_text)) (keyword_terms self) = false).
    { destruct (any _ _) eqn:E; [|reflexivity].
      apply any_spec in E as [t [Hin Ho]]. destruct (Hnone t Hin Ho). }
    unfold validate_profile.
    destruct (calculate_relevance_score self profile_text title job_title company).
    cbn [is_valid checks_of has_keyword_match has_name not_product].
    rewrite H, andb_false_r. split; reflexivity.
  - vm_compute. repeat split.
Qed.

End Relevance.

(** ** The score as a binary64 number

    The operations of [PrimFloat] are specified by those of [SpecFloat];
    the lemmas below follow the sign and the class of a float through
    them. *)

Section FloatScore.
Import SpecFloat FloatOps FloatAxioms.
Import Text KeywordValidator.
Local Open Scope Z_scope.

Lemma shr_1_nonneg mrs : 0 <= shr_m mrs -> 0 <= shr_m (shr_1 mrs).
Proof.
  destruct mrs as [m r s]. simpl. intros H.
  destruct m as [|[p|p|]|p]; simpl; lia.
Qed.

Lemma iter_shr_1_nonneg n : forall mrs,
  0 <= shr_m mrs -> 0 <= shr_m (iter_pos shr_1 n mrs).
Proof.
  induction n as [n IH|n IH|]; intros mrs H; simpl.
  - apply IH, IH, shr_1_nonneg, H.
  - apply IH, IH, H.
  - apply shr_1_nonneg, H.
Qed.

Lemma shr_fexp_nonneg m e l :
  0 <= m -> 0 <= shr_m (fst (shr_fexp prec emax m e l)).
Proof.
  intros H. unfold shr_fexp, shr.
  assert (H0 : 0 <= shr_m (shr_record_of_loc m l)) by (destruct l as [|[]]; exact H).
  destruct (fexp prec emax (Zdigits2 m + e) - e); simpl; try exact H0.
  apply iter_shr_1_nonneg, H0.
Qed.

Lemma round_nearest_even_nonneg m l : 0 <= m -> 0 <= round_nearest_even m l.
Proof.
  intros H. destruct l as [|[]]; simpl; try lia. destruct (Z.even m); lia.
Qed.

Lemma binary_round_aux_nonneg m e l :
  0 <= m -> nonneg_sf (binary_round_aux prec emax false m e l).
Proof.
  intros H. unfold binary_round_aux.
  pose proof (shr_fexp_nonneg m e l H) as H1.
  destruct (shr_fexp prec emax m e l) as [mrs' e'].
  pose proof (shr_fexp_nonneg _ e' loc_Exact
                (round_nearest_even_nonneg _ (loc_of_shr_record mrs') H1)) as H2.
  destruct (shr_fexp prec emax _ e' loc_Exact) as [mrs'' e''].
  simpl in H2. destruct (shr_m mrs''); [exact I | | lia].
  destruct (e'' <=? emax - prec); exact I.
Qed.

Lemma binary_round_nonneg m e : nonneg_sf (binary_round prec emax false m e).
Proof.
  unfold binary_round. destruct (shl_align _ _ _) as [mz ez].
  apply binary_round_aux_nonneg. lia.
Qed.

Lemma binary_normalize_nonneg z e : 0 <= z -> nonneg_sf (binary_normalize prec emax z e false).
Proof.
  intros H. destruct z; [exact I | apply binary_round_nonneg | lia].
Qed.

Lemma SFadd_nonneg x y : nonneg_sf x -> nonneg_sf y -> nonneg_sf (SFadd prec emax x y).
Proof.
  destruct x as [[]|[]| |[] mx ex], y as [[]|[]| |[] my ey]; simpl; try tauto.
  intros _ _. apply binary_round_nonneg.
Qed.

Lemma SFmul_nonneg x y : nonneg_sf x -> positive_finite_sf y -> nonneg_sf (SFmul prec emax x y).
Proof.
  destruct x as [[]|[]| |[] mx ex], y as [[]|[]| |[] my ey]; simpl; try tauto.
  intros _ _. apply binary_round_aux_nonneg. lia.
Qed.

Lemma SFdiv_nonneg x y : nonneg_sf x -> positive_finite_sf y -> nonneg_sf (SFdiv prec emax x y).
Proof.
  destruct x as [[]|[]| |[] mx ex], y as [[]|[]| |[] my ey]; simpl; try tauto.
  intros _ _. unfold SFdiv_core_binary.
  set (m' := match _ - _ - _ with Z0 => _ | Zpos _ => _ | Zneg _ => _ end).
  assert (Hm : 0 <= m').
  { unfold m'. destruct (_ - _ - _); try lia. apply Z.shiftl_nonneg. lia. }
  pose proof (Z_div_mod m' (Z.pos my) ltac:(lia)) as Hd.
  destruct (Z.div_eucl m' (Z.pos my)) as [q r].
  apply binary_round_aux_nonneg. nia.
Qed.


(** *** Integers as floats *)

Lemma digits2_pos_bounds p :
  2 ^ (Z.pos (digits2_pos p) - 1) <= Z.pos p < 2 ^ Z.pos (digits2_pos p).
Proof.
  induction p as [p IH|p IH|]; simpl digits2_pos; [| |simpl; lia];
    rewrite Pos2Z.inj_succ, Z.pow_succ_r by lia;
    replace (Z.succ (Z.pos (digits2_pos p)) - 1) with (Z.succ (Z.pos (digits2_pos p) - 1)) by lia;
    rewrite Z.pow_succ_r by lia; lia.
Qed.

Lemma digits2_pos_iter_xO p k :
  digits2_pos (Pos.iter xO p k) = (digits2_pos p + k)%positive.
Proof.
  induction k as [|k IH] using Pos.peano_ind.
  - simpl. rewrite Pos.add_1_r. reflexivity.
  - rewrite Pos.iter_succ. simpl. rewrite IH, Pos.add_succ_r. reflexivity.
Qed.

Lemma shr_1_div mrs : 0 <= shr_m mrs -> shr_m (shr_1 mrs) = shr_m mrs / 2.
Proof.
  destruct mrs as [m r s]. simpl. intros H.
  destruct m as [|[p|p|]|p]; simpl shr_m; try lia.
  - reflexivity.
  - rewrite Pos2Z.inj_xI. apply (Z.div_unique _ _ _ 1); lia.
  - rewrite Pos2Z.inj_xO. apply (Z.div_unique _ _ _ 0); lia.
  - reflexivity.
Qed.

Lemma iter_shr_1_div n : forall mrs,
  0 <= shr_m mrs -> shr_m (iter_pos shr_1 n mrs) = shr_m mrs / 2 ^ Z.pos n.
Proof.
  induction n as [n IH|n IH|]; intros mrs H; simpl iter_pos.
  - rewrite IH, IH, shr_1_div by auto using iter_shr_1_nonneg, shr_1_nonneg.
    assert (Hp : 0 < 2 ^ Z.pos n) by (apply Z.pow_pos_nonneg; lia).
    rewrite !Z.div_div by lia. f_equal.
    replace (Z.pos n~1) with (Z.pos n + Z.pos n + 1) by lia.
    rewrite !Z.pow_add_r, Z.pow_1_r by lia. lia.
  - rewrite IH, IH by auto using iter_shr_1_nonneg.
    assert (Hp : 0 < 2 ^ Z.pos n) by (apply Z.pow_pos_nonneg; lia).
    rewrite Z.div_div by lia. f_equal.
    replace (Z.pos n~0) with (Z.pos n + Z.pos n) by lia.
    rewrite Z.pow_add_r by lia. reflexivity.
  - rewrite shr_1_div by exact H. reflexivity.
Qed.


Lemma Zdigits2_bounds m : 0 < m -> 2 ^ (Zdigits2 m - 1) <= m < 2 ^ Zdigits2 m.
Proof.
  destruct m as [|p|p]; try lia. intros _. apply digits2_pos_bounds.
Qed.

(** Rounding a positive integer mantissa in the normal range: nothing to
    do for at most 53 digits, otherwise the 53 leading digits are kept. *)
Lemma shr_fexp_normal m e :
  0 < m -> SpecFloat.emin prec emax <= Zdigits2 m + e - prec ->
  (Zdigits2 m <= prec ->
   shr_fexp prec emax m e loc_Exact = (Build_shr_record m false false, e)) /\
  (prec < Zdigits2 m ->
   2 ^ 52 <= shr_m (fst (shr_fexp prec emax m e loc_Exact)) < 2 ^ 53 /\
   snd (shr_fexp prec emax m e loc_Exact) = e + Zdigits2 m - prec).
Proof.
  intros Hm Hnormal. unfold shr_fexp, fexp.
  rewrite Z.max_l by lia.
  replace (Zdigits2 m + e - prec - e) with (Zdigits2 m - prec) by lia.
  pose proof (Zdigits2_bounds m Hm) as [Hlo Hhi].
  unfold prec in *. cbn [shr_record_of_loc].
  destruct (Zdigits2 m - 53) as [|k|k] eqn:Hk; cbn [shr fst snd].
  - split; [reflexivity | lia].
  - split; [lia | intros _].
    rewrite iter_shr_1_div by (simpl; lia). cbn [shr_m].
    assert (Hp : 0 < 2 ^ Z.pos k) by (apply Z.pow_pos_nonneg; lia).
    replace (Zdigits2 m - 1) with (52 + Z.pos k) in Hlo by lia.
    replace (Zdigits2 m) with (53 + Z.pos k) in Hhi by lia.
    rewrite Z.pow_add_r in Hlo, Hhi by lia.
    repeat split.
    + apply Z.div_le_lower_bound; lia.
    + apply Z.div_lt_upper_bound; lia.
    + lia.
  - split; [reflexivity | lia].
Qed.

Lemma Zdigits2_53_54 m : 2 ^ 52 <= m <= 2 ^ 53 -> Zdigits2 m = 53 \/ Zdigits2 m = 54.
Proof.
  intros [Hlo Hhi].
  assert (Hm : 0 < m) by (pose proof (Z.pow_pos_nonneg 2 52); lia).
  pose proof (Zdigits2_bounds m Hm) as [Hdlo Hdhi].
  assert (H0 : 0 < Zdigits2 m) by (destruct m; simpl; lia).
  assert (52 < Zdigits2 m).
  { apply (Z.pow_lt_mono_r_iff 2); lia. }
  assert (Zdigits2 m - 1 <= 53).
  { apply (Z.pow_le_mono_r_iff 2); lia. }
  lia.
Qed.

(** A positive mantissa in the normal range, below the overflow
    threshold, rounds to a positive finite float. *)
Lemma binary_round_aux_finite m e :
  0 < m ->
  SpecFloat.emin prec emax <= Zdigits2 m + e - prec ->
  Zdigits2 m + e <= emax - 1 -> e <= emax - prec ->
  positive_finite_sf (binary_round_aux prec emax false m e loc_Exact).
Proof.
  intros Hm Hnormal Hmax He. unfold binary_round_aux.
  destruct (shr_fexp_normal m e Hm Hnormal) as [Hsmall Hlarge].
  destruct (Z.le_gt_cases (Zdigits2 m) prec) as [Hd | Hd].
  - rewrite (Hsmall Hd). cbn [shr_m loc_of_shr_record round_nearest_even].
    rewrite (Hsmall Hd). cbn [shr_m].
    destruct m; try lia. rewrite (proj2 (Z.leb_le _ _) He). exact I.
  - destruct (Hlarge Hd) as [[Hlo Hhi] He'].
    destruct (shr_fexp prec emax m e loc_Exact) as [mrs' e']. cbn [fst snd] in *.
    set (m2 := round_nearest_even (shr_m mrs') (loc_of_shr_record mrs')).
    assert (Hm2 : 2 ^ 52 <= m2 <= 2 ^ 53).
    { unfold m2, round_nearest_even.
      destruct (loc_of_shr_record mrs') as [|[]]; try destruct (Z.even _); lia. }
    assert (Hpos : 0 < m2) by (pose proof (Z.pow_pos_nonneg 2 52); lia).
    assert (Hnormal2 : SpecFloat.emin prec emax <= Zdigits2 m2 + e' - prec).
    { destruct (Zdigits2_53_54 m2 Hm2) as [-> | ->]; unfold prec in *; lia. }
    destruct (shr_fexp_normal m2 e' Hpos Hnormal2) as [Hsmall2 Hlarge2].
    destruct (Zdigits2_53_54 m2 Hm2) as [Hd2 | Hd2].
    + rewrite Hsmall2 by (unfold prec; lia). cbn [shr_m].
      destruct m2; try lia.
      rewrite (proj2 (Z.leb_le _ _)) by (unfold prec, emax in *; lia). exact I.
    + destruct Hlarge2 as [[Hlo2 Hhi2] He'']; [unfold prec; lia|].
      destruct (shr_fexp prec emax m2 e' loc_Exact) as [mrs'' e'']. cbn [fst snd] in *.
      assert (0 < shr_m mrs'') by (pose proof (Z.pow_pos_nonneg 2 52); lia).
      destruct (shr_m mrs''); try lia.
      rewrite (proj2 (Z.leb_le _ _)) by (unfold prec, emax in *; lia). exact I.
Qed.


(** A positive integer below 2^63 converts to a positive finite float. *)
Lemma binary_round_int_finite p :
  Z.pos p < 2 ^ 63 -> positive_finite_sf (binary_round prec emax false p 0).
Proof.
  intros Hp. unfold binary_round, shl_align, fexp.
  pose proof (digits2_pos_bounds p) as [Hlo Hhi].
  assert (Hd : Z.pos (digits2_pos p) <= 63).
  { assert (Z.pos (digits2_pos p) - 1 < 63); [|lia].
    apply (Z.pow_lt_mono_r_iff 2); lia. }
  rewrite Z.add_0_r, Z.max_l by (unfold SpecFloat.emin, prec, emax; lia).
  rewrite Z.sub_0_r.
  destruct (Z.pos (digits2_pos p) - prec) as [|k|k] eqn:Hk.
  - apply binary_round_aux_finite; cbn [Zdigits2];
      unfold SpecFloat.emin, prec, emax in *; lia.
  - apply binary_round_aux_finite; cbn [Zdigits2];
      unfold SpecFloat.emin, prec, emax in *; lia.
  - apply binary_round_aux_finite; cbn [Zdigits2];
      rewrite ?digits2_pos_iter_xO, ?Pos2Z.inj_add;
      unfold SpecFloat.emin, prec, emax in *; lia.
Qed.

Lemma Prim2SF_float_of_nat n :
  Prim2SF (float_of_nat n) = binary_normalize prec emax (Z.of_nat n mod wB) 0 false.
Proof.
  unfold float_of_nat. rewrite of_uint63_spec, of_Z_spec. reflexivity.
Qed.

Lemma float_of_nat_nonneg n : nonneg (float_of_nat n).
Proof.
  unfold nonneg. rewrite Prim2SF_float_of_nat.
  apply binary_normalize_nonneg, Z.mod_pos_bound. reflexivity.
Qed.

Lemma float_of_nat_positive n :
  (0 < n)%nat -> Z.of_nat n <= maxsize ->
  positive_finite_sf (Prim2SF (float_of_nat n)).
Proof.
  intros Hpos Hmax. unfold maxsize in Hmax. rewrite Prim2SF_float_of_nat.
  change wB with (2 ^ 63). rewrite Z.mod_small by lia.
  destruct (Z.of_nat n) as [|p|p] eqn:E; try lia.
  apply binary_round_int_finite. lia.
Qed.


(** *** Float arithmetic of the score *)

Lemma nonneg_add x y : nonneg x -> nonneg y -> nonneg (x + y)%float.
Proof. unfold nonneg. rewrite add_spec. apply SFadd_nonneg. Qed.

Lemma nonneg_mul x y :
  nonneg x -> positive_finite_sf (Prim2SF y) -> nonneg (x * y)%float.
Proof. unfold nonneg. rewrite mul_spec. apply SFmul_nonneg. Qed.

Lemma nonneg_true_div a b :
  (0 < b)%nat -> Z.of_nat b <= maxsize -> nonneg (true_div a b).
Proof.
  intros Hpos Hmax. unfold nonneg, true_div. rewrite div_spec.
  apply SFdiv_nonneg; [apply float_of_nat_nonneg | apply float_of_nat_positive; assumption].
Qed.

Lemma SFcompare_swap x y c :
  SFcompare x y = Some c -> SFcompare y x = Some (CompOpp c).
Proof.
  destruct x as [[]|[]| |[] mx ex], y as [[]|[]| |[] my ey]; simpl;
    intros H; try discriminate H; injection H as <-; try reflexivity;
    rewrite (Z.compare_antisym ex ey); destruct (ex ?= ey); simpl; try reflexivity;
    rewrite (Pos.compare_cont_antisym mx my Eq); reflexivity.
Qed.

Lemma leb_zero x : nonneg x -> (0 <=? x)%float = true.
Proof.
  unfold nonneg. rewrite leb_spec. change (Prim2SF 0) with (S754_zero false).
  destruct (Prim2SF x) as [[]|[]| |[] m e]; simpl; tauto.
Qed.

(** [min(x, 1.0)] of a float that is neither NaN nor negative is such a
    float again, and at most 1. *)
Lemma pymin_one x :
  nonneg x -> nonneg (pymin x 1) /\ (pymin x 1 <=? 1)%float = true.
Proof.
  intros H. unfold pymin. destruct (1 <? x)%float eqn:E; [split; reflexivity || exact I|].
  split; [exact H|].
  rewrite ltb_spec in E. rewrite leb_spec. unfold nonneg in H.
  unfold SFltb in E. unfold SFleb.
  destruct (SFcompare (Prim2SF 1) (Prim2SF x)) as [c|] eqn:Hc.
  - rewrite (SFcompare_swap _ _ _ Hc). destruct c; try reflexivity. discriminate.
  - destruct (Prim2SF x) as [[]|[]| |[] m e]; try destruct H; discriminate.
Qed.


Lemma count_positive {A} (f : A -> bool) l : (0 < count f l)%nat -> (0 < length l)%nat.
Proof. destruct l; simpl; lia. Qed.

Lemma nonneg_step_add (c : bool) b y :
  nonneg b -> (c = true -> nonneg y) -> nonneg (if c then (b + y)%float else b).
Proof. intros Hb Hy. destruct c; [apply nonneg_add; auto | exact Hb]. Qed.

Lemma nonneg_step_mul (c : bool) b y :
  nonneg b -> positive_finite_sf (Prim2SF y) -> nonneg (if c then (b * y)%float else b).
Proof. intros Hb Hy. destruct c; [apply nonneg_mul; auto | exact Hb]. Qed.

Lemma relevance_score_bounds self profile_text title job_title company :
  Z.of_nat (length (keyword_terms self)) <= maxsize ->
  (0 <=? (calculate_relevance_score self profile_text title job_title company).1)%float = true /\
  ((calculate_relevance_score self profile_text title job_title company).1 <=? 1)%float = true.
Proof.
  intros Hmax. unfold calculate_relevance_score.
  destruct (negb (truthy profile_text)); [split; reflexivity|].
  destruct (Nat.leb 2 _); [split; reflexivity|].
  destruct (any _ product_indicators); [split; reflexivity|].
  destruct (Nat.leb 2 _); [split; reflexivity|].
  cbv zeta. cbn [fst].
  match goal with |- context [pymin ?b 1] => assert (Hb : nonneg b) end.
  { apply nonneg_step_mul; [|exact I].
    apply nonneg_step_add; [|intros _; exact I].
    apply nonneg_step_add; [|intros _; exact I].
    apply nonneg_step_add.
    - apply nonneg_step_add; [exact I|]. intros Hkm.
      apply nonneg_mul; [|exact I]. apply pymin_one, nonneg_true_div; [|exact Hmax].
      apply Nat.ltb_lt in Hkm. exact (count_positive _ _ Hkm).
    - intros _. apply nonneg_mul; [|exact I]. apply pymin_one, nonneg_true_div; [lia|].
      unfold maxsize. lia. }
  destruct (pymin_one _ Hb) as [H1 H2]. split; [apply leb_zero, H1 | exact H2].
Qed.

(** C7: the score of [calculate_relevance_score] lies between 0 and 1, for
    a validator whose list of keyword terms has a length Python can
    represent; hence a profile that [validate_profile] accepts has a score
    of at least 0.3 and at most 1. *)
Theorem relevance_score_in_unit_interval self profile_text title job_title company :
  Z.of_nat (length (keyword_terms self)) <= maxsize ->
  ((0 <=? (calculate_relevance_score self profile_text title job_title company).1)%float = true /\
   ((calculate_relevance_score self profile_text title job_title company).1 <=? 1)%float = true) /\
  forall name url,
    is_valid (validate_profile self name profile_text title job_title company url) = true ->
    (0.3 <=? score (validate_profile self name profile_text title job_title company url))%float
      = true /\
    (score (validate_profile self name profile_text title job_title company url) <=? 1)%float
      = true.
Proof.
  intros Hmax.
  pose proof (relevance_score_bounds self profile_text title job_title company Hmax) as [H0 H1].
  split; [split; assumption|].
  intros name url. unfold validate_profile.
  destruct (calculate_relevance_score self profile_text title job_title company) as [s r].
  cbn [is_valid score fst] in *. rewrite !andb_true_iff. tauto.
Qed.

(** The engineer of the specification: two keyword terms, a score of 0.64. *)
Lemma relevance_score_in_unit_interval_witness :
  (0 <=? (calculate_relevance_score (new ["RFID"; "engineer"])
            "Senior RFID Engineer at Acme Corp, 8 years experience" "" "" "").1)%float = true /\
  ((calculate_relevance_score (new ["RFID"; "engineer"])
      "Senior RFID Engineer at Acme Corp, 8 years experience" "" "" "").1 <=? 1)%float = true.
Proof.
  apply (relevance_score_in_unit_interval (new ["RFID"; "engineer"])
           "Senior RFID Engineer at Acme Corp, 8 years experience" "" "" "").
  vm_compute. discriminate.
Defined.

End FloatScore.

(** ** More on the email pipeline *)

Section MoreEmailPipeline.
Import Text Re App Notions.

(** What strategies 4 and 5 can add to an empty list: the email inferred
    from the company given, or from the company named in the text. *)
Lemma last_resort_inferred name company text c :
  In c (last_resort name company text []) ->
  c = (infer_email_from_name_company name company, 1) \/
  c = (infer_email_from_name_company name (extract_company text), 1).
Proof.
  unfold last_resort. cbn [truthy_list negb andb app].
  set (i1 := infer_email_from_name_company name company).
  set (i2 := infer_email_from_name_company name (extract_company text)).
  assert (Hsecond :
    In c (if truthy name && truthy text
          then if truthy (extract_company text)
               then if truthy i2 && negb (is_generic_email i2) then [(i2, 1)] else []
               else []
          else []) -> c = (i1, 1) \/ c = (i2, 1)).
  { destruct (truthy name && truthy text); [|intros []].
    destruct (truthy (extract_company text)); [|intros []].
    destruct (truthy i2 && negb (is_generic_email i2)); [|intros []].
    intros [<- | []]. right. reflexivity. }
  destruct (truthy name && truthy company); [|exact Hsecond].
  destruct (truthy i1 && negb (is_generic_email i1)); cbn [truthy_list negb andb];
    [|exact Hsecond].
  intros [<- | []]. left. reflexivity.
Qed.

(** X1: the email [extract_email] returns is empty, or one of the
    candidates met in the text, the URL or the profile page, or the email
    inferred from the name and the company given, or the one inferred from
    the name and the company named in the text. *)
Theorem extract_email_provenance fetch text url name company profile_url :
  extract_email fetch text url name company profile_url = "" \/
  (exists confidence,
     In (extract_email fetch text url name company profile_url, confidence)
        (observed fetch text url profile_url)) \/
  extract_email fetch text url name company profile_url
    = infer_email_from_name_company name company \/
  extract_email fetch text url name company profile_url
    = infer_email_from_name_company name (extract_company text).
Proof.
  rewrite extract_email_spec.
  destruct (List.find _ _) as [[e k]|] eqn:E.
  - apply find_some in E as [E _]. right. left. exists k. exact E.
  - destruct (best_email_In (last_resort name company text (observed fetch text url profile_url)))
      as [[_ ->] | [k H]]; [left; reflexivity|].
    destruct (observed fetch text url profile_url) as [|c0 obs] eqn:Hobs.
    + apply last_resort_inferred in H as [H | H]; injection H as H _; rewrite H; auto.
    + rewrite last_resort_nonempty in * by discriminate. right. left. exists k. exact H.
Qed.

(** The sort puts first the first of the candidates of highest
    confidence. *)
Lemma sort_by_confidence_head before c after :
  (forall x, In x before -> x.2 < c.2) -> (forall x, In x after -> x.2 <= c.2) ->
  exists rest, sort_by_confidence (before ++ c :: after) = c :: rest.
Proof.
  intros Hbefore Hafter. induction before as [|x before IH]; cbn [app].
  - unfold sort_by_confidence. cbn [foldr]. fold (sort_by_confidence after).
    destruct (sort_by_confidence after) as [|y l] eqn:E; cbn [insert_by_confidence]; [eauto|].
    assert (Hy : y.2 <= c.2).
    { apply Hafter, sort_by_confidence_In. rewrite E. left. reflexivity. }
    rewrite (proj2 (Nat.ltb_ge _ _) Hy). eauto.
  - destruct IH as [rest IH]; [intros y Hy; apply Hbefore; right; exact Hy|].
    unfold sort_by_confidence in *. cbn [foldr]. rewrite IH. cbn [insert_by_confidence].
    rewrite (proj2 (Nat.ltb_lt _ _)) by (apply Hbefore; left; reflexivity). eauto.
Qed.

(** X2: when no candidate is profile-specific, [extract_email] returns
    the candidate of highest confidence (page 4, text 3, URL 2), and among
    candidates of that confidence the one met first. *)
Theorem extract_email_best_of_rest
    fetch text url name company profile_url before c after :
  observed fetch text url profile_url = before ++ c :: after ->
  (forall x, In x (observed fetch text url profile_url) -> specific name text x = false) ->
  (forall x, In x before -> x.2 < c.2) ->
  (forall x, In x after -> x.2 <= c.2) ->
  extract_email fetch text url name company profile_url = c.1.
Proof.
  intros Hobs Hnone Hbefore Hafter. rewrite extract_email_spec.
  destruct (List.find _ _) as [x|] eqn:E.
  - apply find_some in E as [Hin Hx]. rewrite (Hnone x Hin) in Hx. discriminate.
  - rewrite last_resort_nonempty by (rewrite Hobs; destruct before; discriminate).
    unfold best_email. rewrite Hobs.
    destruct (sort_by_confidence_head before c after Hbefore Hafter) as [rest Hsort].
    unfold candidate in *. rewrite Hsort. destruct c. reflexivity.
Qed.

Lemma extract_email_best_of_rest_witness :
  extract_email (page_of "Write to dan@page.io")
    "Works at Initech. Ask bob@other.org" "https://site.net/?m=carl@site.net"
    "Jane Doe" "Initech" "https://linkedin.com/in/janedoe" = "dan@page.io".
Proof.
  apply (extract_email_best_of_rest _ _ _ _ _ _
           [("bob@other.org", 3); ("carl@site.net", 2)] ("dan@page.io", 4) []).
  - vm_compute. reflexivity.
  - intros x Hx.
    assert (Hobs : observed (page_of "Write to dan@page.io")
              "Works at Initech. Ask bob@other.org" "https://site.net/?m=carl@site.net"
              "https://linkedin.com/in/janedoe"
            = [("bob@other.org", 3); ("carl@site.net", 2); ("dan@page.io", 4)])
      by (vm_compute; reflexivity).
    rewrite Hobs in Hx. destruct Hx as [<- | [<- | [<- | []]]]; vm_compute; reflexivity.
  - intros x [<- | [<- | []]]; simpl; lia.
  - intros x [].
Defined.

(** X3: [extract_email] does not depend on the network when the profile
    URL names none of the four profile sites, or when a candidate of the
    text or of the URL is profile-specific. *)
Theorem extract_email_without_network fetch fetch' text url name company profile_url :
  (forall domain, In domain PROFILE_DOMAINS -> ~ occurs_in domain (lower profile_url)) \/
  (exists c, In c (text_candidates text ++ url_candidates url) /\ specific name text c = true) ->
  extract_email fetch text url name company profile_url
  = extract_email fetch' text url name company profile_url.
Proof.
  intros H. rewrite !extract_email_spec. unfold observed.
  destruct H as [Hsite | (c & Hin & Hc)].
  - assert (Hpage : forall f, page_candidates f profile_url = []).
    { intros f. unfold page_candidates.
      destruct (any _ PROFILE_DOMAINS) eqn:E; [|rewrite andb_false_r; reflexivity].
      unfold any in E. apply existsb_exists in E as (d & Hd & E).
      apply contains_spec in E. destruct (Hsite d Hd E). }
    rewrite !Hpage. reflexivity.
  - rewrite !app_assoc, !(find_app _ (_ ++ _)).
    destruct (List.find (specific name text) (text_candidates text ++ url_candidates url))
      as [x|] eqn:E; [reflexivity|].
    apply (find_none _ _ E) in Hin. congruence.
Qed.

Lemma extract_email_without_network_witness :
  extract_email offline "Jane Doe, engineer. jane@acme.com" "" "Jane Doe" ""
    "https://linkedin.com/in/janedoe"
  = extract_email (page_of "Write to jane.doe@corp.com")
      "Jane Doe, engineer. jane@acme.com" "" "Jane Doe" "" "https://linkedin.com/in/janedoe".
Proof.
  apply extract_email_without_network. right.
  exists ("jane@acme.com", 3). split; vm_compute; [left|]; reflexivity.
Defined.

Lemma any_contains_spec text terms :
  any (fun term => contains term text) terms = true <->
  exists term, In term terms /\ occurs_in term text.
Proof.
  unfold any. rewrite existsb_exists.
  split; intros [t [Hin H]]; exists t; split; try assumption; apply contains_spec; exact H.
Qed.

(** X4: when email extraction is on, the email the route stores for an
    item is never empty and holds, lower-cased, one of the parts of the
    name that are longer than two characters (if the name has such a
    part); an item without such an email is skipped. When extraction is
    off the email stored is empty. *)
Theorem item_email_matches_name
    fetch advanced_scrape extract_emails_enabled advanced title link snippet name :
  match item_email fetch advanced_scrape extract_emails_enabled advanced
          title link snippet name with
  | Some email =>
      if extract_emails_enabled
      then email <> "" /\
           (name_tokens name = [] \/
            exists part, In part (name_tokens name) /\ occurs_in part (lower email))
      else email = ""
  | None => extract_emails_enabled = true
  end.
Proof.
  unfold item_email. destruct extract_emails_enabled; [|reflexivity].
  set (e := if negb (truthy _) && advanced then _ else _). clearbody e.
  destruct (truthy e) eqn:T; cbn [negb]; [|reflexivity].
  destruct (name_tokens name) as [|p ps] eqn:N; cbn [truthy_list andb].
  - split; [apply truthy_true, T | left; reflexivity].
  - destruct (any _ (p :: ps)) eqn:E; cbn [negb]; [|reflexivity].
    split; [apply truthy_true, T | right]. apply any_contains_spec, E.
Qed.

(** X5: without profile text, an email is profile-specific exactly when
    it is not empty and some whitespace-separated part of the name, longer
    than two characters, occurs in it (both lower-cased). *)
Theorem is_profile_specific_email_by_name email name :
  is_profile_specific_email email name "" = true <->
  email <> "" /\
  exists part, In part (split_ws name) /\ 2 < String.length part /\
               occurs_in (lower part) (lower email).
Proof.
  unfold is_profile_specific_email, name_tokens. cbn [truthy].
  assert (Htok : any (fun part => contains part (lower email))
                     (map lower (List.filter (fun p => Nat.ltb 2 (String.length p)) (split_ws name)))
                 = true <->
                 exists part, In part (split_ws name) /\ 2 < String.length part /\
                              occurs_in (lower part) (lower email)).
  { rewrite any_contains_spec. split.
    - intros (t & Hin & Ho). apply in_map_iff in Hin as (p & <- & Hin).
      apply filter_In in Hin as [Hin Hlen]. apply Nat.ltb_lt in Hlen. eauto.
    - intros (p & Hin & Hlen & Ho). exists (lower p). split; [|exact Ho].
      apply in_map_iff. exists p. split; [reflexivity|].
      apply filter_In. split; [exact Hin | apply Nat.ltb_lt, Hlen]. }
  destruct name as [|a name'].
  - cbn [truthy negb orb]. split; [discriminate|]. intros [_ (p & [] & _)].
  - cbn [truthy negb orb]. destruct email as [|b email'].
    + cbn [truthy negb]. split; [discriminate | intros [H _]; congruence].
    + cbn [truthy negb]. destruct (any _ _) eqn:E.
      * split; [intros _ | reflexivity]. split; [discriminate | apply Htok; reflexivity].
      * split; [discriminate|]. intros [_ H]. apply Htok in H. discriminate.
Qed.

Lemma is_profile_specific_email_by_name_witness :
  is_profile_specific_email "j.doe@acme.com" "Jo Doe" "" = true.
Proof.
  apply is_profile_specific_email_by_name. split; [discriminate|].
  exists "Doe". repeat split.
  - vm_compute. tauto.
  - vm_compute. lia.
  - exists "j.", "@acme.com". reflexivity.
Defined.

Lemma findall_nonempty text e : In e (findall EMAIL_PATTERN text) -> e <> "".
Proof.
  intros H ->. apply findall_well_formed in H. discriminate.
Qed.

(** X6: the scrape of a profile page gives nothing when the request
    fails or the page holds no email; otherwise it gives an email of the
    page, and one free of the contact patterns as soon as the page has
    such an email. *)
Theorem scrape_profile_for_email_result fetch url :
  (fetch url = None -> scrape_profile_for_email fetch url = "") /\
  (forall content, fetch url = Some content ->
     (scrape_profile_for_email fetch url = "" <-> findall EMAIL_PATTERN content = []) /\
     (scrape_profile_for_email fetch url <> "" ->
      In (scrape_profile_for_email fetch url) (findall EMAIL_PATTERN content)) /\
     ((exists e, In e (findall EMAIL_PATTERN content) /\ personal e) ->
      personal (scrape_profile_for_email fetch url))).
Proof.
  unfold scrape_profile_for_email. split; [intros ->; reflexivity|].
  intros content ->.
  set (keep := fun e => negb (any (fun skip => contains skip (lower e)) SCRAPE_SKIP_PATTERNS)).
  assert (Hkeep : forall e, keep e = true <-> personal e).
  { intros e. unfold keep, personal. rewrite negb_true_iff. split.
    - intros H skip Hin Ho.
      assert (any (fun skip => contains skip (lower e)) SCRAPE_SKIP_PATTERNS = true)
        by (apply any_contains_spec; eauto). congruence.
    - intros H. destruct (any _ _) eqn:E; [|reflexivity].
      apply any_contains_spec in E as (skip & Hin & Ho). destruct (H skip Hin Ho). }
  destruct (findall EMAIL_PATTERN content) as [|first emails] eqn:E.
  - split; [tauto|]. split; [congruence|]. intros (e & [] & _).
  - assert (Hnonempty : forall e, In e (first :: emails) -> e <> "").
    { intros e He. apply (findall_nonempty content). rewrite E. exact He. }
    destruct (List.filter keep (first :: emails)) as [|e filtered] eqn:F.
    + split; [|split].
      * split; [|discriminate]. intros ->. destruct (Hnonempty ""); [left|]; reflexivity.
      * intros _. left. reflexivity.
      * intros (e & Hin & He). apply Hkeep in He.
        assert (H : In e (List.filter keep (first :: emails))) by (apply filter_In; auto).
        rewrite F in H. destruct H.
    + assert (He : In e (first :: emails) /\ keep e = true).
      { apply filter_In. rewrite F. left. reflexivity. }
      destruct He as [Hin He]. split; [|split].
      * split; [|discriminate]. intros ->. destruct (Hnonempty "" Hin). reflexivity.
      * intros _. exact Hin.
      * intros _. apply Hkeep, He.
Qed.

(** [sort_by_confidence] keeps the candidates of each confidence in the
    order it found them in. *)
Lemma insert_by_confidence_filter k x l :
  List.filter (fun c => Nat.eqb c.2 k) (insert_by_confidence x l)
  = List.filter (fun c => Nat.eqb c.2 k) (x :: l).
Proof.
  induction l as [|y l IH]; [reflexivity|].
  cbn [insert_by_confidence]. destruct (Nat.ltb x.2 y.2) eqn:E; [|reflexivity].
  apply Nat.ltb_lt in E. cbn [List.filter] in *. rewrite IH.
  destruct (Nat.eqb_spec x.2 k) as [Hx|Hx], (Nat.eqb_spec y.2 k) as [Hy|Hy];
    try reflexivity. lia.
Qed.

Lemma insert_by_confidence_sorted x l :
  StronglySorted (fun a b : candidate => b.2 <= a.2) l ->
  StronglySorted (fun a b : candidate => b.2 <= a.2) (insert_by_confidence x l).
Proof.
  induction 1 as [|y l Hl IH Hy]; cbn [insert_by_confidence].
  - repeat constructor.
  - destruct (Nat.ltb x.2 y.2) eqn:E.
    + apply Nat.ltb_lt in E. constructor; [exact IH|].
      apply Forall_forall. intros z Hz. apply list_elem_of_In, insert_by_confidence_In in Hz.
      destruct Hz as [-> | Hz]; [lia|].
      rewrite Forall_forall in Hy. apply Hy, list_elem_of_In, Hz.
    + apply Nat.ltb_ge in E. constructor; [constructor; assumption|].
      constructor; [exact E|]. eapply Forall_impl; [exact Hy|]. simpl. intros; lia.
Qed.

(** The sort of the found emails is a stable sort by decreasing
    confidence: it holds the same candidates, in order of decreasing
    confidence, those of equal confidence in the order they were found. *)
Lemma sort_by_confidence_stable found :
  sort_by_confidence found ≡ₚ found /\
  StronglySorted (fun a b : candidate => b.2 <= a.2) (sort_by_confidence found) /\
  forall k, List.filter (fun c => Nat.eqb c.2 k) (sort_by_confidence found)
            = List.filter (fun c => Nat.eqb c.2 k) found.
Proof.
  induction found as [|x found (IHp & IHs & IHf)].
  - repeat split; constructor.
  - unfold sort_by_confidence in *. cbn [foldr]. repeat split.
    + rewrite <- IHp at 2. clear. induction (foldr _ _ _) as [|y l IH]; [reflexivity|].
      cbn [insert_by_confidence]. destruct (Nat.ltb x.2 y.2); [|reflexivity].
      rewrite IH. apply Permutation_swap.
    + apply insert_by_confidence_sorted, IHs.
    + intros k. rewrite insert_by_confidence_filter. cbn [List.filter]. rewrite IHf.
      reflexivity.
Qed.

End MoreEmailPipeline.

(** ** The inferred email *)

Section Inference.
Import Text Re App Notions.

Lemma chars_app a b : chars (a +:+ b) = chars a ++ chars b.
Proof. induction a as [|c a IH]; simpl; [reflexivity | f_equal; exact IH]. Qed.

Lemma append_assoc a b c : (a +:+ b) +:+ c = a +:+ (b +:+ c).
Proof.
  induction a as [|x a IH]; [reflexivity|].
  change (String x ((a +:+ b) +:+ c) = String x (a +:+ (b +:+ c))). rewrite IH. reflexivity.
Qed.

Lemma chars_str l : chars (str l) = l.
Proof. apply list_ascii_of_string_of_list_ascii. Qed.

(** The text a scan leaves between the matches is made of characters of
    the text. *)
Lemma scan_gaps r rest : forall skip gap prev c,
  In c (concat (map fst (scan r skip gap prev rest))) -> In c gap \/ In c rest.
Proof.
  induction rest as [|a rest IH]; intros skip gap prev c.
  - destruct skip; cbn [scan].
    + destruct (match_here r prev []) as [[len caps]|]; cbn [map concat fst app];
        rewrite ?app_nil_r, ?in_app_iff, <- ?in_rev; cbn [In]; tauto.
    + cbn [map concat fst app]. rewrite app_nil_r, <- in_rev. tauto.
  - destruct skip; cbn [scan].
    + destruct (match_here r prev (a :: rest)) as [[[|len] caps]|];
        cbn [map concat fst]; rewrite ?in_app_iff, <- ?in_rev.
      * intros [H | H]; [tauto|]. apply IH in H. cbn [In] in *. tauto.
      * intros [H | H]; [tauto|]. apply IH in H. cbn [In] in *. tauto.
      * intros H. apply IH in H. cbn [In] in *. tauto.
    + intros H. apply IH in H. cbn [In]. tauto.
Qed.

(** [re.sub(r, '', s)] only removes characters. *)
Lemma remove_all_chars r s c : In c (chars (remove_all r s)) -> In c (chars s).
Proof.
  unfold remove_all, pieces. rewrite chars_str. intros H.
  apply scan_gaps in H as [[] | H]. exact H.
Qed.

(** Removing the matches of a one-character class leaves no character of
    the class. *)
Lemma scan_char_class p rest : forall skip gap prev c,
  In c (concat (map fst (scan (Char p) skip gap prev rest))) ->
  (In c gap \/ p c = false).
Proof.
  induction rest as [|a rest IH]; intros skip gap prev c.
  - destruct skip; cbn [scan map concat fst app match_here rmatch m_rest];
      rewrite app_nil_r, <- in_rev; tauto.
  - destruct skip; cbn [scan]; [|apply IH].
    unfold match_here. cbn [rmatch m_rest]. destruct (p a) eqn:Ha.
    + cbn [advance m_prev length]. rewrite Nat.sub_succ_l, Nat.sub_diag by lia.
      cbn [map concat fst]. rewrite in_app_iff, <- in_rev.
      intros [H | H]; [tauto|]. apply IH in H as [[] | H]. tauto.
    + intros H. apply IH in H as [[<- | H] | H]; tauto.
Qed.

Lemma remove_all_char_class p s c :
  In c (chars (remove_all (Char p) s)) -> p c = false.
Proof.
  unfold remove_all, pieces. rewrite chars_str. intros H.
  apply scan_char_class in H as [[] | H]. exact H.
Qed.

Lemma chars_lower s c : In c (chars (lower s)) -> exists a, In a (chars s) /\ c = lower_char a.
Proof.
  induction s as [|a s IH]; simpl; [intros []|].
  intros [<- | H]; [eauto|]. destruct (IH H) as (b & Hb & ->). eauto.
Qed.

(** A non-empty inferred email ends in an [@] and the cleaned company
    name. *)
Lemma inferred_email_domain name company :
  infer_email_from_name_company name company <> "" ->
  exists local,
    infer_email_from_name_company name company = local +:+ "@" +:+ company_clean company /\
    forall c, In c (chars (company_clean company)) ->
              (is_lower c || is_digit c || one_of ".-" c) = true.
Proof.
  assert (Hclean : forall c, In c (chars (company_clean company)) ->
                             (is_lower c || is_digit c || one_of ".-" c) = true).
  { intros c Hc. apply remove_all_char_class in Hc. unfold not_domain_char in Hc.
    apply negb_false_iff in Hc. exact Hc. }
  unfold infer_email_from_name_company. fold (company_clean company).
  destruct (negb (truthy name) || negb (truthy company)); [congruence|].
  destruct (split_ws (lower name)) as [|first_name rest]; [congruence|].
  intros _. destruct (truthy _); eexists; split; try exact Hclean.
  - rewrite <- (append_assoc first_name), <- append_assoc. reflexivity.
  - reflexivity.
Qed.

(** X8: the email inferred from a name and a company is empty exactly
    when the name has no visible character or the company is empty;
    otherwise it is a local part, an [@] and the cleaned company name, in
    which every character is a lower-case letter, a digit, a dot or a
    hyphen. *)
Theorem infer_email_from_name_company_shape name company :
  (infer_email_from_name_company name company = "" <->
   split_ws (lower name) = [] \/ company = "") /\
  (infer_email_from_name_company name company <> "" ->
   exists local,
     infer_email_from_name_company name company = local +:+ "@" +:+ company_clean company /\
     forall c, In c (chars (company_clean company)) ->
               (is_lower c || is_digit c || one_of ".-" c) = true).
Proof.
  split; [|apply inferred_email_domain].
  unfold infer_email_from_name_company.
  destruct name as [|a name']; [cbn; tauto|].
  destruct company as [|b company']; [cbn [truthy negb orb]; tauto|].
  cbn [truthy negb orb].
  destruct (split_ws (lower (String a name'))) as [|first_name rest] eqn:E; [tauto|].
  split; [|intros [H | H]; discriminate].
  destruct (truthy _); destruct first_name; discriminate.
Qed.

Lemma last_at_unique (x : ascii) a : forall a' b b',
  a ++ x :: b = a' ++ x :: b' -> ~ In x b -> ~ In x b' -> b = b'.
Proof.
  induction a as [|y a IH]; intros [|y' a'] b b' H Hb Hb'; cbn [app] in H.
  - congruence.
  - injection H as -> ->. destruct Hb. apply in_app_iff. right. left. reflexivity.
  - injection H as -> <-. destruct Hb'. apply in_app_iff. right. left. reflexivity.
  - injection H as _ H. exact (IH _ _ _ H Hb Hb').
Qed.

Lemma all_of_not_In p l (c : ascii) : all_of p l -> p c = false -> ~ In c l.
Proof.
  intros Hall Hc Hin. unfold all_of in Hall. rewrite List.Forall_forall in Hall.
  rewrite (Hall c Hin) in Hc. discriminate.
Qed.

(** X9: the email inferred from a company name without a dot is never a
    well-formed email. *)
Theorem infer_email_without_dot name company :
  ~ In "."%char (chars company) ->
  well_formed_email (infer_email_from_name_company name company) = false.
Proof.
  intros Hdot. destruct (well_formed_email _) eqn:W; [exfalso | reflexivity].
  apply well_formed_email_spec in W.
  destruct (inferred_email_domain name company) as (local & Hinfer & Hclean).
  { intros E. rewrite E in W. destruct W as (l & d & t & W & _). destruct l; discriminate. }
  rewrite Hinfer in W. destruct W as (l & d & t & W & _ & _ & _ & Hd & _ & Ht).
  change (list_ascii_of_string ?s) with (chars s) in W.
  rewrite !chars_app in W. cbn [chars list_ascii_of_string app] in W.
  apply last_at_unique in W.
  - assert (Hin : In "."%char (chars (company_clean company)))
      by (rewrite W; apply in_app_iff; right; left; reflexivity).
    unfold company_clean in Hin.
    apply remove_all_chars, remove_all_chars, chars_lower in Hin as (a & Ha & Hlow).
    assert (a = "."%char); [|subst; contradiction].
    unfold lower_char in Hlow. destruct (is_upper a) eqn:U; [|congruence].
    exfalso. revert U Hlow. unfold is_upper, in_range, code.
    destruct a as [[] [] [] [] [] [] [] []]; vm_compute; congruence.
  - intros Hin. apply Hclean in Hin. discriminate.
  - intros Hin. apply in_app_iff in Hin as [Hin | [Hin | Hin]].
    + exact (all_of_not_In email_domain d "@"%char Hd eq_refl Hin).
    + discriminate.
    + exact (all_of_not_In email_label t "@"%char Ht eq_refl Hin).
Qed.

Lemma infer_email_without_dot_witness :
  well_formed_email (infer_email_from_name_company "Mary Ann O'Neil" "Foo & Bar, Inc") = false.
Proof.
  apply infer_email_without_dot. vm_compute. intuition discriminate.
Defined.

End Inference.

(** ** More on the deduplication *)

Section MoreDeduplication.
Import Text App Notions.

Lemma dedup_loop_sublist results : forall seen_urls seen_emails,
  sublist (dedup_loop seen_urls seen_emails results) results.
Proof.
  induction results as [|r rest IH]; intros seen_urls seen_emails; [constructor|].
  rewrite dedup_loop_cons. destruct (skipped seen_urls seen_emails r).
  - apply sublist_cons, IH.
  - apply sublist_skip, IH.
Qed.

Lemma dedup_loop_urls results : forall seen_urls seen_emails,
  NoDup (urls_of (dedup_loop seen_urls seen_emails results)).
Proof.
  induction results as [|r rest IH]; intros seen_urls seen_emails; [constructor|].
  rewrite dedup_loop_cons. destruct (skipped seen_urls seen_emails r); [apply IH|].
  unfold urls_of. cbn [map List.filter]. fold (urls_of (dedup_loop (urls_after seen_urls r)
    (emails_after seen_emails r) rest)).
  destruct (truthy (profile_url r)) eqn:T; [|apply IH].
  constructor; [|apply IH].
  intros Hin. apply list_elem_of_In, filter_In in Hin as [Hin _].
  apply in_map_iff in Hin as (x & Hx & Hin).
  apply dedup_loop_kept in Hin as [[Hu | Hu] _].
  - rewrite Hx in Hu. rewrite Hu in T. discriminate.
  - apply Hu. unfold urls_after. rewrite T, Hx.
    apply elem_of_union. right. apply elem_of_singleton. reflexivity.
Qed.

(** X10: [deduplicate_results] only drops rows: its output is the batch
    with some rows left out, the others in their order; and no profile URL
    that is not empty is left twice in it. *)
Theorem deduplicate_results_filters results :
  sublist (deduplicate_results results) results /\
  NoDup (urls_of (deduplicate_results results)).
Proof. split; [apply dedup_loop_sublist | apply dedup_loop_urls]. Qed.

Lemma dedup_loop_clean results : forall seen_urls seen_emails,
  (forall r, In r results ->
     (profile_url r ∉ seen_urls) /\ (seen_emails !! email_key r) = None) ->
  NoDup (map profile_url results) ->
  NoDup (List.filter truthy (map email_key results)) ->
  dedup_loop seen_urls seen_emails results = results.
Proof.
  induction results as [|r rest IH]; intros seen_urls seen_emails Hfresh Hurls Hkeys;
    [reflexivity|].
  rewrite dedup_loop_cons.
  destruct (Hfresh r) as [Hu He]; [left; reflexivity|].
  rewrite (proj2 (skipped_false seen_urls seen_emails r)) by tauto.
  f_equal. cbn [map] in Hurls. apply NoDup_cons in Hurls as [Hr Hurls].
  cbn [map List.filter] in Hkeys.
  apply IH; [|exact Hurls|destruct (truthy (email_key r)); [apply NoDup_cons in Hkeys|]; tauto].
  intros x Hx. destruct (Hfresh x) as [Hxu Hxe]; [right; exact Hx|]. split.
  - unfold urls_after. destruct (truthy (profile_url r)); [|exact Hxu].
    apply not_elem_of_union. split; [exact Hxu|]. apply not_elem_of_singleton.
    intros Heq. apply Hr. rewrite <- Heq. apply list_elem_of_In, in_map, Hx.
  - unfold emails_after. destruct (truthy (email_key r)) eqn:T; [|exact Hxe].
    rewrite lookup_insert_ne; [exact Hxe|]. intros Heq.
    apply NoDup_cons in Hkeys as [Hk _]. apply Hk.
    apply list_elem_of_In, filter_In. split; [|rewrite Heq; rewrite Heq in T; exact T].
    rewrite Heq. apply in_map, Hx.
Qed.

(** X11: a batch in which no profile URL occurs twice and no email
    (lower-cased and trimmed, the empty one apart) occurs twice is left as
    it is. *)
Theorem deduplicate_results_clean results :
  NoDup (map profile_url results) ->
  NoDup (List.filter truthy (map email_key results)) ->
  deduplicate_results results = results.
Proof.
  intros Hurls Hkeys. apply dedup_loop_clean; [|exact Hurls | exact Hkeys].
  intros r _. split; [apply not_elem_of_empty | apply lookup_empty].
Qed.

Lemma deduplicate_results_clean_witness :
  deduplicate_results
    [row "Jane Doe" "jane@acme.com" "https://a.example/jane";
     row "Bob Ray" "" "https://a.example/bob";
     row "Ann Lee" "" ""]
  = [row "Jane Doe" "jane@acme.com" "https://a.example/jane";
     row "Bob Ray" "" "https://a.example/bob";
     row "Ann Lee" "" ""].
Proof.
  apply deduplicate_results_clean.
  - cbn [map profile_url row].
    repeat (constructor; [rewrite ?elem_of_cons, elem_of_nil; intros H; intuition discriminate|]).
    constructor.
  - vm_compute. repeat constructor. intros H. inversion H.
Defined.

End MoreDeduplication.

(** ** The terms of a validator *)

Section KeywordTerms.
Import Text Re KeywordValidator Notions.

Lemma lower_char_idem a : lower_char (lower_char a) = lower_char a.
Proof. destruct a as [[] [] [] [] [] [] [] []]; reflexivity. Qed.

(** [lower] leaves a text alone when it leaves its characters alone. *)
Lemma lower_fixed s : (forall c, In c (chars s) -> lower_char c = c) -> lower s = s.
Proof.
  induction s as [|a s IH]; intros H; [reflexivity|]. cbn [lower].
  rewrite (H a) by (left; reflexivity). rewrite IH; [reflexivity|].
  intros c Hc. apply H. right. exact Hc.
Qed.

Lemma mem_In x l : mem x l = true <-> In x l.
Proof.
  unfold mem. rewrite existsb_exists. split.
  - intros (y & Hy & E). apply String.eqb_eq in E. subst. exact Hy.
  - intros H. exists x. split; [exact H | apply String.eqb_refl].
Qed.

Lemma distinct_In terms : forall seen t,
  In t (distinct seen terms) <-> In t terms /\ ~ In t seen.
Proof.
  induction terms as [|x terms IH]; intros seen t; cbn [distinct In]; [tauto|].
  destruct (mem x seen) eqn:M.
  - apply mem_In in M. rewrite IH. split; [tauto|].
    intros [[<- | H] Hs]; tauto.
  - assert (~ In x seen) by (rewrite <- mem_In, M; discriminate).
    cbn [In]. rewrite IH. cbn [In]. split.
    + intros [<- | [H1 H2]]; tauto.
    + intros [[<- | H1] H2]; [tauto|].
      destruct (String.eqb_spec x t); tauto.
Qed.

Lemma distinct_NoDup terms : forall seen, NoDup (distinct seen terms).
Proof.
  induction terms as [|x terms IH]; intros seen; cbn [distinct]; [constructor|].
  destruct (mem x seen); [apply IH|].
  constructor; [|apply IH].
  intros H. apply list_elem_of_In, distinct_In in H as [_ H]. apply H. left. reflexivity.
Qed.

(** A greedy repetition of a class matches wherever a character of the
    class stands. *)
Lemma match_here_plus p prev a rest :
  match_here (plus p) prev (a :: rest) = None -> p a = false.
Proof.
  unfold match_here, plus. cbn [rmatch m_prev m_rest m_caps].
  destruct (p a) eqn:Ha; [|reflexivity]. intros H. exfalso.
  assert (S : is_Some (rep p 1 true prev ([a] ++ rest) []
     (fun st => Some (length (m_prev st) - length prev, m_caps st)))).
  { apply rep_complete; [repeat constructor; exact Ha | simpl; lia | eauto]. }
  cbn [app] in S. rewrite H in S. destruct S as [x S]. discriminate.
Qed.

(** The texts between the separators hold no separator. *)
Lemma scan_plus_gaps p rest : forall skip gap prev pc c,
  In pc (scan (plus p) skip gap prev rest) -> In c pc.1 ->
  In c gap \/ (In c rest /\ p c = false).
Proof.
  induction rest as [|a rest IH]; intros skip gap prev pc c Hpc Hc.
  - destruct skip; cbn [scan] in Hpc.
    + destruct (match_here (plus p) prev []) as [[len caps]|].
      * destruct Hpc as [<- | [<- | []]]; cbn [fst] in Hc; [|destruct Hc].
        left. apply in_rev. exact Hc.
      * destruct Hpc as [<- | []]. left. apply in_rev. exact Hc.
    + destruct Hpc as [<- | []]. left. apply in_rev. exact Hc.
  - destruct skip; cbn [scan] in Hpc.
    + destruct (match_here (plus p) prev (a :: rest)) as [[len caps]|] eqn:E.
      * destruct Hpc as [<- | Hpc]; [left; apply in_rev; exact Hc|].
        destruct len.
        -- exfalso. unfold match_here, plus in E. cbn [rmatch] in E.
           apply rep_sound in E as (taken & rest' & _ & _ & Hlen & E).
           cbn [m_prev] in E. injection E as E _.
           rewrite length_app, length_rev in E. lia.
        -- destruct (IH _ _ _ _ _ Hpc Hc) as [[] | [H1 H2]]. right. split; [right|]; assumption.
      * apply match_here_plus in E.
        destruct (IH _ _ _ _ _ Hpc Hc) as [[<- | H] | [H1 H2]].
        -- right. split; [left; reflexivity | exact E].
        -- left. exact H.
        -- right. split; [right|]; assumption.
    + destruct (IH _ _ _ _ _ Hpc Hc) as [H | [H1 H2]]; [left; exact H|].
      right. split; [right|]; assumption.
Qed.

Lemma split_plus_chars p s part c :
  In part (split (plus p) s) -> In c (chars part) -> In c (chars s) /\ p c = false.
Proof.
  unfold split, pieces. intros H Hc. apply in_map_iff in H as (pc & <- & Hpc).
  rewrite chars_str in Hc.
  destruct (scan_plus_gaps _ _ _ _ _ _ _ Hpc Hc) as [[] | H]. exact H.
Qed.

(** X12: the terms a validator is built with: each is longer than two
    characters, is no stop word, is in lower case ([lower] leaves it as it
    is) and holds no separator (white space, comma, dot, hyphen); and no
    term occurs twice. *)
Theorem keyword_terms_invariant keywords :
  NoDup (keyword_terms (new keywords)) /\
  forall term, In term (keyword_terms (new keywords)) ->
    2 < String.length term /\ ~ In term STOP_WORDS /\ lower term = term /\
    forall c, In c (chars term) -> separator c = false.
Proof.
  unfold new. cbn [keyword_terms]. unfold extract_keyword_terms. split; [apply distinct_NoDup|].
  intros term H. apply distinct_In in H as [H _].
  apply in_flat_map in H as (keyword & _ & H). apply filter_In in H as [Hpart Hkeep].
  apply andb_true_iff in Hkeep as [Hlen Hstop].
  split; [apply Nat.ltb_lt; exact Hlen|]. split; [|split].
  - intros Hin. apply mem_In in Hin. rewrite Hin in Hstop. discriminate.
  - apply lower_fixed. intros c Hc.
    destruct (split_plus_chars _ _ _ _ Hpart Hc) as [Hin _].
    apply chars_lower in Hin as (a & _ & ->). apply lower_char_idem.
  - intros c Hc. destruct (split_plus_chars _ _ _ _ Hpart Hc) as [_ Hsep]. exact Hsep.
Qed.

End KeywordTerms.

(** ** More on the relevance score *)

Section MoreRelevance.
Import Text KeywordValidator Notions.

Lemma lower_idem s : lower (lower s) = lower s.
Proof. induction s as [|a s IH]; simpl; [reflexivity|]. rewrite lower_char_idem, IH. reflexivity. Qed.

Lemma lower_app a b : lower (a +:+ b) = lower a +:+ lower b.
Proof.
  induction a as [|x a IH]; [reflexivity|].
  change (String (lower_char x) (lower (a +:+ b)) = String (lower_char x) (lower a +:+ lower b)).
  rewrite IH. reflexivity.
Qed.

Lemma truthy_lower s : truthy (lower s) = truthy s.
Proof. destruct s; reflexivity. Qed.

Lemma combined_lower profile_text title job_title company :
  combined (lower profile_text) (lower title) (lower job_title) (lower company)
  = combined profile_text title job_title company.
Proof.
  unfold combined. rewrite !lower_app, !lower_idem. reflexivity.
Qed.

(** X13: the score, the reason and the validation do not depend on the
    case of the profile text, the title, the job title and the company. *)
Theorem relevance_is_case_insensitive self name profile_text title job_title company url :
  calculate_relevance_score self (lower profile_text) (lower title) (lower job_title)
    (lower company)
  = calculate_relevance_score self profile_text title job_title company /\
  validate_profile self name (lower profile_text) (lower title) (lower job_title)
    (lower company) url
  = validate_profile self name profile_text title job_title company url.
Proof.
  assert (H : calculate_relevance_score self (lower profile_text) (lower title)
                (lower job_title) (lower company)
              = calculate_relevance_score self profile_text title job_title company).
  { unfold calculate_relevance_score.
    rewrite combined_lower, !truthy_lower, !lower_idem. reflexivity. }
  split; [exact H|]. unfold validate_profile. rewrite H, lower_idem. reflexivity.
Qed.

Lemma count_le {A} (f : A -> bool) l : count f l <= length l.
Proof. induction l as [|x l IH]; simpl; [lia | destruct (f x); lia]. Qed.

Lemma count_zero {A} (f : A -> bool) l : count f l = 0 <-> forall x, In x l -> f x = false.
Proof.
  induction l as [|x l IH]; simpl; [tauto|]. destruct (f x) eqn:E.
  - split; [discriminate|]. intros H. rewrite (H x) in E by tauto. discriminate.
  - rewrite IH. split; [intros H y [<- | Hy]; auto | auto].
Qed.

Lemma occurs_in_app_l p a b : occurs_in p a -> occurs_in p (a +:+ b).
Proof.
  intros (pre & post & ->). exists pre, (post +:+ b).
  assert (Hassoc : forall x y z, (x +:+ y) +:+ z = x +:+ (y +:+ z)).
  { intros x y z. induction x as [|c x IH]; [reflexivity|].
    change (String c ((x +:+ y) +:+ z) = String c (x +:+ (y +:+ z))). rewrite IH. reflexivity. }
  rewrite !Hassoc. reflexivity.
Qed.

Lemma occurs_in_app_r p a b : occurs_in p b -> occurs_in p (a +:+ b).
Proof.
  intros (pre & post & ->). exists (a +:+ pre), post.
  induction a as [|c a IH]; [reflexivity|].
  change (String c (a +:+ pre +:+ p +:+ post) = String c ((a +:+ pre) +:+ p +:+ post)).
  rewrite IH. reflexivity.
Qed.

(** The job title and the company are parts of the combined text. *)
Lemma job_title_in_combined term profile_text title job_title company :
  occurs_in term (lower job_title) ->
  occurs_in term (combined profile_text title job_title company).
Proof.
  intros H. unfold combined. rewrite !lower_app.
  apply occurs_in_app_r, occurs_in_app_r, occurs_in_app_l. exact H.
Qed.

Lemma company_in_combined term profile_text title job_title company :
  occurs_in term (lower company) ->
  occurs_in term (combined profile_text title job_title company).
Proof.
  intros H. unfold combined. rewrite !lower_app.
  do 4 apply occurs_in_app_r. apply occurs_in_app_l. exact H.
Qed.

Lemma profile_text_in_combined term profile_text title job_title company :
  occurs_in term (lower profile_text) ->
  occurs_in term (combined profile_text title job_title company).
Proof.
  intros H. unfold combined. rewrite !lower_app.
  do 6 apply occurs_in_app_r. exact H.
Qed.

Lemma any_false text terms :
  (forall term, In term terms -> ~ occurs_in term text) -> any (term_in text) terms = false.
Proof.
  intros H. destruct (any _ _) eqn:E; [|reflexivity].
  apply any_spec in E as (t & Hin & Ho). destruct (H t Hin Ho).
Qed.

(** X14: when no keyword term occurs in the combined text, the score is
    at most 0.09, whatever the professional terms are: below the 0.3 a
    profile needs. *)
Theorem no_keyword_match_scores_low self profile_text title job_title company :
  (forall term, In term (keyword_terms self) ->
     ~ occurs_in term (combined profile_text title job_title company)) ->
  ((calculate_relevance_score self profile_text title job_title company).1 <=? 0.09)%float
  = true /\
  (is_relevant self profile_text title job_title company 0.3).1.1 = false.
Proof.
  intros Hnone. unfold is_relevant.
  assert (Hlow : forall s r,
    calculate_relevance_score self profile_text title job_title company = (s, r) ->
    (s <=? 0.09)%float = true /\ (0.3 <=? s)%float = false).
  { unfold calculate_relevance_score. intros s r.
    destruct (truthy profile_text); cbn [negb];
      [|intros [= <- _]; split; reflexivity].
    destruct (Nat.leb 2 _); [intros [= <- _]; split; reflexivity|].
    destruct (any (term_in _) product_indicators); [intros [= <- _]; split; reflexivity|].
    destruct (Nat.leb 2 _); [intros [= <- _]; split; reflexivity|].
    assert (K : count (term_in (combined profile_text title job_title company))
                  (keyword_terms self) = 0).
    { apply count_zero. intros t Hin. unfold term_in.
      destruct (contains _ _) eqn:E; [|reflexivity].
      apply contains_spec in E. destruct (Hnone t Hin E). }
    rewrite K.
    rewrite (any_false (lower job_title)), (any_false (lower company)), !andb_false_r.
    - cbn [Nat.ltb Nat.leb Nat.eqb].
      pose proof (count_le (term_in (combined profile_text title job_title company))
                    PROFESSIONAL_TERMS) as Hle.
      change (length PROFESSIONAL_TERMS) with 26 in Hle.
      revert Hle. generalize (count (term_in (combined profile_text title job_title company))
                                PROFESSIONAL_TERMS). intros n Hle.
      intros [= <- _].
      do 27 (destruct n as [|n]; [vm_compute; split; reflexivity|]). lia.
    - intros t Hin Ho. exact (Hnone t Hin (company_in_combined _ _ _ _ _ Ho)).
    - intros t Hin Ho. exact (Hnone t Hin (job_title_in_combined _ _ _ _ _ Ho)). }
  destruct (calculate_relevance_score self profile_text title job_title company) as [s r].
  cbn [fst]. exact (Hlow s r eq_refl).
Qed.

Lemma no_keyword_match_scores_low_witness :
  ((calculate_relevance_score (new ["rfid"]) "Senior engineer with years of experience"
      "Jane Doe" "Staff engineer" "Initech").1 <=? 0.09)%float = true /\
  (is_relevant (new ["rfid"]) "Senior engineer with years of experience"
      "Jane Doe" "Staff engineer" "Initech" 0.3).1.1 = false.
Proof.
  apply no_keyword_match_scores_low.
  intros term Hin Ho. apply contains_spec in Ho. revert Hin. vm_compute in Ho |- *.
  intros [<- | []]. discriminate.
Defined.

(** X15: the reason of a score is never empty and never the text
    "Low relevance" the code provides for an empty list of reasons: the
    list is filled before. *)
Theorem reason_is_never_low_relevance self profile_text title job_title company :
  (calculate_relevance_score self profile_text title job_title company).2 <> "" /\
  (calculate_relevance_score self profile_text title job_title company).2 <> "Low relevance".
Proof.
  assert (H : exists c rest,
    (calculate_relevance_score self profile_text title job_title company).2 = String c rest /\
    c <> "L"%char).
  { unfold calculate_relevance_score.
    destruct (truthy profile_text); cbn [negb];
      [|eexists; eexists; split; [reflexivity | discriminate]].
    destruct (Nat.leb 2 _); [eexists; eexists; split; [reflexivity | discriminate]|].
    destruct (any (term_in _) product_indicators);
      [eexists; eexists; split; [reflexivity | discriminate]|].
    destruct (Nat.leb 2 _); [eexists; eexists; split; [reflexivity | discriminate]|].
    cbn [snd].
    destruct (Nat.ltb 0 (count _ (keyword_terms self)));
      destruct (Nat.ltb 0 (count _ PROFESSIONAL_TERMS));
      destruct (truthy job_title && any _ (keyword_terms self));
      cbn [app truthy_list join]; eexists; eexists; (split; [reflexivity | discriminate]). }
  destruct H as (c & rest & -> & Hne).
  split; [discriminate|]. intros [= E _]. congruence.
Qed.

Lemma true_div_fifths n : n <= 5 ->
  In (true_div n 5) [0; 0.2; 0.4; 0.6; 0.8; 1]%float.
Proof.
  intros H. do 6 (destruct n as [|n]; [vm_compute; tauto|]). lia.
Qed.

(** X16: the confidence of a validation is one of 0, 0.2, 0.4, 0.6, 0.8
    and 1; a valid profile has passed three checks at least, so its
    confidence is 0.6, 0.8 or 1. *)
Theorem confidence_values self name profile_text title job_title company url :
  let v := validate_profile self name profile_text title job_title company url in
  In (confidence v) [0; 0.2; 0.4; 0.6; 0.8; 1]%float /\
  (is_valid v = true -> In (confidence v) [0.6; 0.8; 1]%float).
Proof.
  cbv zeta. unfold validate_profile.
  destruct (calculate_relevance_score self profile_text title job_title company) as [s r].
  cbn [confidence is_valid has_name has_keyword_match not_product values].
  destruct (truthy name && negb (String.eqb name "Unknown") && Nat.ltb 2 (String.length name));
    destruct (any (term_in (lower profile_text)) (keyword_terms self));
    destruct (any (term_in (lower profile_text)) PROFESSIONAL_TERMS);
    destruct (negb (any (term_in (lower profile_text)) (take 5 IRRELEVANT_TERMS)));
    destruct (negb (any (term_in (lower profile_text)) ["about us"; "our company"; "contact us"]));
    rewrite ?andb_false_r, ?andb_false_l;
    (split; [vm_compute; tauto | try discriminate; intros _; vm_compute; tauto]).
Qed.

End MoreRelevance.

(** ** Job titles *)

Section JobTitles.
Import Text Re App Route Notions.

(** A scan finds a match as soon as the pattern matches at some position. *)
Lemma scan_complete r pre : forall gap prev rest',
  is_Some (match_here r (rev pre ++ prev) rest') ->
  exists pc m, In pc (scan r 0 gap prev (pre ++ rest')) /\ pc.2 = Some m.
Proof.
  induction pre as [|c pre IH]; intros gap prev rest' [[len caps] H].
  - cbn [rev app] in *. destruct rest' as [|c rest']; cbn [scan]; rewrite H;
      eexists; eexists; (split; [left; reflexivity | reflexivity]).
  - cbn [app scan].
    destruct (match_here r prev (c :: pre ++ rest')) as [[len' caps']|] eqn:E.
    + eexists; eexists; (split; [left; reflexivity | reflexivity]).
    + destruct (IH (c :: gap) (c :: prev) rest') as (pc & m & Hin & Hm).
      { cbn [rev] in H. rewrite <- app_assoc in H. cbn [app] in H. rewrite H. eauto. }
      eauto.
Qed.

Lemma search_complete r s pre rest' :
  chars s = pre ++ rest' -> is_Some (match_here r (rev pre) rest') -> is_Some (search r s).
Proof.
  intros Hs H. unfold search, findall, pieces. fold (chars s). rewrite Hs.
  destruct (scan_complete r pre [] [] rest') as (pc & [m caps] & Hin & Hm).
  { rewrite app_nil_r. exact H. }
  assert (Hx : str m ∈ omap (fun pc : piece =>
                 match pc.2 with Some (m, _) => Some (str m) | None => None end)
                 (scan r 0 [] [] (pre ++ rest'))).
  { apply list_elem_of_omap. exists pc. split; [apply list_elem_of_In; exact Hin|].
    rewrite Hm. reflexivity. }
  destruct (omap _ _); [inversion Hx | eauto].
Qed.

(** Every match a scan reports starts at a position of the text. *)
Lemma scan_sound_at r rest : forall skip gap prev pc m caps,
  In pc (scan r skip gap prev rest) -> pc.2 = Some (m, caps) ->
  exists pre rest' len,
    rest = pre ++ rest' /\ match_here r (rev pre ++ prev) rest' = Some (len, caps) /\
    m = take len rest'.
Proof.
  induction rest as [|c rest IH]; intros skip gap prev pc m caps Hin Hpc.
  - destruct skip; cbn [scan] in Hin.
    + destruct (match_here r prev []) as [[len caps']|] eqn:E.
      * destruct Hin as [<- | [<- | []]]; [|discriminate].
        injection Hpc as <- <-. exists [], [], len. auto.
      * destruct Hin as [<- | []]. discriminate.
    + destruct Hin as [<- | []]. discriminate.
  - assert (Hnext : forall skip' gap', In pc (scan r skip' gap' (c :: prev) rest) ->
      exists pre rest' len,
        c :: rest = pre ++ rest' /\ match_here r (rev pre ++ prev) rest' = Some (len, caps) /\
        m = take len rest').
    { intros skip' gap' H. destruct (IH _ _ _ _ _ _ H Hpc) as (pre & rest' & len & -> & Hm & ->).
      exists (c :: pre), rest', len. cbn [rev app]. rewrite <- app_assoc. auto. }
    destruct skip; cbn [scan] in Hin; [|eapply Hnext; eassumption].
    destruct (match_here r prev (c :: rest)) as [[len caps']|] eqn:E;
      [|eapply Hnext; eassumption].
    destruct Hin as [<- | Hin].
    + injection Hpc as <- <-. exists [], (c :: rest), len. auto.
    + destruct len; eapply Hnext; eassumption.
Qed.

Lemma search_sound r s m :
  search r s = Some m ->
  exists pre rest' len caps,
    chars s = pre ++ rest' /\ match_here r (rev pre) rest' = Some (len, caps) /\
    m = str (take len rest').
Proof.
  unfold search, findall, pieces. intros H.
  assert (Hx : m ∈ omap (fun pc : piece =>
                 match pc.2 with Some (m, _) => Some (str m) | None => None end)
                 (scan r 0 [] [] (list_ascii_of_string s))).
  { destruct (omap _ _) as [|x l]; [discriminate|]. injection H as ->. left. }
  apply list_elem_of_omap in Hx as (pc & Hin & Hpc).
  destruct (pc.2) as [[m' caps]|] eqn:E; [|discriminate]. injection Hpc as <-.
  apply list_elem_of_In in Hin.
  destruct (scan_sound_at _ _ _ _ _ _ _ _ Hin E) as (pre & rest' & len & Hs & Hm & ->).
  rewrite app_nil_r in Hm. exists pre, rest', len, caps. auto.
Qed.

Lemma lowered_lower s : lowered (chars (lower s)).
Proof.
  induction s as [|a s IH]; simpl; constructor; [apply lower_char_idem | exact IH].
Qed.

Lemma lowered_app_r a b : lowered (a ++ b) -> lowered b.
Proof. unfold lowered. rewrite Forall_app. tauto. Qed.

(** A word matched without regard to case at the head of a lower-cased
    text: the text starts with the word in lower case. *)
Lemma ilit_lowered {A} c st (k : mstate -> option A) x :
  lowered (m_rest st) -> rmatch (ilit c) st k = Some x ->
  exists rest', m_rest st = lower_char c :: rest' /\
    k (advance (lower_char c) rest' st) = Some x.
Proof.
  intros Hl. unfold ilit. cbn [rmatch]. destruct (m_rest st) as [|a rest']; [discriminate|].
  destruct (Ascii.eqb_spec (lower_char a) (lower_char c)) as [E|]; [|discriminate].
  inversion Hl as [|? ? Ha Hrest]; subst. rewrite Ha in E. subst a. eauto.
Qed.

Lemma word_lowered {A} w : forall st (k : mstate -> option A) x,
  w <> "" -> lowered (m_rest st) -> rmatch (word ilit w) st k = Some x ->
  exists rest', m_rest st = chars (lower w) ++ rest'.
Proof.
  induction w as [|c w IH]; intros st k x Hw Hl H; [congruence|].
  destruct w as [|c' w'].
  - cbn [word] in H. apply ilit_lowered in H as (rest' & Hrest & _); [|exact Hl].
    exists rest'. exact Hrest.
  - change (word ilit (String c (String c' w'))) with (Seq (ilit c) (word ilit (String c' w'))) in H.
    cbn [rmatch] in H. apply ilit_lowered in H as (rest' & Hrest & H); [|exact Hl].
    apply IH in H as (rest'' & Hrest'').
    + exists rest''. rewrite Hrest. cbn [m_rest advance] in Hrest''. rewrite Hrest''. reflexivity.
    + discriminate.
    + cbn [m_rest advance]. rewrite Hrest in Hl. inversion Hl. assumption.
Qed.

(** Where the pattern [Product\s*(...)] matches, the general pattern
    matches too: it ends in [Product]. *)
Lemma product_is_general prev rest :
  lowered rest -> is_Some (match_here job_title_product prev rest) ->
  is_Some (match_here job_title_general prev rest).
Proof.
  intros Hl [x H]. unfold match_here, job_title_product in H.
  change (Re.seq [?a; ?b; ?c]) with (Seq a (Seq b c)) in H. cbn [rmatch] in H.
  apply word_lowered in H as (rest' & Hrest); [|discriminate | exact Hl].
  cbn [m_rest] in Hrest. subst rest. vm_compute. eauto.
Qed.

(** Where the pattern [Engineering\s*(...)] matches, the general pattern
    matches too: [Engineering] starts with [Engineer]. *)
Lemma engineering_is_general prev rest :
  lowered rest -> is_Some (match_here job_title_engineering prev rest) ->
  is_Some (match_here job_title_general prev rest).
Proof.
  intros Hl [x H]. unfold match_here, job_title_engineering in H.
  change (Re.seq [?a; ?b; ?c]) with (Seq a (Seq b c)) in H. cbn [rmatch] in H.
  apply word_lowered in H as (rest' & Hrest); [|discriminate | exact Hl].
  cbn [m_rest] in Hrest. subst rest. vm_compute. eauto.
Qed.

Lemma search_general r s :
  (forall prev rest, lowered rest -> is_Some (match_here r prev rest) ->
                     is_Some (match_here job_title_general prev rest)) ->
  search job_title_general (lower s) = None -> search r (lower s) = None.
Proof.
  intros Hr Hnone. destruct (search r (lower s)) as [m|] eqn:E; [|reflexivity].
  apply search_sound in E as (pre & rest' & len & caps & Hs & Hm & _).
  destruct (search_complete job_title_general (lower s) pre rest' Hs) as [x Hx].
  - apply Hr; [|rewrite Hm; eauto].
    apply (lowered_app_r pre). rewrite <- Hs. apply lowered_lower.
  - congruence.
Qed.

(** X17: two of the four job-title patterns never decide: wherever
    [Product\s*(?:Manager|Owner|Lead)] or
    [Engineering\s*(?:Manager|Director|Lead)] matches, the first pattern
    has matched already. The job title is the first match of the first
    pattern, and without one the first match of
    [Technical\s*(?:Lead|Manager|Director|Architect)]. *)
Theorem extract_job_title_two_patterns text title :
  extract_job_title text title =
  let combined := lower (title +:+ " " +:+ text) in
  match search job_title_general combined with
  | Some m => strip m
  | None =>
      match search job_title_technical combined with
      | Some m => strip m
      | None => ""
      end
  end.
Proof.
  unfold extract_job_title, JOB_TITLE_PATTERNS. cbv zeta. cbn [first_title].
  destruct (search job_title_general _) as [m|] eqn:G; [reflexivity|].
  rewrite (search_general job_title_product _ product_is_general G).
  rewrite (search_general job_title_engineering _ engineering_is_general G).
  reflexivity.
Qed.

Lemma str_app a b : str (a ++ b) = str a +:+ str b.
Proof.
  induction a as [|x a IH]; [reflexivity|].
  change (String x (str (a ++ b)) = String x (str a +:+ str b)). rewrite IH. reflexivity.
Qed.

Lemma str_chars s : str (chars s) = s.
Proof. apply string_of_list_ascii_of_string. Qed.

Lemma occurs_in_trans a b c : occurs_in a b -> occurs_in b c -> occurs_in a c.
Proof.
  intros (p1 & q1 & ->) (p2 & q2 & ->). exists (p2 +:+ p1), (q1 +:+ q2).
  rewrite !append_assoc. reflexivity.
Qed.

Lemma lstrip_suffix s : exists pre, s = pre +:+ lstrip s.
Proof.
  induction s as [|c s [pre IH]]; [exists ""; reflexivity|].
  cbn [lstrip]. destruct (is_space c); [|exists ""; reflexivity].
  exists (String c pre). change (String c s = String c (pre +:+ lstrip s)). rewrite <- IH. reflexivity.
Qed.

Lemma rstrip_prefix s : exists post, s = rstrip s +:+ post.
Proof.
  induction s as [|c s [post IH]]; [exists ""; reflexivity|].
  cbn [rstrip]. destruct (rstrip s) as [|d t] eqn:E.
  - destruct (is_space c); [exists (String c s) | exists s]; reflexivity.
  - exists post. change (String c s = String c (String d t +:+ post)). rewrite <- IH. reflexivity.
Qed.

Lemma strip_occurs s : occurs_in (strip s) s.
Proof.
  unfold strip. destruct (lstrip_suffix s) as [pre Hpre].
  destruct (rstrip_prefix (lstrip s)) as [post Hpost].
  exists pre, post. rewrite <- Hpost. exact Hpre.
Qed.

Lemma search_occurs r s m : search r s = Some m -> occurs_in m s.
Proof.
  intros H. apply search_sound in H as (pre & rest' & len & caps & Hs & _ & ->).
  exists (str pre), (str (drop len rest')).
  rewrite <- !str_app, take_drop, <- Hs, str_chars. reflexivity.
Qed.

Lemma first_title_occurs patterns combined :
  occurs_in (first_title patterns combined) combined.
Proof.
  induction patterns as [|r rest IH]; cbn [first_title]; [exists "", combined; reflexivity|].
  destruct (search r combined) as [m|] eqn:E; [|exact IH].
  exact (occurs_in_trans _ _ _ (strip_occurs m) (search_occurs _ _ _ E)).
Qed.

(** X18: the job title is cut out of the lower-cased title and text: it
    occurs there, and it is in lower case ([lower] leaves it as it is),
    whatever the case on the page. *)
Theorem extract_job_title_is_lower_case text title :
  occurs_in (extract_job_title text title) (lower (title +:+ " " +:+ text)) /\
  lower (extract_job_title text title) = extract_job_title text title.
Proof.
  pose proof (first_title_occurs JOB_TITLE_PATTERNS (lower (title +:+ " " +:+ text))) as H.
  split; [exact H|]. apply lower_fixed. intros c Hc. destruct H as (pre & post & H).
  fold (extract_job_title text title) in H.
  pose proof (lowered_lower (title +:+ " " +:+ text)) as Hl.
  rewrite H, !chars_app in Hl. unfold lowered in Hl.
  rewrite !Forall_app in Hl. destruct Hl as (_ & Hl & _).
  rewrite List.Forall_forall in Hl. apply Hl, Hc.
Qed.

End JobTitles.

(** ** Profile types and the CSV export *)

Section RouteProperties.
Import Text App KeywordValidator Route Notions.

Lemma occurs_in_prefix a b s : occurs_in (a +:+ b) s -> occurs_in a s.
Proof.
  intros (pre & post & ->). exists pre, (b +:+ post).
  f_equal. induction a as [|c a IH]; [reflexivity|].
  change (String c ((a +:+ b) +:+ post) = String c (a +:+ b +:+ post)). rewrite IH. reflexivity.
Qed.

Lemma contains_prefix a b s : contains (a +:+ b) s = true -> contains a s = true.
Proof. rewrite !contains_spec. apply occurs_in_prefix. Qed.

(** X19: the profile type of a link [urlparse] accepts. It is "Other"
    exactly when neither [linkedin.com] nor [github.com] occurs in the
    lower-cased link; it is "LinkedIn" exactly when [linkedin.com] occurs
    and either it is followed by [/in] or [/pub], or [github.com] does not
    occur, or [/in/] occurs; else it is "GitHub". *)
Theorem profile_type_of_spec valid_url link t :
  profile_type_of valid_url link = Some t ->
  (t = "Other" <->
     ~ occurs_in "linkedin.com" (lower link) /\ ~ occurs_in "github.com" (lower link)) /\
  (t = "LinkedIn" <->
     occurs_in "linkedin.com" (lower link) /\
     (occurs_in "linkedin.com/in" (lower link) \/ occurs_in "linkedin.com/pub" (lower link) \/
      ~ occurs_in "github.com" (lower link) \/ occurs_in "/in/" (lower link))) /\
  (t = "GitHub" <-> t <> "Other" /\ t <> "LinkedIn").
Proof.
  unfold profile_type_of, is_linkedin_profile, is_github_profile.
  destruct (valid_url link); [|discriminate]. cbn [mbind option_bind].
  intros H.
  pose proof (contains_prefix "linkedin.com" "/in" (lower link)) as Pin.
  pose proof (contains_prefix "linkedin.com" "/pub" (lower link)) as Ppub.
  change ("linkedin.com" +:+ "/in") with "linkedin.com/in" in Pin.
  change ("linkedin.com" +:+ "/pub") with "linkedin.com/pub" in Ppub.
  rewrite <- !contains_spec.
  destruct (contains "linkedin.com/in" (lower link));
    destruct (contains "linkedin.com/pub" (lower link));
    destruct (contains "github.com" (lower link));
    destruct (contains "/in/" (lower link));
    destruct (contains "linkedin.com" (lower link));
    cbn in H; injection H as <-;
    try (specialize (Pin eq_refl)); try (specialize (Ppub eq_refl)); try discriminate;
    repeat split; intros; try discriminate; try tauto; intuition discriminate.
Qed.

Lemma profile_type_of_spec_witness :
  ("LinkedIn" = "Other" <->
     ~ occurs_in "linkedin.com" (lower "https://github.com/janedoe/in/?via=LinkedIn.com") /\
     ~ occurs_in "github.com" (lower "https://github.com/janedoe/in/?via=LinkedIn.com")) /\
  ("LinkedIn" = "LinkedIn" <->
     occurs_in "linkedin.com" (lower "https://github.com/janedoe/in/?via=LinkedIn.com") /\
     (occurs_in "linkedin.com/in" (lower "https://github.com/janedoe/in/?via=LinkedIn.com") \/
      occurs_in "linkedin.com/pub" (lower "https://github.com/janedoe/in/?via=LinkedIn.com") \/
      ~ occurs_in "github.com" (lower "https://github.com/janedoe/in/?via=LinkedIn.com") \/
      occurs_in "/in/" (lower "https://github.com/janedoe/in/?via=LinkedIn.com"))) /\
  ("LinkedIn" = "GitHub" <-> "LinkedIn" <> "Other" /\ "LinkedIn" <> "LinkedIn").
Proof.
  apply (profile_type_of_spec (fun _ => true)
           "https://github.com/janedoe/in/?via=LinkedIn.com" "LinkedIn").
  reflexivity.
Defined.

(** X20: the CSV export of the [/scrape] route never gets through: every
    row of the route carries the keys [relevance_score] and
    [relevance_reason], the field names of the export do not list them,
    and [csv.DictWriter] raises on the first row. The field names of
    [export_results] take the same rows. *)
Theorem route_csv_export_raises results :
  (write_csv ROUTE_FIELDNAMES (map to_dict results) = None <-> results <> []) /\
  is_Some (write_csv EXPORT_FIELDNAMES (map to_dict results)).
Proof.
  split.
  - destruct results as [|r rest]; [split; [discriminate | congruence]|].
    split; [discriminate | intros _; reflexivity].
  - unfold write_csv.
    assert (H : mapM (dict_to_list EXPORT_FIELDNAMES) (map to_dict results)
                = Some (map (fun r => map (fun key => default (Str "") (get key (to_dict r)))
                                         EXPORT_FIELDNAMES) results)).
    { induction results as [|r rest IH]; [reflexivity|].
      cbn [map mapM]. rewrite IH. reflexivity. }
    rewrite H. eexists. reflexivity.
Qed.

End RouteProperties.

(** ** The search query *)

Section Queries.
Import Text KeywordValidator Route Notions.

Lemma chars_rev_app a : forall b c,
  In c (chars (String.rev_app a b)) <-> In c (chars a) \/ In c (chars b).
Proof.
  induction a as [|x a IH]; intros b c; cbn [String.rev_app]; [simpl; tauto|].
  rewrite IH. simpl. tauto.
Qed.

Lemma chars_rev a c : In c (chars (String.rev a)) <-> In c (chars a).
Proof. unfold String.rev. rewrite chars_rev_app. simpl. tauto. Qed.

Lemma linebreak_is_space c : is_linebreak c = true -> is_space c = true.
Proof. destruct c as [[] [] [] [] [] [] [] []]; vm_compute; congruence. Qed.

(** The lines hold the characters of the text, the line boundaries left
    out. *)
Lemma splitlines_aux_chars s : forall after_cr cur c,
  (exists line, In line (splitlines_aux after_cr cur s) /\ In c (chars line)) ->
  In c (chars cur) \/ In c (chars s).
Proof.
  induction s as [|x s IH]; intros after_cr cur c (line & Hline & Hc); cbn [splitlines_aux] in Hline.
  - destruct (truthy cur); [|destruct Hline].
    destruct Hline as [<- | []]. left. apply chars_rev, Hc.
  - destruct (after_cr && (code x =? 10)%N).
    { destruct (IH _ _ c (ex_intro _ line (conj Hline Hc))); [tauto | right; right; assumption]. }
    destruct (is_linebreak x).
    + destruct Hline as [<- | Hline]; [left; apply chars_rev, Hc|].
      destruct (IH _ _ c (ex_intro _ line (conj Hline Hc))) as [[] | H]. right; right; exact H.
    + destruct (IH _ _ c (ex_intro _ line (conj Hline Hc))) as [[<- | H] | H].
      * right; left; reflexivity.
      * left; exact H.
      * right; right; exact H.
Qed.

Lemma splitlines_aux_keeps s : forall after_cr cur c,
  is_space c = false -> In c (chars cur) \/ In c (chars s) ->
  exists line, In line (splitlines_aux after_cr cur s) /\ In c (chars line).
Proof.
  induction s as [|x s IH]; intros after_cr cur c Hc Hin; cbn [splitlines_aux].
  - destruct Hin as [Hin | []]. destruct cur as [|y cur]; [destruct Hin|].
    cbn [truthy]. eexists. split; [left; reflexivity | apply chars_rev, Hin].
  - assert (Hx : is_linebreak x = true -> x <> c).
    { intros Hb ->. apply linebreak_is_space in Hb. congruence. }
    destruct (after_cr && (code x =? 10)%N) eqn:E.
    { apply IH; [exact Hc|]. destruct Hin as [Hin | [-> | Hin]]; [tauto | | tauto].
      exfalso. apply andb_true_iff in E as [_ E]. apply N.eqb_eq in E.
      revert Hc. unfold is_space, in_range. rewrite E. discriminate. }
    destruct (is_linebreak x) eqn:B.
    + destruct Hin as [Hin | [-> | Hin]].
      * eexists. split; [left; reflexivity | apply chars_rev, Hin].
      * destruct (Hx eq_refl eq_refl).
      * destruct (IH (code x =? 13)%N "" c Hc (or_intror Hin)) as (line & Hl & Hcl).
        exists line. split; [right; exact Hl | exact Hcl].
    + apply IH; [exact Hc|]. destruct Hin as [Hin | [-> | Hin]].
      * left; right; exact Hin.
      * left; left; reflexivity.
      * right; exact Hin.
Qed.

Lemma lstrip_empty s : lstrip s = "" <-> forall c, In c (chars s) -> is_space c = true.
Proof.
  induction s as [|x s IH]; cbn [lstrip]; [split; [intros _ c [] | reflexivity]|].
  destruct (is_space x) eqn:E.
  - rewrite IH. split; [intros H c [<- | Hc]; auto | intros H c Hc; apply H; right; exact Hc].
  - split; [discriminate|]. intros H. rewrite (H x) in E by (left; reflexivity). discriminate.
Qed.

Lemma lstrip_head s : lstrip s = "" \/ exists c t, lstrip s = String c t /\ is_space c = false.
Proof.
  induction s as [|x s IH]; cbn [lstrip]; [left; reflexivity|].
  destruct (is_space x) eqn:E; [exact IH | right; eauto].
Qed.

Lemma rstrip_head c t : is_space c = false -> rstrip (String c t) <> "".
Proof. intros H. cbn [rstrip]. destruct (rstrip t); [rewrite H|]; discriminate. Qed.

Lemma strip_empty s : strip s = "" <-> forall c, In c (chars s) -> is_space c = true.
Proof.
  rewrite <- lstrip_empty. unfold strip.
  destruct (lstrip_head s) as [-> | (c & t & -> & Hc)]; [tauto|].
  split; [intros H; destruct (rstrip_head c t Hc H) | discriminate].
Qed.

Lemma stripped_lines_empty s : stripped_lines s = [] <-> strip s = "".
Proof.
  unfold stripped_lines, splitlines. rewrite strip_empty. split.
  - intros H c Hc. destruct (is_space c) eqn:E; [reflexivity|]. exfalso.
    destruct (splitlines_aux_keeps s false "" c E (or_intror Hc)) as (line & Hline & Hcl).
    assert (Hin : In (strip line) (map strip (List.filter (fun k => truthy (strip k))
                                              (splitlines_aux false "" s)))).
    { apply in_map, filter_In. split; [exact Hline|].
      destruct (truthy (strip line)) eqn:T; [reflexivity|].
      apply truthy_false in T. rewrite strip_empty in T. rewrite (T c Hcl) in E. discriminate. }
    rewrite H in Hin. destruct Hin.
  - intros H. destruct (List.filter _ _) as [|line lines] eqn:F; [reflexivity|]. exfalso.
    assert (Hin : In line (List.filter (fun k => truthy (strip k)) (splitlines_aux false "" s)))
      by (rewrite F; left; reflexivity).
    apply filter_In in Hin as [Hin T].
    assert (strip line = ""); [|rewrite H0 in T; discriminate].
    apply strip_empty. intros c Hc.
    destruct (splitlines_aux_chars s false "" c (ex_intro _ line (conj Hin Hc))) as [[] | Hs].
    exact (H c Hs).
Qed.

Lemma strip_strip_empty s : strip (strip s) = "" -> strip s = "".
Proof.
  intros H. rewrite strip_empty in H. unfold strip in *.
  destruct (lstrip_head s) as [-> | (c & t & E & Hc)]; [reflexivity|].
  rewrite E in *. cbn [rstrip] in *.
  assert (Hin : In c (chars (match rstrip t with
                             | "" => if is_space c then "" else String c ""
                             | String a s0 => String c (String a s0)
                             end))).
  { destruct (rstrip t); [rewrite Hc|]; left; reflexivity. }
  rewrite (H c Hin) in Hc. discriminate.
Qed.

(** X21: the query is empty exactly when the keywords hold nothing but
    white space. The route strips the keywords and refuses empty ones
    before it builds the query: for such keywords the query is not
    empty. *)
Theorem build_query_empty_iff
    keywords locations keyword_operator location_operator target_individuals strict_mode :
  (build_query keywords locations keyword_operator location_operator
     target_individuals strict_mode = "" <->
   strip keywords = "") /\
  (strip keywords <> "" ->
   build_query (strip keywords) locations keyword_operator location_operator
     target_individuals strict_mode <> "").
Proof.
  assert (H : forall keywords,
    build_query keywords locations keyword_operator location_operator
      target_individuals strict_mode = "" <-> strip keywords = "").
  { clear keywords. intros keywords.
    rewrite <- stripped_lines_empty. unfold build_query.
    destruct (stripped_lines keywords) as [|k ks]; [tauto|].
    cbn [truthy_list negb]. split; [|discriminate].
    destruct (target_individuals && strict_mode); [discriminate|].
    destruct target_individuals, ks; discriminate. }
  split; [apply H|]. intros Hne Hq. apply H, strip_strip_empty in Hq. exact (Hne Hq).
Qed.

Lemma occurs_in_refl s : occurs_in s s.
Proof.
  exists "", "". change ("" +:+ s +:+ "") with (s +:+ "").
  induction s as [|c s IH]; [reflexivity|].
  change (String c s = String c (s +:+ "")). rewrite <- IH. reflexivity.
Qed.

Lemma occurs_in_join sep l x : In x l -> occurs_in x (join sep l).
Proof.
  induction l as [|y l IH]; [intros []|]. intros Hin.
  destruct l as [|z l].
  - destruct Hin as [-> | []]. apply occurs_in_refl.
  - change (join sep (y :: z :: l)) with (y +:+ sep +:+ join sep (z :: l)).
    destruct Hin as [-> | Hin].
    + apply occurs_in_app_l, occurs_in_refl.
    + apply occurs_in_app_r, occurs_in_app_r, IH, Hin.
Qed.

(** X22: every keyword line and every location line that is not blank
    stands in the query, stripped and between double quotes. *)
Theorem build_query_quotes_every_line
    keywords locations keyword_operator location_operator target_individuals strict_mode line :
  strip keywords <> "" ->
  In line (stripped_lines keywords) \/ In line (stripped_lines locations) ->
  occurs_in (quoted line)
    (build_query keywords locations keyword_operator location_operator
       target_individuals strict_mode).
Proof.
  intros Hk Hline. unfold build_query.
  destruct (stripped_lines keywords) as [|k ks] eqn:K.
  { apply stripped_lines_empty in K. contradiction. }
  cbn [truthy_list negb].
  destruct Hline as [Hline | Hline].
  - apply occurs_in_app_l.
    assert (Hq : occurs_in (quoted line)
              match k :: ks with
              | [k0] => quoted k0
              | _ => "(" +:+ join (operator_of keyword_operator) (map quoted (k :: ks)) +:+ ")"
              end).
    { destruct ks as [|k' ks].
      - destruct Hline as [-> | []]. apply occurs_in_refl.
      - apply occurs_in_app_r, occurs_in_app_l, occurs_in_join, in_map, Hline. }
    destruct (target_individuals && strict_mode);
      [apply occurs_in_app_r, occurs_in_app_l, Hq|].
    destruct target_individuals; [apply occurs_in_app_l|]; exact Hq.
  - apply occurs_in_app_r.
    destruct (stripped_lines locations) as [|l ls]; [destruct Hline|].
    cbn [truthy_list]. apply occurs_in_app_r, occurs_in_app_l, occurs_in_join, in_map, Hline.
Qed.

Lemma build_query_quotes_every_line_witness :
  occurs_in (quoted "IoT")
    (build_query ("RFID engineer" +:+ String "010" "  IoT  ") "Berlin" "AND" "OR" true false).
Proof.
  apply build_query_quotes_every_line; [vm_compute; discriminate|].
  left. vm_compute. tauto.
Defined.

End Queries.

(** ** The API keys *)

Section KeyRotation.
Import Text Config Notions.

Lemma mark_keeps_default self key :
  default_api_key (mark_quota_exceeded self key) = default_api_key self /\
  default_cse_id (mark_quota_exceeded self key) = default_cse_id self.
Proof.
  unfold mark_quota_exceeded. destruct (List.find _ _) as [[[|i] k]|]; split; reflexivity.
Qed.

(** X23: a default key is never marked: [mark_quota_exceeded] writes to a
    dictionary that [get_api_keys] has just built, and the next call builds
    it anew. Whatever keys are marked, the key handed out stays the default
    key. *)
Theorem default_key_is_never_exceeded self marks :
  has_default self = true ->
  get_available_key (foldl mark_quota_exceeded self marks)
  = Some (KeyConfig (default_api_key self) (default_cse_id self) false 0).
Proof.
  revert self. induction marks as [|key marks IH]; intros self H; cbn [foldl].
  - unfold get_available_key, get_api_keys. unfold has_default in H. rewrite H. reflexivity.
  - destruct (mark_keeps_default self key) as [Ha Hc].
    rewrite IH; [rewrite Ha, Hc; reflexivity|].
    unfold has_default. rewrite Ha, Hc. exact H.
Qed.

Lemma default_key_is_never_exceeded_witness :
  get_available_key
    (foldl mark_quota_exceeded
       (Config "KEY0" "CX0" [KeyConfig "KEY1" "CX1" false 0]) ["KEY0"; "KEY0"; "KEY1"])
  = Some (KeyConfig "KEY0" "CX0" false 0).
Proof.
  apply (default_key_is_never_exceeded
           (Config "KEY0" "CX0" [KeyConfig "KEY1" "CX1" false 0]) ["KEY0"; "KEY0"; "KEY1"]).
  reflexivity.
Defined.

Lemma find_imap (f : key_config -> bool) keys : forall g : nat -> place,
  snd <$> List.find (fun pk : place * key_config => f pk.2) (imap (fun i k => (g i, k)) keys)
  = List.find f keys.
Proof.
  induction keys as [|k keys IH]; intros g; [reflexivity|].
  cbn [imap List.find snd]. destruct (f k); [reflexivity|]. apply (IH (g ∘ S)).
Qed.

Lemma find_imap_first (f : key_config -> bool) before k after : forall g : nat -> place,
  (forall k', In k' before -> f k' = false) -> f k = true ->
  List.find (fun pk : place * key_config => f pk.2)
            (imap (fun i k => (g i, k)) (before ++ k :: after))
  = Some (g (length before), k).
Proof.
  induction before as [|b before IH]; intros g Hb Hk; cbn [app imap List.find snd length].
  - rewrite Hk. reflexivity.
  - rewrite (Hb b) by (left; reflexivity).
    apply (IH (g ∘ S)); [|exact Hk]. intros k' Hin. apply Hb. right. exact Hin.
Qed.

Lemma find_exceeded before rest :
  (forall k', In k' before -> quota_exceeded k' = true) ->
  List.find available (before ++ rest) = List.find available rest.
Proof.
  intros H. induction before as [|b before IH]; [reflexivity|].
  cbn [app List.find]. unfold available at 1. rewrite (H b) by (left; reflexivity).
  apply IH. intros k' Hin. apply H. right. exact Hin.
Qed.

(** X24: without a default key, marking the key that is handed out moves
    on to the next one: the entry is marked in the list the object keeps,
    and the key handed out next is the first one after it that is not
    exceeded. The first entry with that [api_key] has to be the entry
    itself. *)
Theorem mark_quota_exceeded_moves_on self before k after :
  has_default self = false ->
  multiple_keys self = before ++ k :: after ->
  (forall k', In k' before -> quota_exceeded k' = true /\ api_key k' <> api_key k) ->
  quota_exceeded k = false ->
  get_available_key self = Some k /\
  multiple_keys (mark_quota_exceeded self (api_key k)) = before ++ exceeded k :: after /\
  get_available_key (mark_quota_exceeded self (api_key k)) = List.find available after.
Proof.
  intros Hd Hkeys Hbefore Hk.
  assert (Hget : forall self', has_default self' = false ->
                 get_available_key self' = List.find available (multiple_keys self')).
  { intros self' Hd'. unfold get_available_key, get_api_keys. unfold has_default in Hd'.
    rewrite Hd'. cbn [app]. apply (find_imap available). }
  assert (Hmark : mark_quota_exceeded self (api_key k)
                  = Config (default_api_key self) (default_cse_id self)
                           (before ++ exceeded k :: after)).
  { unfold mark_quota_exceeded, get_api_keys. unfold has_default in Hd. rewrite Hd, Hkeys.
    cbn [app].
    rewrite (find_imap_first (fun k' => String.eqb (api_key k') (api_key k)) before k after Kept).
    - f_equal. replace (length before) with (length before + 0) by lia.
      rewrite alter_app_r. reflexivity.
    - intros k' Hin. apply String.eqb_neq. apply (Hbefore k' Hin).
    - apply String.eqb_refl. }
  split; [|split].
  - rewrite (Hget self Hd), Hkeys, find_exceeded by (intros k' Hin; apply (Hbefore k' Hin)).
    cbn [List.find]. unfold available at 1. rewrite Hk. reflexivity.
  - rewrite Hmark. reflexivity.
  - rewrite Hget by (rewrite Hmark; exact Hd). rewrite Hmark. cbn [multiple_keys].
    rewrite find_exceeded by (intros k' Hin; apply (Hbefore k' Hin)).
    reflexivity.
Qed.

Lemma mark_quota_exceeded_moves_on_witness :
  get_available_key (Config "" "" [KeyConfig "KEY1" "CX1" true 0; KeyConfig "KEY2" "CX2" false 0;
                                    KeyConfig "KEY3" "CX3" false 0])
  = Some (KeyConfig "KEY2" "CX2" false 0) /\
  multiple_keys
    (mark_quota_exceeded
       (Config "" "" [KeyConfig "KEY1" "CX1" true 0; KeyConfig "KEY2" "CX2" false 0;
                      KeyConfig "KEY3" "CX3" false 0]) "KEY2")
  = [KeyConfig "KEY1" "CX1" true 0] ++ exceeded (KeyConfig "KEY2" "CX2" false 0)
      :: [KeyConfig "KEY3" "CX3" false 0] /\
  get_available_key
    (mark_quota_exceeded
       (Config "" "" [KeyConfig "KEY1" "CX1" true 0; KeyConfig "KEY2" "CX2" false 0;
                      KeyConfig "KEY3" "CX3" false 0]) "KEY2")
  = List.find available [KeyConfig "KEY3" "CX3" false 0].
Proof.
  apply (mark_quota_exceeded_moves_on
           (Config "" "" [KeyConfig "KEY1" "CX1" true 0; KeyConfig "KEY2" "CX2" false 0;
                          KeyConfig "KEY3" "CX3" false 0])
           [KeyConfig "KEY1" "CX1" true 0] (KeyConfig "KEY2" "CX2" false 0)
           [KeyConfig "KEY3" "CX3" false 0]).
  - reflexivity.
  - reflexivity.
  - intros k' [<- | []]. split; [reflexivity | discriminate].
  - reflexivity.
Defined.

(** X25: two entries with the same [api_key]: once the first is
    exceeded, marking the key writes to the first again, and the second is
    handed out for ever. *)
Theorem duplicate_key_is_never_marked self before k0 between k after :
  has_default self = false ->
  multiple_keys self = before ++ k0 :: between ++ k :: after ->
  (forall k', In k' before -> quota_exceeded k' = true /\ api_key k' <> api_key k) ->
  api_key k0 = api_key k -> quota_exceeded k0 = true ->
  (forall k', In k' between -> quota_exceeded k' = true) ->
  quota_exceeded k = false ->
  mark_quota_exceeded self (api_key k) = self /\
  forall n, get_available_key (Nat.iter n (fun c => mark_quota_exceeded c (api_key k)) self)
            = Some k.
Proof.
  intros Hd Hkeys Hbefore Heq H0 Hbetween Hk.
  assert (Hmark : mark_quota_exceeded self (api_key k) = self).
  { unfold mark_quota_exceeded, get_api_keys. unfold has_default in Hd. rewrite Hd, Hkeys.
    cbn [app].
    rewrite (find_imap_first (fun k' => String.eqb (api_key k') (api_key k))
               before k0 (between ++ k :: after) Kept).
    - replace (length before) with (length before + 0) by lia.
      rewrite alter_app_r. cbn [alter list_alter].
      replace (exceeded k0) with k0
        by (destruct k0 as [a c q u]; cbn in H0; subst q; reflexivity).
      rewrite <- Hkeys. destruct self; reflexivity.
    - intros k' Hin. apply String.eqb_neq. apply (Hbefore k' Hin).
    - apply String.eqb_eq. exact Heq. }
  split; [exact Hmark|]. intros n.
  assert (Hiter : Nat.iter n (fun c => mark_quota_exceeded c (api_key k)) self = self).
  { induction n as [|n IH]; [reflexivity|]. rewrite Nat.iter_succ, IH. exact Hmark. }
  rewrite Hiter. unfold get_available_key, get_api_keys. unfold has_default in Hd.
  rewrite Hd. cbn [app]. rewrite (find_imap available), Hkeys.
  rewrite find_exceeded by (intros k' Hin; apply (Hbefore k' Hin)).
  cbn [List.find]. unfold available at 1. rewrite H0. cbn [negb].
  rewrite find_exceeded by exact Hbetween.
  cbn [List.find]. unfold available. rewrite Hk. reflexivity.
Qed.

Lemma duplicate_key_is_never_marked_witness :
  mark_quota_exceeded
    (Config "" "" [KeyConfig "KEY1" "CX1" true 0; KeyConfig "KEY1" "CX2" false 0]) "KEY1"
  = Config "" "" [KeyConfig "KEY1" "CX1" true 0; KeyConfig "KEY1" "CX2" false 0] /\
  forall n,
    get_available_key
      (Nat.iter n (fun c => mark_quota_exceeded c "KEY1")
         (Config "" "" [KeyConfig "KEY1" "CX1" true 0; KeyConfig "KEY1" "CX2" false 0]))
    = Some (KeyConfig "KEY1" "CX2" false 0).
Proof.
  apply (duplicate_key_is_never_marked
           (Config "" "" [KeyConfig "KEY1" "CX1" true 0; KeyConfig "KEY1" "CX2" false 0])
           [] (KeyConfig "KEY1" "CX1" true 0) [] (KeyConfig "KEY1" "CX2" false 0) []).
  - reflexivity.
  - reflexivity.
  - intros k' [].
  - reflexivity.
  - reflexivity.
  - intros k' [].
  - reflexivity.
Defined.

End KeyRotation.

(** ** The text of the API keys *)

Section KeyParsing.
Import Text Config KeywordValidator Notions.

Lemma append_nil_r s : s +:+ "" = s.
Proof.
  induction s as [|c s IH]; [reflexivity|].
  change (String c (s +:+ "") = String c s). rewrite IH. reflexivity.
Qed.

Lemma rev_app_rev_app p : forall cur acc,
  String.rev_app (String.rev_app p cur) acc = String.rev_app cur (p +:+ acc).
Proof.
  induction p as [|a p IH]; intros cur acc; [reflexivity|].
  cbn [String.rev_app]. rewrite IH. reflexivity.
Qed.

Lemma rev_rev_app p : String.rev (String.rev_app p "") = p.
Proof. unfold String.rev. rewrite rev_app_rev_app. cbn [String.rev_app]. apply append_nil_r. Qed.

Lemma split_on_part sep p : forall cur,
  ~ In sep (chars p) ->
  split_on sep cur p = [String.rev (String.rev_app p cur)] /\
  forall rest, split_on sep cur (p +:+ String sep rest)
               = String.rev (String.rev_app p cur) :: split_on sep "" rest.
Proof.
  induction p as [|a p IH]; intros cur Hp.
  - split; [reflexivity|]. intros rest.
    change ("" +:+ String sep rest) with (String sep rest).
    cbn [split_on]. rewrite Ascii.eqb_refl. reflexivity.
  - assert (Ha : Ascii.eqb a sep = false).
    { apply Ascii.eqb_neq. intros ->. apply Hp. left. reflexivity. }
    destruct (IH (String a cur)) as [H1 H2]; [intros H; apply Hp; right; exact H|].
    split.
    + cbn [split_on]. rewrite Ha. exact H1.
    + intros rest. change (String a p +:+ String sep rest) with (String a (p +:+ String sep rest)).
      cbn [split_on]. rewrite Ha. apply H2.
Qed.

Lemma split_char_join sep parts :
  parts <> [] -> (forall p, In p parts -> ~ In sep (chars p)) ->
  split_char sep (join (String sep "") parts) = parts.
Proof.
  unfold split_char. induction parts as [|x parts IH]; intros Hne Hparts; [congruence|].
  destruct parts as [|y parts].
  - cbn [join]. destruct (split_on_part sep x "") as [H _]; [apply Hparts; left; reflexivity|].
    rewrite H, rev_rev_app. reflexivity.
  - change (join (String sep "") (x :: y :: parts))
      with (x +:+ String sep (join (String sep "") (y :: parts))).
    destruct (split_on_part sep x "") as [_ H]; [apply Hparts; left; reflexivity|].
    rewrite H, rev_rev_app, IH; [reflexivity | discriminate|].
    intros p Hp. apply Hparts. right. exact Hp.
Qed.

Lemma partition_at_first sep a c :
  ~ In sep (chars a) -> partition_at sep (a +:+ String sep c) = Some (a, c).
Proof.
  induction a as [|x a IH]; intros Ha.
  - change ("" +:+ String sep c) with (String sep c). cbn [partition_at].
    rewrite Ascii.eqb_refl. reflexivity.
  - change (String x a +:+ String sep c) with (String x (a +:+ String sep c)).
    cbn [partition_at].
    assert (Hx : Ascii.eqb x sep = false).
    { apply Ascii.eqb_neq. intros ->. apply Ha. left. reflexivity. }
    rewrite Hx, IH; [reflexivity|]. intros H. apply Ha. right. exact H.
Qed.

Lemma lstrip_length s : String.length (lstrip s) <= String.length s.
Proof.
  induction s as [|c s IH]; [reflexivity|]. cbn [lstrip].
  destruct (is_space c); cbn [String.length]; lia.
Qed.

Lemma rstrip_length s : String.length (rstrip s) <= String.length s.
Proof.
  induction s as [|c s IH]; [reflexivity|]. cbn [rstrip].
  destruct (rstrip s); [destruct (is_space c)|]; cbn [String.length] in *; lia.
Qed.

(** A text [strip] leaves alone starts with no white space, and [rstrip]
    leaves it alone. *)
Lemma stripped_head c s : strip (String c s) = String c s -> is_space c = false.
Proof.
  unfold strip. cbn [lstrip]. destruct (is_space c); [|reflexivity]. intros H.
  pose proof (rstrip_length (lstrip s)) as H1. pose proof (lstrip_length s) as H2.
  rewrite H in H1. cbn [String.length] in H1. lia.
Qed.

Lemma stripped_rstrip s : strip s = s -> rstrip s = s.
Proof.
  destruct s as [|c s]; [reflexivity|]. intros H.
  pose proof (stripped_head c s H) as Hc. unfold strip in H. cbn [lstrip] in H.
  rewrite Hc in H. exact H.
Qed.

Lemma rstrip_app p s : s <> "" -> rstrip s = s -> rstrip (p +:+ s) = p +:+ s.
Proof.
  intros Hs H. induction p as [|c p IH]; [exact H|].
  change (String c p +:+ s) with (String c (p +:+ s)). cbn [rstrip]. rewrite IH.
  destruct (p +:+ s) eqn:E; [|reflexivity].
  destruct p; [|discriminate]. destruct Hs. exact E.
Qed.

Lemma stripped_pair a c :
  strip a = a -> strip c = c -> strip (a +:+ String ":" c) = a +:+ String ":" c.
Proof.
  intros Ha Hc. unfold strip.
  assert (Hl : lstrip (a +:+ String ":" c) = a +:+ String ":" c).
  { destruct a as [|x a]; [reflexivity|].
    change (String x a +:+ String ":" c) with (String x (a +:+ String ":" c)).
    cbn [lstrip]. rewrite (stripped_head x a Ha). reflexivity. }
  rewrite Hl. apply rstrip_app; [discriminate|].
  destruct c as [|y c]; [reflexivity|].
  change (String ":" (String y c)) with (":" +:+ String y c).
  apply rstrip_app; [discriminate | apply stripped_rstrip; exact Hc].
Qed.

(** X26: [_parse_multiple_keys] reads back a list of keys written as
    [key:id,key:id,...]: each key comes back with its id, not exceeded and
    unused, in the order of the text. The keys and ids have no white space
    around them and no comma; the keys have no colon (the ids may). *)
Theorem parse_multiple_keys_round_trip keys :
  (forall k c, In (k, c) keys ->
     strip k = k /\ strip c = c /\
     ~ In ","%char (chars k) /\ ~ In ","%char (chars c) /\ ~ In ":"%char (chars k)) ->
  parse_multiple_keys (keys_text keys)
  = map (fun kc : string * string => KeyConfig kc.1 kc.2 false 0) keys.
Proof.
  intros H. unfold parse_multiple_keys, keys_text.
  destruct keys as [|[k0 c0] keys']; [reflexivity|].
  set (keys := (k0, c0) :: keys') in *.
  set (parts := map (fun kc : string * string => kc.1 +:+ ":" +:+ kc.2) keys).
  assert (Htruthy : truthy (join "," parts) = true).
  { subst parts keys. cbn [map fst snd]. destruct k0; destruct (map _ keys'); reflexivity. }
  rewrite Htruthy. cbn [negb].
  rewrite split_char_join.
  - subst parts. clearbody keys. clear Htruthy.
    induction keys as [|[k c] keys IH]; [reflexivity|].
    cbn [map omap list_omap fst snd].
    destruct (H k c) as (Hk & Hc & _ & _ & Hcolon); [left; reflexivity|].
    change (k +:+ ":" +:+ c) with (k +:+ String ":" c).
    rewrite stripped_pair, partition_at_first, Hk, Hc by assumption.
    rewrite IH; [reflexivity|]. intros k' c' Hin. apply H. right. exact Hin.
  - subst parts keys. discriminate.
  - intros p Hp. subst parts. apply in_map_iff in Hp as ([k c] & <- & Hin).
    destruct (H k c Hin) as (_ & _ & Hk & Hc & _). cbn [fst snd].
    change (chars (k +:+ ":" +:+ c)) with (list_ascii_of_string (k +:+ String ":" c)).
    intros Hcomma.
    assert (Happ : forall a b, list_ascii_of_string (a +:+ b)
                               = list_ascii_of_string a ++ list_ascii_of_string b).
    { intros a b. induction a as [|x a IHa]; [reflexivity|]. simpl. f_equal. exact IHa. }
    rewrite Happ in Hcomma. apply in_app_iff in Hcomma as [Hin' | [Hin' | Hin']];
      [exact (Hk Hin') | discriminate | exact (Hc Hin')].
Qed.

Lemma parse_multiple_keys_round_trip_witness :
  parse_multiple_keys (keys_text [("AIzaKEY1", "cx:one"); ("AIzaKEY2", "")])
  = map (fun kc : string * string => KeyConfig kc.1 kc.2 false 0)
        [("AIzaKEY1", "cx:one"); ("AIzaKEY2", "")].
Proof.
  apply parse_multiple_keys_round_trip.
  intros k c [[= <- <-] | [[= <- <-] | []]]; vm_compute; intuition discriminate.
Defined.

End KeyParsing.

(** ** Scraping types *)

Section ScrapingTypes.
Import ScrapsterConfig.

Lemma SCRAPING_CONFIGS_entries key config :
  SCRAPING_CONFIGS !! key = Some config ->
  config = profiles \/ config = companies \/ config = products \/ config = general.
Proof.
  unfold SCRAPING_CONFIGS. rewrite !lookup_insert_Some, lookup_empty.
  intros H. repeat (destruct H as [[_ <-] | [_ H]]; [tauto|]). discriminate.
Qed.

Lemma lookup_general : SCRAPING_CONFIGS !! "general" = Some general.
Proof.
  unfold SCRAPING_CONFIGS. rewrite !lookup_insert_ne by discriminate. apply lookup_insert_eq.
Qed.

(** X27: [get_config] answers for every scraping type: with the entry of
    the type when the table has one, with the entry [general] for any
    other text. So, whatever the type, [google] is among the sources and
    there are fields to extract. *)
Theorem get_config_falls_back scrape_type :
  get_config scrape_type
  = Some (default general (SCRAPING_CONFIGS !! scrape_type)) /\
  exists srcs fields,
    get_sources scrape_type = Some srcs /\ In "google" srcs /\
    get_extract_fields scrape_type = Some fields /\ fields <> [].
Proof.
  assert (H : get_config scrape_type
              = Some (default general (SCRAPING_CONFIGS !! scrape_type))).
  { unfold get_config. rewrite lookup_general. reflexivity. }
  split; [exact H|]. unfold get_sources, get_extract_fields. rewrite H.
  cbn [fmap option_fmap option_map]. eexists. eexists.
  split; [reflexivity|]. split; [|split; [reflexivity|]].
  - destruct (SCRAPING_CONFIGS !! scrape_type) as [config|] eqn:E; [|cbn; tauto].
    apply SCRAPING_CONFIGS_entries in E as [-> | [-> | [-> | ->]]]; cbn; tauto.
  - destruct (SCRAPING_CONFIGS !! scrape_type) as [config|] eqn:E; [|discriminate].
    apply SCRAPING_CONFIGS_entries in E as [-> | [-> | [-> | ->]]]; discriminate.
Qed.

End ScrapingTypes.

(** ** The direct scraper *)

Section DirectScraping.
Import Text App KeywordValidator Route DirectScraper Notions.

Variable search_linkedin : string -> string -> Z -> list hit.

Variable search_github : string -> Z -> list hit.

Variable search_google_direct : string -> string -> Z -> list hit.

Variable extract_profile_data : string -> string -> option profile_data.

Variable validator_available : bool.

Lemma slice_to_nil {A} n : slice_to n (@nil A) = [].
Proof. unfold slice_to. destruct (0 <=? n)%Z; apply take_nil. Qed.

(** X28: [scrape_profiles] searches for the sources "linkedin" and "all"
    only: for any other source (the form offers "github" and "google") no
    search is run and no profile is returned. *)
Theorem scrape_profiles_other_source keywords locations max_results extract_emails source :
  source <> "linkedin" -> source <> "all" ->
  scrape_profiles search_linkedin search_github search_google_direct extract_profile_data
    validator_available keywords locations max_results extract_emails source = [].
Proof.
  intros H1 H2. unfold scrape_profiles, unique_profiles, found.
  apply String.eqb_neq in H1, H2. rewrite H1, H2. cbn [orb app unique_loop].
  rewrite slice_to_nil. reflexivity.
Qed.

Lemma unique_loop_spec all_profiles : forall seen_urls,
  sublist (unique_loop seen_urls all_profiles) all_profiles /\
  NoDup (map hit_url (unique_loop seen_urls all_profiles)) /\
  (forall p, In p (unique_loop seen_urls all_profiles) ->
             hit_url p <> "" /\ hit_url p ∉ seen_urls) /\
  (forall p, In p all_profiles -> hit_url p <> "" -> hit_url p ∉ seen_urls ->
             In (hit_url p) (map hit_url (unique_loop seen_urls all_profiles))).
Proof.
  induction all_profiles as [|q rest IH]; intros seen_urls.
  - cbn [unique_loop map]. split; [constructor | split; [constructor | split; intros p []]].
  - cbn [unique_loop].
    destruct (truthy (hit_url q)) eqn:T; cbn [andb];
      [destruct (bool_decide (hit_url q ∈ seen_urls)) eqn:D; cbn [negb]|].
    + apply bool_decide_eq_true in D.
      destruct (IH seen_urls) as (H1 & H2 & H3 & H4). repeat split.
      * apply sublist_cons, H1.
      * exact H2.
      * apply H3; assumption.
      * apply H3; assumption.
      * intros p [<- | Hp] Hne Hnew; [contradiction | apply H4; assumption].
    + apply bool_decide_eq_false in D.
      destruct (IH (seen_urls ∪ {[hit_url q]})) as (H1 & H2 & H3 & H4). repeat split.
      * apply sublist_skip, H1.
      * cbn [map]. constructor; [|exact H2].
        intros Hin. apply list_elem_of_In, in_map_iff in Hin as (p & Hp & Hin).
        destruct (H3 p Hin) as [_ Hnew]. apply Hnew. rewrite Hp.
        apply elem_of_union. right. apply elem_of_singleton. reflexivity.
      * destruct H as [<- | H]; [apply truthy_true, T | apply H3, H].
      * destruct H as [<- | H]; [exact D|].
        destruct (H3 p H) as [_ Hnew]. intros Hs. apply Hnew, elem_of_union. left. exact Hs.
      * intros p [<- | Hp] Hne Hnew; [left; reflexivity|].
        destruct (String.eqb_spec (hit_url p) (hit_url q)) as [E | E];
          [left; symmetry; exact E | right].
        apply H4; [exact Hp | exact Hne|].
        intros Hs. apply elem_of_union in Hs as [Hs | Hs]; [contradiction|].
        apply elem_of_singleton in Hs. contradiction.
    + destruct (IH seen_urls) as (H1 & H2 & H3 & H4). repeat split.
      * apply sublist_cons, H1.
      * exact H2.
      * apply H3; assumption.
      * apply H3; assumption.
      * intros p [<- | Hp] Hne Hnew; [|apply H4; assumption].
        apply truthy_true in Hne. congruence.
Qed.

Lemma omap_length_le {A B} (f : A -> option B) l : length (omap f l) <= length l.
Proof.
  induction l as [|x l IH]; [reflexivity|]. cbn [omap list_omap length].
  destruct (f x); cbn [length]; fold (omap f l); lia.
Qed.

Lemma slice_to_take {A} n (l : list A) : exists k, slice_to n l = take k l.
Proof. unfold slice_to. destruct (0 <=? n)%Z; eauto. Qed.

Lemma slice_to_length {A} n (l : list A) : (0 <= n)%Z -> (Z.of_nat (length (slice_to n l)) <= n)%Z.
Proof.
  intros H. unfold slice_to. rewrite (proj2 (Z.leb_le 0 n) H), length_take. lia.
Qed.

(** X29: the profiles [scrape_profiles] visits: hits of the searches, in
    their order, each with a URL, no URL twice, and no more than
    [max_results] of them when that is not negative; so no more rows are
    returned. *)
Theorem unique_profiles_spec keywords locations max_results extract_emails source :
  let visited := unique_profiles search_linkedin search_github search_google_direct
                   keywords locations max_results source in
  sublist visited
    (found search_linkedin search_github search_google_direct
       keywords locations max_results source) /\
  NoDup (map hit_url visited) /\
  (forall p, In p visited -> hit_url p <> "") /\
  length (scrape_profiles search_linkedin search_github search_google_direct
            extract_profile_data validator_available
            keywords locations max_results extract_emails source) <= length visited /\
  ((0 <= max_results)%Z -> (Z.of_nat (length visited) <= max_results)%Z).
Proof.
  cbv zeta. unfold scrape_profiles, unique_profiles.
  set (all_profiles := found _ _ _ _ _ _ _).
  destruct (unique_loop_spec all_profiles ∅) as (H1 & H2 & H3 & _).
  destruct (slice_to_take max_results (unique_loop ∅ all_profiles)) as [k Hk].
  split; [|split; [|split; [|split]]].
  - rewrite Hk. etrans; [apply sublist_take | exact H1].
  - rewrite Hk, <- firstn_map. eapply sublist_NoDup; [exact H2 | apply sublist_take].
  - intros p Hp. rewrite Hk in Hp. apply H3.
    apply list_elem_of_In. apply list_elem_of_In in Hp.
    exact (elem_of_sublist _ _ _ Hp (sublist_take _ _)).
  - apply omap_length_le.
  - apply slice_to_length.
Qed.

Lemma any_contains_iff text terms :
  any (fun term => contains term text) terms = true <->
  exists term, In term terms /\ occurs_in term text.
Proof.
  unfold any. rewrite existsb_exists.
  split; intros [t [Hin H]]; exists t; split; try assumption; apply contains_spec; exact H.
Qed.

Lemma email_passes_spec (d : profile_data) :
  email_passes true d = true ->
  email d <> "" /\ is_generic_email (email d) = false /\
  name d <> "" /\ name d <> "Unknown" /\
  (name_tokens (name d) = [] \/
   exists part, In part (name_tokens (name d)) /\ occurs_in part (lower (email d))).
Proof.
  unfold email_passes. cbn [andb].
  destruct (truthy (email d)) eqn:T; [|discriminate].
  change (any (fun pattern => contains pattern (lower (email d))) GENERIC_EMAIL_PATTERNS)
    with (is_generic_email (email d)).
  destruct (is_generic_email (email d)); [discriminate|].
  destruct (truthy (name d)) eqn:N; [|discriminate].
  destruct (String.eqb_spec (name d) "Unknown") as [|U]; [discriminate|].
  cbn [andb negb]. rewrite andb_true_r.
  apply truthy_true in T, N. intros H. repeat split; try assumption.
  destruct (name_tokens (name d)) as [|p ps]; [left; reflexivity | right].
  cbn [truthy_list andb] in H. apply negb_true_iff, negb_false_iff in H.
  apply any_contains_iff, H.
Qed.

(** X30: a row [scrape_profiles] returns with email extraction on has an
    email, one that is not generic; its name is neither empty nor
    "Unknown", and a part of the name longer than two characters (if
    there is one) occurs in the email. With the validator at hand the row
    is a valid profile for the keywords and carries its score, reason and
    confidence; without it the row carries none. *)
Theorem scrape_profiles_rows keywords locations max_results extract_emails source row :
  In row (scrape_profiles search_linkedin search_github search_google_direct
            extract_profile_data validator_available
            keywords locations max_results extract_emails source) ->
  let d := data row in
  (extract_emails = true ->
   email d <> "" /\ is_generic_email (email d) = false /\
   name d <> "" /\ name d <> "Unknown" /\
   (name_tokens (name d) = [] \/
    exists part, In part (name_tokens (name d)) /\ occurs_in part (lower (email d)))) /\
  (validator_available = true ->
   let validation :=
     validate_profile (new (stripped_lines keywords)) (name d)
       (snippet d +:+ " " +:+ job_title d) (title d) (job_title d) (company d)
       (profile_url d) in
   is_valid validation = true /\
   relevance row = Some (score validation, reason validation, confidence validation)) /\
  (validator_available = false -> relevance row = None).
Proof.
  unfold scrape_profiles. intros H.
  apply list_elem_of_In, list_elem_of_omap in H as (p & _ & H).
  unfold detailed_result in H.
  destruct (extract_profile_data (hit_url p) (hit_name p)) as [d|]; [|discriminate].
  cbn [mbind option_bind] in H. cbv zeta. split; [|split].
  - intros ->.
    destruct (match (if validator_available then _ else _) with Some _ => _ | None => _ end)
      as [relevance|]; [|discriminate].
    cbn [mbind option_bind] in H.
    destruct (email_passes true d) eqn:E; [|discriminate]. injection H as <-.
    exact (email_passes_spec _ E).
  - intros ->.
    destruct (is_valid _) eqn:V; [|discriminate]. cbn [mbind option_bind] in H.
    destruct (email_passes extract_emails d); [|discriminate]. injection H as <-.
    cbn [data relevance]. split; [exact V | reflexivity].
  - intros ->. cbn [mbind option_bind] in H.
    destruct (email_passes extract_emails d); [|discriminate]. injection H as <-.
    reflexivity.
Qed.

Lemma mapM_to_dict_None fieldnames rows :
  mapM (dict_to_list fieldnames) (map to_dict rows) = None <->
  exists row, In row rows /\ dict_to_list fieldnames (to_dict row) = None.
Proof.
  induction rows as [|r rows IH]; cbn [map mapM].
  - split; [discriminate | intros (row & [] & _)].
  - destruct (dict_to_list fieldnames (to_dict r)) as [cells|] eqn:E; cbn [mbind option_bind].
    + destruct (mapM (dict_to_list fieldnames) (map to_dict rows)) as [rest|] eqn:M;
        cbn [mbind option_bind mret option_ret].
      * split; [discriminate|]. intros (row & [<- | Hin] & Hrow); [congruence|].
        assert (Hnone : Some rest = None) by (apply IH; eauto). discriminate.
      * split; [intros _ | reflexivity].
        destruct (proj1 IH eq_refl) as (row & Hin & Hrow). exists row. split; [right|]; assumption.
    + split; [intros _ | reflexivity]. exists r. split; [left; reflexivity | exact E].
Qed.

(** X7: the CSV export of the direct scraper: [export_results] lists
    eleven field names, a validated row carries the key [confidence]
    besides, and [csv.DictWriter] raises on it. So with the validator at
    hand the export raises as soon as there is a row; without it the export
    gets through. *)
Theorem direct_csv_export_raises keywords locations max_results extract_emails source :
  let rows := scrape_profiles search_linkedin search_github search_google_direct
                extract_profile_data validator_available
                keywords locations max_results extract_emails source in
  (validator_available = true ->
   (write_csv EXPORT_FIELDNAMES (map to_dict rows) = None <-> rows <> [])) /\
  (validator_available = false ->
   is_Some (write_csv EXPORT_FIELDNAMES (map to_dict rows))).
Proof.
  cbv zeta.
  set (rows := scrape_profiles _ _ _ _ _ _ _ _ _ _).
  assert (Hrel : forall row, In row rows ->
            (validator_available = true -> exists x, relevance row = Some x) /\
            (validator_available = false -> relevance row = None)).
  { intros row Hin. subst rows. unfold scrape_profiles in Hin.
    apply list_elem_of_In, list_elem_of_omap in Hin as (p & _ & H).
    unfold detailed_result in H.
    destruct (extract_profile_data (hit_url p) (hit_name p)) as [d|]; [|discriminate].
    cbn [mbind option_bind] in H. split; intros ->.
    - destruct (is_valid _); [|discriminate]. cbn [mbind option_bind] in H.
      destruct (email_passes extract_emails d); [|discriminate]. injection H as <-.
      cbn [relevance]. eauto.
    - cbn [mbind option_bind] in H.
      destruct (email_passes extract_emails d); [|discriminate]. injection H as <-.
      reflexivity. }
  clearbody rows. unfold write_csv. split; intros Hv.
  - destruct (mapM _ _) as [cells|] eqn:M; cbn [mbind option_bind].
    + split; [discriminate|]. intros Hne. exfalso.
      destruct rows as [|row rows']; [congruence|].
      assert (Hnone : mapM (dict_to_list EXPORT_FIELDNAMES) (map to_dict (row :: rows')) = None).
      { apply mapM_to_dict_None. exists row. split; [left; reflexivity|].
        destruct (Hrel row) as [[[[s r] c] Hx] _]; [left; reflexivity | exact Hv|].
        unfold dict_to_list, to_dict. rewrite Hx. reflexivity. }
      congruence.
    + split; [|reflexivity]. intros _ ->. discriminate.
  - destruct (mapM _ _) as [cells|] eqn:M; cbn [mbind option_bind]; [eauto|].
    apply mapM_to_dict_None in M as (row & Hin & Hrow). exfalso.
    destruct (Hrel row Hin) as [_ Hnone]. specialize (Hnone Hv).
    unfold dict_to_list, to_dict in Hrow. rewrite Hnone in Hrow. discriminate.
Qed.

End DirectScraping.

Section DirectScrapingExamples.
Import Text App KeywordValidator Route DirectScraper Notions.

Lemma scrape_profiles_rows_witness :
  exists row,
    let d := data row in
    (true = true ->
     email d <> "" /\ is_generic_email (email d) = false /\
     name d <> "" /\ name d <> "Unknown" /\
     (name_tokens (name d) = [] \/
      exists part, In part (name_tokens (name d)) /\ occurs_in part (lower (email d)))) /\
    (true = true ->
     let validation :=
       validate_profile (new (stripped_lines "RFID engineer")) (name d)
         (snippet d +:+ " " +:+ job_title d) (title d) (job_title d) (company d)
         (profile_url d) in
     is_valid validation = true /\
     relevance row = Some (score validation, reason validation, confidence validation)) /\
    (true = false -> relevance row = None).
Proof.
  eexists.
  apply (scrape_profiles_rows one_hit (fun _ _ => []) (fun _ _ _ => []) jane_page true
           "RFID engineer" "" 10 true "linkedin").
  vm_compute. left. reflexivity.
Defined.

Lemma scrape_profiles_other_source_witness :
  scrape_profiles one_hit (fun _ _ => []) (fun _ _ _ => []) jane_page true
    "RFID engineer" "" 10 true "github" = [].
Proof.
  apply scrape_profiles_other_source; discriminate.
Defined.

End DirectScrapingExamples.

(** ** Worked examples of the specification *)

Section Examples.
Import Text App KeywordValidator.

(** The engineer: both keyword terms and four professional terms occur. *)
Example engineer_is_valid :
  let v := validate_profile (new ["RFID"; "engineer"]) "Jane Doe"
             "Senior RFID Engineer at Acme Corp, 8 years experience" "" "" "" "" in
  is_valid v = true /\ score v = 0.64000000000000001%float /\
  reason v = "Found 2 keyword match(es); Found 4 professional indicator(s)".
Proof. vm_compute. repeat split. Qed.

(** The product listing. *)
Example product_listing_is_rejected :
  let v := validate_profile (new ["RFID"; "engineer"]) "Jane Doe"
             "Buy our RFID blocking wallet now, 20% off, add to cart" "" "" "" "" in
  is_valid v = false /\
  reason v = "Profile appears to be selling products (found 4 irrelevant terms)".
Proof. vm_compute. repeat split. Qed.

(** Without a keyword match the score of professional-sounding text is
    cut to three tenths. *)
Example no_keyword_match_is_discounted :
  score (validate_profile (new ["rfid"]) "Jane Doe"
           "Senior engineer with years of experience" "" "" "" "")
    = 0.071999999999999995%float /\
  score (validate_profile (new ["engineer"]) "Jane Doe"
           "Senior engineer with years of experience" "" "" "" "")
    = 0.64000000000000001%float.
Proof. vm_compute. repeat split. Qed.

(** Two pages attributed the same email: the first one is kept. *)
Example first_page_keeps_the_email :
  deduplicate_results
    [row "Jane Doe" "jane.doe@acme.com" "https://a.example/jane";
     row "Jane Doe" "jane.doe@acme.com" "https://b.example/jane"]
  = [row "Jane Doe" "jane.doe@acme.com" "https://a.example/jane"].
Proof. vm_compute. reflexivity. Qed.

(** A generic address in the text is passed over for a personal one. *)
Example support_address_is_discarded :
  extract_email offline "Mail support@acme.com or ann.lee@acme.com" "" "Ann Lee" "" ""
  = "ann.lee@acme.com".
Proof. vm_compute. reflexivity. Qed.

(** The patterns of [extract_company]. *)
Example extract_company_examples :
  extract_company "Senior RFID Engineer at Acme Corp, 8 years" = "Acme" /\
  extract_company "Engineer at Acme Corporation" = "Acme" /\
  extract_company "mail me @ Foo-Bar LLC now" = "Foo-Bar" /\
  extract_company "nothing here" = "".
Proof. vm_compute. repeat split. Qed.

End Examples.
